(** * Verification of the broodlist pedigree engine

    The development follows the repository's scripts:
    - [Pedigree]      : [pedigree.py] (tree builder and row layout),
    - [MakePedigree]  : [make_pedigree.py] and [make_pedigree_image.py]
                        (depth resolver and inbreeding analyzer),
    followed by the facts proved about each.

    Python integers are [Z], Python [str] is [string], a [dict] that is only
    read is a [gmap], a [dict] whose iteration order is observed is an
    insertion-ordered association list, a [set] is a [gset]. *)

From Stdlib Require Import ZArith Lia PrimFloat FloatOps.
From stdpp Require Import gmap strings list sorting pretty.
From Equations Require Import Equations.

#[local] Set Warnings "-clear-no-such-hyp".

Local Open Scope Z_scope.

(** * pedigree.py *)
Module Pedigree.

(** [class Horse] *)
Record Horse := mkHorse {
  key : string;
  sire : option string;
  dam : option string;
  sex : string;
  color : string;
  year : string;
  details : string;
  url : string;
  name : string;
  is_placeholder : bool
}.

(** [class PedigreeNode]; the fields [sire]/[dam] of the node are called
    [n_sire]/[n_dam] here to keep them apart from the fields of [Horse]. *)
#[local] Unset Elimination Schemes.
Inductive PedigreeNode := mkNode {
  horse : Horse;
  n_sire : option PedigreeNode;
  n_dam : option PedigreeNode;
  row_start : Z;
  row_end : Z;
  depth : Z
}.
#[local] Set Elimination Schemes.

Definition UNKNOWN_HORSE : Horse :=
  mkHorse "UNKNOWN" None None "" "" "" "" "" "Unknown" false.

Definition placeholder_horse : Horse :=
  mkHorse "" None None "" "" "" "" "" "" true.

(** [horses.get(k) if k else None]: a key that is [None] or the empty
    string is falsy and is not looked up. *)
Definition get_parent (horses : gmap string Horse) (k : option string)
  : option Horse :=
  match k with
  | Some s => if decide (s = "") then None else horses !! s
  | None => None
  end.

(** The inner function [build_node] of [build_tree]; it closes over
    [horses] and [generations].  The recursion goes from [depth] to
    [depth + 1] under the guard [depth < generations - 1]. *)
Equations? build_node (horses : gmap string Horse) (generations : Z)
    (h : Horse) (d : Z) : PedigreeNode
    by wf (Z.to_nat (generations - 1 - d)) lt :=
  build_node horses generations h d with Z_lt_dec d (generations - 1) => {
    | left _ =>
        let sire_horse := default placeholder_horse (get_parent horses (sire h)) in
        let dam_horse := default placeholder_horse (get_parent horses (dam h)) in
        mkNode h
          (Some (build_node horses generations sire_horse (d + 1)))
          (Some (build_node horses generations dam_horse (d + 1)))
          0 0 d;
    | right _ => mkNode h None None 0 0 d }.
Proof. all: lia. Qed.

Definition build_tree (horses : gmap string Horse) (k : string)
    (generations : Z) : PedigreeNode :=
  let root_horse := default UNKNOWN_HORSE (horses !! k) in
  build_node horses generations root_horse 0.

(** [assign_rows] mutates the nodes in place and returns the next leaf
    index; here it returns the updated node together with that index. *)
Fixpoint assign_rows (node : PedigreeNode) (leaf_index generations : Z)
  : PedigreeNode * Z :=
  match node with
  | mkNode h s d rs re dp =>
    if bool_decide (generations - 1 <= dp)
       || (bool_decide (s = None) && bool_decide (d = None)) then
      (mkNode h s d leaf_index leaf_index dp, leaf_index + 1)
    else
      let '(s', leaf_index) :=
        match s with
        | Some sn =>
            let '(sn', li) := assign_rows sn leaf_index generations in
            (Some sn', li)
        | None => (None, leaf_index)
        end in
      let '(d', leaf_index) :=
        match d with
        | Some dn =>
            let '(dn', li) := assign_rows dn leaf_index generations in
            (Some dn', li)
        | None => (None, leaf_index)
        end in
      let rs' :=
        match s', d' with
        | Some sn, _ => row_start sn
        | None, Some dn => row_start dn
        | None, None => rs (* not reached: the first test returned *)
        end in
      let re' :=
        match d', s' with
        | Some dn, _ => row_end dn
        | None, Some sn => row_end sn
        | None, None => re (* not reached *)
        end in
      (mkNode h s' d' rs' re' dp, leaf_index)
  end.

(** ** Observations on trees *)

(** Every node of a tree, the root first, sire side before dam side. *)
Fixpoint subnodes (node : PedigreeNode) : list PedigreeNode :=
  match node with
  | mkNode _ s d _ _ _ =>
      node ::
      match s with Some sn => subnodes sn | None => [] end ++
      match d with Some dn => subnodes dn | None => [] end
  end.

Definition is_leaf (node : PedigreeNode) : Prop :=
  n_sire node = None /\ n_dam node = None.

(** Number of leaves (nodes without children) below and including a node. *)
Fixpoint leaf_count (node : PedigreeNode) : Z :=
  match node with
  | mkNode _ None None _ _ _ => 1
  | mkNode _ s d _ _ _ =>
      match s with Some sn => leaf_count sn | None => 0 end +
      match d with Some dn => leaf_count dn | None => 0 end
  end.


(** Length of the span [row_start .. row_end], both ends included. *)
Definition span_len (node : PedigreeNode) : Z :=
  row_end node - row_start node + 1.

(** Row [r] lies inside the span of [node]. *)
Definition covers (node : PedigreeNode) (r : Z) : Prop :=
  row_start node <= r <= row_end node.

(** The shape [build_node] produces for generation count [G]: below
    depth [G - 1] both children are present one level deeper, from depth
    [G - 1] on there is none. *)
Fixpoint well_built (G : Z) (node : PedigreeNode) : Prop :=
  match node with
  | mkNode _ s d _ _ dp =>
      match s, d with
      | Some sn, Some dn =>
          dp < G - 1 /\ depth sn = dp + 1 /\ depth dn = dp + 1 /\
          well_built G sn /\ well_built G dn
      | None, None => G - 1 <= dp
      | _, _ => False
      end
  end.

(** The spans of a laid-out tree: a leaf holds one row, a node with two
    children starts with its sire side, ends with its dam side, and the
    dam side starts right after the sire side. *)
Fixpoint laid_out (node : PedigreeNode) : Prop :=
  match node with
  | mkNode _ s d rs re _ =>
      match s, d with
      | Some sn, Some dn =>
          rs = row_start sn /\ row_end sn + 1 = row_start dn /\
          re = row_end dn /\ laid_out sn /\ laid_out dn
      | Some sn, None => rs = row_start sn /\ re = row_end sn /\ laid_out sn
      | None, Some dn => rs = row_start dn /\ re = row_end dn /\ laid_out dn
      | None, None => re = rs
      end
  end.

(** The horses of the children are the ones [build_node] looks up from
    the parent's horse, the placeholder standing in for a missing one. *)
Fixpoint linked (horses : gmap string Horse) (node : PedigreeNode) : Prop :=
  match node with
  | mkNode h s d _ _ _ =>
      match s with
      | Some sn =>
          horse sn = default placeholder_horse (get_parent horses (sire h)) /\
          linked horses sn
      | None => True
      end /\
      match d with
      | Some dn =>
          horse dn = default placeholder_horse (get_parent horses (dam h)) /\
          linked horses dn
      | None => True
      end
  end.

(** The span of one node of a laid-out tree is exact: as long as its
    number of leaves, one row for a leaf, and for an inner node the span
    of the sire side followed at once by the span of the dam side. *)
Definition span_exact (n : PedigreeNode) : Prop :=
  row_start n <= row_end n /\
  span_len n = leaf_count n /\
  (is_leaf n -> span_len n = 1) /\
  (~ is_leaf n ->
   exists s d, n_sire n = Some s /\ n_dam n = Some d /\
     row_start n = row_start s /\ row_end s + 1 = row_start d /\
     row_end n = row_end d /\
     (forall r, covers n r <-> covers s r \/ covers d r) /\
     (forall r, ~ (covers s r /\ covers d r))).

(** A small stable used to run the builder. *)
Definition stable : gmap string Horse :=
  list_to_map
    [("A", mkHorse "A" (Some "B") (Some "C") "M" "" "2020" "" "" "Alpha" false);
     ("B", mkHorse "B" (Some "D") None "M" "" "2010" "" "" "Bravo" false);
     ("C", mkHorse "C" (Some "D") (Some "E") "F" "" "2011" "" "" "Charlie" false);
     ("D", mkHorse "D" None None "M" "" "2000" "" "" "Delta" false);
     ("X", mkHorse "X" (Some "X") None "M" "" "1999" "" "" "Xray" false)].

End Pedigree.

(** * make_pedigree.py and make_pedigree_image.py *)

(** Outcome of a Python call: a value, a raised exception, or (only for
    the fuelled model of [depth_for]) exhausted fuel. *)
Inductive outcome (A : Type) : Type :=
  | Ok (a : A)
  | Raised (exn : string)
  | OutOfFuel.
Arguments Ok {A} a.
Arguments Raised {A} exn.
Arguments OutOfFuel {A}.

#[global] Instance outcome_ret : MRet outcome := fun A a => Ok a.
#[global] Instance outcome_bind : MBind outcome := fun A B f m =>
  match m with
  | Ok a => f a
  | Raised e => Raised e
  | OutOfFuel => OutOfFuel
  end.

Module MakePedigree.

(** A row of [csv.DictReader]: column name to value; a short line leaves
    its missing columns at [None]. *)
Abbreviation row := (gmap string (option string)).

(** One recorded occurrence: the dict [{"gen": .., "path": .., "side": ..}].
    [make_pedigree.py] records no side; there the tag type is [unit]. *)
Record Occurrence (T : Type) := mkOcc {
  gen : Z;
  path : list string;
  side : T
}.
Arguments mkOcc {T} gen path side.
Arguments gen {T} o.
Arguments path {T} o.
Arguments side {T} o.

(** The value stored in [inbred].  A Python float is a binary64 number:
    [float] is the type of the binary64 numbers of the kernel, with the
    IEEE 754 operations rounding to nearest, ties to even. *)
Record InbredEntry := mkEntry {
  gens : list Z;
  percentage : float;
  paths : list (list string)
}.

(** ** Python containers *)

(** Insertion-ordered [dict] with string keys. *)
Definition dict (V : Type) : Type := list (string * V).

Fixpoint dict_get {V} (d : dict V) (k : string) : option V :=
  match d with
  | [] => None
  | (k', v) :: rest => if decide (k' = k) then Some v else dict_get rest k
  end.

(** [d[k] = v]: overwrite in place, or append a new key at the end. *)
Fixpoint dict_set {V} (d : dict V) (k : string) (v : V) : dict V :=
  match d with
  | [] => [(k, v)]
  | (k', v') :: rest =>
      if decide (k' = k) then (k', v) :: rest
      else (k', v') :: dict_set rest k v
  end.

Definition dict_keys {V} (d : dict V) : list string := d.*1.

(** [d[k]], raising [KeyError] on a missing key. *)
Definition dict_item {V} (d : dict V) (k : string) : outcome V :=
  match dict_get d k with
  | Some v => Ok v
  | None => Raised "KeyError"
  end.

(** [occurrences.setdefault(k, []).append(o)] *)
Fixpoint setdefault_append {V} (d : dict (list V)) (k : string) (o : V)
  : dict (list V) :=
  match d with
  | [] => [(k, [o])]
  | (k', l) :: rest =>
      if decide (k' = k) then (k', l ++ [o]) :: rest
      else (k', l) :: setdefault_append rest k o
  end.

(** [s.remove(x)], raising [KeyError] when [x] is not a member. *)
Definition set_remove (x : string) (s : gset string) : outcome (gset string) :=
  if decide (x ∈ s) then Ok (s ∖ {[x]}) else Raised "KeyError".

(** [l.index(x)]: first position of [x], raising [ValueError] if absent. *)
Fixpoint list_index (x : string) (l : list string) : outcome nat :=
  match l with
  | [] => Raised "ValueError"
  | y :: rest =>
      if decide (y = x) then Ok 0%nat
      else i ← list_index x rest; Ok (S i)
  end.

(** [0.5 ** g] for a Python int [g]: the power of two [2 ** -g], exact
    down to the smallest subnormal number and 0 below it.  (The
    generations of the walk start at 1 and grow; for an exponent beyond
    the range of the floats, which the walk never reaches, the builtin
    raises [OverflowError].) *)
Definition pow_half (g : Z) : float := Z.ldexp 1 (- g).

(** [sum] adds floats in one of two ways, by the version of the
    interpreter: CPython up to 3.11 adds from left to right; CPython 3.12
    and later keeps the rounding errors in a second float that it adds at
    the end (the summation of Neumaier).  The development holds for
    both. *)
Class SumMode := { compensated : bool }.

(** [cs_add] and [cs_to_double] of the interpreter. *)
Definition cs_add (total : float * float) (x : float) : float * float :=
  let '(hi, lo) := total in
  let t := (hi + x)%float in
  if PrimFloat.leb (abs x) (abs hi)
  then (t, (lo + ((hi - t) + x))%float)
  else (t, (lo + ((x - t) + hi))%float).

Definition cs_to_double (total : float * float) : float :=
  let '(hi, lo) := total in
  if negb (is_zero lo) && negb (is_nan lo || is_infinity lo)
  then (hi + lo)%float
  else hi.

(** [sum(xs)] for floats [xs]; the sum of no float is the int 0, which
    the product with [100.0] turns into the float 0. *)
Definition py_sum {sum_mode : SumMode} (xs : list float) : float :=
  if compensated then cs_to_double (foldl cs_add (0, 0)%float xs)
  else foldl PrimFloat.add 0%float xs.

(** A statement about a run that holds whichever way [sum] adds. *)
Definition either_sum (P : SumMode -> Prop) : Prop :=
  P {| compensated := false |} /\ P {| compensated := true |}.

(** [sorted(gens, reverse=True)] *)
Definition sorted_reverse (l : list Z) : list Z :=
  merge_sort Z.ge l.

(** [b] stands in [p] at the position of [a] or before it. *)
Definition at_or_before (b a : string) (p : list string) : Prop :=
  exists i j, p !! i = Some b /\ p !! j = Some a /\ (i <= j)%nat.

(** The paths of an entry are usable by the subsumption loop when each
    holds the ancestor itself and repeats no identifier. *)
Definition usable_paths (a : string) (ps : list (list string)) : Prop :=
  forall p, p ∈ ps -> a ∈ p /\ NoDup p.

(** [o] explains all of the recurrence of [a]: it is another key and
    stands at or before [a] in each of the paths of [a]. *)
Definition subsumes (inbred : dict InbredEntry) (o a : string) : Prop :=
  o <> a /\
  exists e, dict_get inbred a = Some e /\ Forall (at_or_before o a) (paths e).

Definition usable (inbred : dict InbredEntry) : Prop :=
  forall a e, dict_get inbred a = Some e -> usable_paths a (paths e).

Section Engine.

(** [str.strip] is a builtin of the host language; the development is
    parametric in it. *)
Variable strip : string -> string.

(** The way [sum] adds floats is a parameter as well. *)
Context {sum_mode : SumMode}.

(** [(data.get(col) or "").strip()] *)
Definition field (data : row) (col : string) : string :=
  strip (match data !! col with Some (Some v) => v | _ => "" end).

(** ** Depth resolver: [compute_max_depth] *)

(** The closure state of [depth_for]: the [memo] dict and the [visiting]
    set. *)
Definition DepthState : Type := gmap string Z * gset string.

(** [max(depths)]; the builtin raises on an empty list, which does not
    occur: [depths] starts as [[0]] and only grows. *)
Definition py_max (depths : list Z) : Z :=
  match depths with
  | [] => 0
  | d :: rest => foldl Z.max d rest
  end.

(** The inner function [depth_for].  Its recursion is not bounded by an
    argument, so the model takes fuel. *)
Fixpoint depth_for (fuel : nat) (by_pk : gmap string row) (node_pk : string)
    (st : DepthState) : outcome (Z * DepthState) :=
  match fuel with
  | O => OutOfFuel
  | S fuel =>
    let '(memo, visiting) := st in
    match memo !! node_pk with
    | Some d => Ok (d, (memo, visiting))
    | None =>
      if decide (node_pk ∈ visiting) then Ok (0, (memo, visiting))
      else
        let visiting := {[node_pk]} ∪ visiting in
        match by_pk !! node_pk with
        | None =>
            let memo := <[node_pk := 0]> memo in
            visiting ← set_remove node_pk visiting;
            Ok (0, (memo, visiting))
        | Some data =>
            let sire := field data "Sire" in
            let dam := field data "Dam" in
            let depths := [0] in
            '(depths, st) ←
              (if decide (sire = "") then Ok (depths, (memo, visiting))
               else '(d, st) ← depth_for fuel by_pk sire (memo, visiting);
                    Ok (depths ++ [1 + d], st));
            '(depths, st) ←
              (if decide (dam = "") then Ok (depths, st)
               else '(d, st) ← depth_for fuel by_pk dam st;
                    Ok (depths ++ [1 + d], st));
            let '(memo, visiting) := st in
            let max_depth := py_max depths in
            let memo := <[node_pk := max_depth]> memo in
            visiting ← set_remove node_pk visiting;
            Ok (max_depth, (memo, visiting))
        end
    end
  end.

(** [compute_max_depth(pk, by_pk)].  Every recursive call of [depth_for]
    adds a key of [by_pk] to [visiting], so [size by_pk + 1] nested calls
    are the most that can occur ([compute_max_depth_returns]). *)
Definition compute_max_depth (pk : string) (by_pk : gmap string row)
  : outcome Z :=
  '(d, _) ← depth_for (S (size by_pk)) by_pk pk (∅, ∅);
  Ok d.

(** The depth as the specification words it, to be compared with
    [compute_max_depth]: an identifier on the current visiting path and an
    identifier without record have depth 0; otherwise the depth is
    [max(0, 1 + depth(sire), 1 + depth(dam))], taken with the identifier
    added to the visiting path, an absent parent contributing nothing.
    Each step adds a key of [by_pk] to [visiting]. *)
Equations? depth_spec (by_pk : gmap string row) (visiting : gset string)
    (node_pk : string) : Z
    by wf (size (dom by_pk ∖ visiting)) lt :=
  depth_spec by_pk visiting node_pk with decide (node_pk ∈ visiting) => {
    | left _ => 0
    | right _ with Equations.Prop.Logic.inspect (by_pk !! node_pk) => {
        | exist _ None _ => 0
        | exist _ (Some data) Hdata =>
            Z.max 0
              (Z.max
                 (if decide (field data "Sire" = "") then 0
                  else 1 + depth_spec by_pk ({[node_pk]} ∪ visiting)
                             (field data "Sire"))
                 (if decide (field data "Dam" = "") then 0
                  else 1 + depth_spec by_pk ({[node_pk]} ∪ visiting)
                             (field data "Dam"))) } }.
Proof.
  all: apply subset_size; apply elem_of_dom_2 in Hdata; set_solver.
Qed.

(** Invariants of the memo of [depth_for]: no depth is negative, and,
    for stores without cycles, every depth is the specified one. *)
Definition memo_nonneg (memo : gmap string Z) : Prop :=
  forall k v, memo !! k = Some v -> 0 <= v.

Definition memo_exact (by_pk : gmap string row) (memo : gmap string Z) : Prop :=
  forall k v, memo !! k = Some v -> v = depth_spec by_pk ∅ k.

(** ** Inbreeding analyzer: [collect_inbreeding] *)

Section Walk.
Context {T : Type}.

(** The closure state of [walk]: the [occurrences] dict and the
    [visiting] set passed along. *)
Definition WalkState : Type := dict (list (Occurrence T)) * gset string.

(** The inner function [walk]. *)
Equations? walk (by_pk : gmap string row) (max_depth : Z) (node_pk : string)
    (gen : Z) (path : list string) (sd : T) (st : WalkState)
    : outcome WalkState by wf (Z.to_nat (max_depth - gen)) lt :=
  walk by_pk max_depth node_pk gen path sd st :=
    if bool_decide (max_depth < gen) then Ok st
    else if bool_decide (node_pk ∈ st.2) then Ok st
    else
      let visiting := {[node_pk]} ∪ st.2 in
      let new_path := path ++ [node_pk] in
      let occurrences :=
        setdefault_append st.1 node_pk (mkOcc gen new_path sd) in
      match by_pk !! node_pk with
      | None =>
          visiting ← set_remove node_pk visiting;
          Ok (occurrences, visiting)
      | Some data =>
          let sire := field data "Sire" in
          let dam := field data "Dam" in
          st ←
            match Z_lt_dec gen max_depth with
            | left _ =>
                st ← (if decide (sire = "") then Ok (occurrences, visiting)
                      else walk by_pk max_depth sire (gen + 1) new_path sd
                             (occurrences, visiting));
                (if decide (dam = "") then Ok st
                 else walk by_pk max_depth dam (gen + 1) new_path sd st)
            | right _ => Ok (occurrences, visiting)
            end;
          visiting ← set_remove node_pk st.2;
          Ok (st.1, visiting)
      end.
Proof. all: lia. Qed.

(** The two top-level calls of [collect_inbreeding]; each gets a fresh
    [set()] and both share [occurrences].  [sire_tag]/[dam_tag] are the
    side labels. *)
Definition walk_parents (sire_tag dam_tag : T) (pk : string)
    (by_pk : gmap string row) (max_depth : Z)
  : outcome (dict (list (Occurrence T))) :=
  let occurrences := [] in
  match by_pk !! pk with
  | Some data =>
      if decide (data = ∅) then Ok occurrences
      else
        let sire := field data "Sire" in
        let dam := field data "Dam" in
        occurrences ←
          (if decide (sire = "") then Ok occurrences
           else st ← walk by_pk max_depth sire 1 [] sire_tag (occurrences, ∅);
                Ok st.1);
        (if decide (dam = "") then Ok occurrences
         else st ← walk by_pk max_depth dam 1 [] dam_tag (occurrences, ∅);
              Ok st.1)
  | None => Ok occurrences
  end.

End Walk.

(** ** The ancestor paths the walk records, without state *)

(** The non-empty parent links of a record, sire first. *)
Definition parents (by_pk : gmap string row) (k : string) : list string :=
  match by_pk !! k with
  | Some data =>
      (if decide (field data "Sire" = "") then [] else [field data "Sire"]) ++
      (if decide (field data "Dam" = "") then [] else [field data "Dam"])
  | None => []
  end.

(** The parent links [collect_inbreeding] starts from: those of the
    subject, provided its row is truthy ([if data:]). *)
Definition top_parents (by_pk : gmap string row) (pk : string) : list string :=
  match by_pk !! pk with
  | Some data => if decide (data = ∅) then [] else parents by_pk pk
  | None => []
  end.

(** [chain by_pk k l]: [l] follows parent links upwards from [k]. *)
Fixpoint chain (by_pk : gmap string row) (k : string) (l : list string)
  : Prop :=
  match l with
  | [] => True
  | p :: rest => p ∈ parents by_pk k /\ chain by_pk p rest
  end.

(** A record store without cyclic parentage: the identifiers can be
    ranked so that every parent ranks below its child. *)
Definition acyclic (by_pk : gmap string row) : Prop :=
  exists rank : string -> nat,
    forall k p, p ∈ parents by_pk k -> (rank p < rank k)%nat.

(** [ancestor_path by_pk pk M p]: [p] leads from a parent of the subject
    [pk] upwards along parent links, passes no identifier twice and is at
    most [M] generations long. *)
Definition ancestor_path (by_pk : gmap string row) (pk : string) (M : Z)
    (p : list string) : Prop :=
  exists first suffix,
    p = first :: suffix /\ first ∈ top_parents by_pk pk /\
    chain by_pk first suffix /\ NoDup p /\ Z.of_nat (length p) <= M.

Section Trace.
Context {T : Type}.

(** The occurrences one call of [walk] appends, in order; [path] plays
    the role of the visiting set, which holds exactly its members. *)
Equations? trace (by_pk : gmap string row) (max_depth : Z) (node_pk : string)
    (gen : Z) (path : list string) (sd : T) : list (Occurrence T)
    by wf (Z.to_nat (max_depth - gen)) lt :=
  trace by_pk max_depth node_pk gen path sd :=
    if bool_decide (max_depth < gen) then []
    else if bool_decide (node_pk ∈ path) then []
    else
      let new_path := path ++ [node_pk] in
      mkOcc gen new_path sd ::
      match Z_lt_dec gen max_depth with
      | left _ =>
          p ← parents by_pk node_pk;
          trace by_pk max_depth p (gen + 1) new_path sd
      | right _ => []
      end.
Proof. lia. Qed.

(** The key under which an occurrence is filed: the last identifier of
    its path. *)
Definition occ_key (o : Occurrence T) : string := default "" (last (path o)).

Definition record_all (tr : list (Occurrence T))
    (occurrences : dict (list (Occurrence T))) : dict (list (Occurrence T)) :=
  foldl (fun d o => setdefault_append d (occ_key o) o) occurrences tr.

(** All occurrences of one run, sire side first. *)
Definition all_occurrences (sire_tag dam_tag : T) (pk : string)
    (by_pk : gmap string row) (max_depth : Z) : list (Occurrence T) :=
  match by_pk !! pk with
  | Some data =>
      if decide (data = ∅) then []
      else
        (if decide (field data "Sire" = "") then []
         else trace by_pk max_depth (field data "Sire") 1 [] sire_tag) ++
        (if decide (field data "Dam" = "") then []
         else trace by_pk max_depth (field data "Dam") 1 [] dam_tag)
  | None => []
  end.

(** The occurrences of a trace filed under key [a], in order. *)
Definition hits (a : string) (tr : list (Occurrence T)) : list (Occurrence T) :=
  filter (fun o => occ_key o = a) tr.

End Trace.

(** The body of the aggregation loop shared by both scripts: the entry
    stored for an ancestor with occurrences [occs]. *)
Definition entry_of {T} (occs : list (Occurrence T)) : InbredEntry :=
  let gens := gen <$> occs in
  let percentage := (py_sum (pow_half <$> gens) * 100)%float in
  let gens_sorted := sorted_reverse gens in
  let paths := path <$> occs in
  mkEntry gens_sorted percentage paths.

(** [for ancestor, occs in occurrences.items(): ...] of
    [make_pedigree.py]. *)
Definition aggregate {T} (occurrences : dict (list (Occurrence T)))
  : dict InbredEntry :=
  foldl (fun inbred '(ancestor, occs) =>
           if bool_decide (length occs < 2)%nat then inbred
           else dict_set inbred ancestor (entry_of occs))
        [] occurrences.

(** The classification of [make_pedigree_image.py] from the set of sides
    [{occ["side"] for occ in occs}]. *)
Definition inbred_type (sides : gset string) : string :=
  if decide (sides = {["Sire"]}) then "sire"
  else if decide (sides = {["Dam"]}) then "dam"
  else "both".

(** The same loop in [make_pedigree_image.py], which also fills
    [inbred_types]. *)
Definition aggregate_image (occurrences : dict (list (Occurrence string)))
  : dict InbredEntry * dict string :=
  foldl (fun '(inbred, inbred_types) '(ancestor, occs) =>
           if bool_decide (length occs < 2)%nat then (inbred, inbred_types)
           else
             let sides : gset string := list_to_set (side <$> occs) in
             (dict_set inbred ancestor (entry_of occs),
              dict_set inbred_types ancestor (inbred_type sides)))
        ([], []) occurrences.

(** The innermost loop [for path in inbred[ancestor]["paths"]]: the final
    value of [all_contained]. *)
Fixpoint all_contained (ancestor other : string) (paths : list (list string))
  : outcome bool :=
  match paths with
  | [] => Ok true
  | path :: rest =>
      if bool_decide (other ∉ path) then Ok false
      else
        io ← list_index other path;
        ia ← list_index ancestor path;
        if bool_decide (ia < io)%nat then Ok false
        else all_contained ancestor other rest
  end.

(** The loop [for other in candidates] for one [ancestor]: whether it
    reached [subsumed.add(ancestor)]. *)
Fixpoint find_subsumer (inbred : dict InbredEntry) (ancestor : string)
    (others : list string) : outcome bool :=
  match others with
  | [] => Ok false
  | other :: rest =>
      if decide (ancestor = other) then find_subsumer inbred ancestor rest
      else
        e ← dict_item inbred ancestor;
        b ← all_contained ancestor other (paths e);
        if (b : bool) then Ok true else find_subsumer inbred ancestor rest
  end.

(** The loop [for ancestor in candidates] over a suffix [todo] of the
    candidates. *)
Fixpoint subsume_loop (inbred : dict InbredEntry) (candidates : list string)
    (todo : list string) (subsumed : gset string) : outcome (gset string) :=
  match todo with
  | [] => Ok subsumed
  | ancestor :: rest =>
      b ← find_subsumer inbred ancestor candidates;
      subsume_loop inbred candidates rest
        (if (b : bool) then {[ancestor]} ∪ subsumed else subsumed)
  end.

Definition compute_subsumed (inbred : dict InbredEntry) : outcome (gset string) :=
  let subsumed := ∅ in
  let candidates := dict_keys inbred in
  subsume_loop inbred candidates candidates subsumed.

(** [collect_inbreeding] of [make_pedigree.py]: returns
    [(inbred, subsumed)]. *)
Definition collect_inbreeding (pk : string) (by_pk : gmap string row)
    (max_depth : Z) : outcome (dict InbredEntry * gset string) :=
  occurrences ← walk_parents tt tt pk by_pk max_depth;
  let inbred := aggregate occurrences in
  subsumed ← compute_subsumed inbred;
  Ok (inbred, subsumed).

(** [collect_inbreeding] of [make_pedigree_image.py]: returns
    [(inbred, subsumed, inbred_types)]. *)
Definition collect_inbreeding_image (pk : string) (by_pk : gmap string row)
    (max_depth : Z)
  : outcome (dict InbredEntry * gset string * dict string) :=
  occurrences ← walk_parents "Sire" "Dam" pk by_pk max_depth;
  let '(inbred, inbred_types) := aggregate_image occurrences in
  subsumed ← compute_subsumed inbred;
  Ok (inbred, subsumed, inbred_types).

(** [inbred_pks = set(inbred.keys()) - subsumed] in [write_excel] and in
    the image renderer: the ancestors that are reported. *)
Definition inbred_pks (inbred : dict InbredEntry) (subsumed : gset string)
  : gset string :=
  list_to_set (dict_keys inbred) ∖ subsumed.

(** ** [clamp_depth] *)

(** [requested_depth] is [None] when no count was asked for. *)
Definition clamp_depth (pk : string) (by_pk : gmap string row)
    (requested_depth : option Z) : outcome Z :=
  max_depth ← compute_max_depth pk by_pk;
  match requested_depth with
  | None => Ok max_depth
  | Some r => Ok (Z.max 0 (Z.min max_depth r))
  end.

End Engine.

(** ** The sheet of [write_excel] in [make_pedigree.py] *)

(** The two fills of [write_excel]. *)
Inductive Fill := sire_fill | dam_fill.

(** The calls [place_node] makes on the worksheet, in order:
    [ws.cell(row, column, value)] with the fill and border then set on the
    cell (the alignment is the same for all), and [ws.merge_cells(..)]. *)
Inductive SheetOp :=
  | SetCell (row column : Z) (value : string) (fill : option Fill)
            (red_border : bool)
  | MergeCells (start_row end_row start_column end_column : Z).

(** The cells an operation covers: the cell written, or all the cells of
    the range merged. *)
Definition covers (op : SheetOp) (r c : Z) : Prop :=
  match op with
  | SetCell r' c' _ _ _ => r = r' /\ c = c'
  | MergeCells sr er sc ec => sc <= c <= ec /\ sr <= r <= er
  end.

(** [op1] writes the cell at which the merge [op2] starts: its top left
    cell, which keeps its value. *)
Definition anchored (op1 op2 : SheetOp) : Prop :=
  match op1, op2 with
  | SetCell r c _ _ _, MergeCells sr _ sc _ => r = sr /\ c = sc
  | _, _ => False
  end.

(** Two operations of the list cover a common cell only when the earlier
    one writes the cell at which the later one, a merge, starts. *)
Fixpoint separate (ops : list SheetOp) : Prop :=
  match ops with
  | [] => True
  | op :: rest =>
      (forall op' r c, op' ∈ rest -> covers op r c -> covers op' r c ->
                       anchored op op') /\
      separate rest
  end.

(** [within max_depth gen row_start row_end op]: [op] covers cells of the
    columns of generation [gen] and later, in the sheet rows of the span
    [row_start .. row_end] only. *)
Definition within (max_depth gen row_start row_end : Z) (op : SheetOp)
  : Prop :=
  forall r c, covers op r c ->
    gen + 1 <= c <= max_depth /\ row_start + 3 <= r <= row_end + 3.

(** A merge is one column wide and as high as a node of its column. *)
Definition well_sized (max_depth : Z) (op : SheetOp) : Prop :=
  match op with
  | SetCell _ _ _ _ _ => True
  | MergeCells sr er sc ec =>
      sc = ec /\ sr < er /\ er - sr + 1 = 2 ^ (max_depth - sc)
  end.

Section Excel.

(** [str.strip] and [str.upper] of the host language. *)
Variable strip : string -> string.
Variable upper : string -> string.

(** [display_name(pk, data, note)] *)
Definition display_name (pk : string) (data : option row) (note : string)
  : string :=
  match data with
  | None =>
      let base := pk in
      let suffix := if decide (note = "") then "not_found" else note in
      base +:+ " (" +:+ suffix +:+ ")"
  | Some data =>
      let name := field strip data "Horse Name" in
      let year := field strip data "Year" in
      let base := if decide (name = "") then pk else name in
      let base := if decide (year = "") then base else base +:+ " " +:+ year in
      if decide (base = pk) then base
      else base +:+ " (" +:+ pk +:+ ")"
  end.

(** The calls one node makes on the worksheet: its cell and, when its span
    has more than one row, the merge of the span. *)
Definition node_ops (by_pk : gmap string row) (inbred_pks : gset string)
    (node_pk : string) (gen row_start row_end : Z) (visiting : gset string)
  : list SheetOp :=
  let data := by_pk !! node_pk in
  let text :=
    if decide (node_pk ∈ visiting) then display_name node_pk data "cycle"
    else display_name node_pk data "" in
  let sex :=
    match data with
    | Some d => if decide (d = ∅) then "" else upper (field strip d "Sex")
    | None => ""
    end in
  let fill :=
    if decide (sex = "M") then Some sire_fill
    else if decide (sex = "F") then Some dam_fill
    else None in
  SetCell (row_start + 3) (gen + 1) text fill
    (bool_decide (node_pk ∈ inbred_pks)) ::
  (if bool_decide (row_start < row_end)
   then [MergeCells (row_start + 3) (row_end + 3) (gen + 1) (gen + 1)]
   else []).
(** The closure state of [place_node]: the calls made on the worksheet so
    far and the [visiting] set. *)
Definition SheetState : Type := list SheetOp * gset string.

(** The inner function [place_node] of [write_excel]. *)
Equations? place_node (by_pk : gmap string row) (max_depth : Z)
    (inbred_pks : gset string) (node_pk : string) (gen row_start row_end : Z)
    (st : SheetState) : outcome SheetState
    by wf (Z.to_nat (max_depth - 1 - gen)) lt :=
  place_node by_pk max_depth inbred_pks node_pk gen row_start row_end st :=
    let data := by_pk !! node_pk in
    let text :=
      if decide (node_pk ∈ st.2) then display_name node_pk data "cycle"
      else display_name node_pk data "" in
    let col := gen + 1 in
    let sex :=
      match data with
      | Some d => if decide (d = ∅) then "" else upper (field strip d "Sex")
      | None => ""
      end in
    let fill :=
      if decide (sex = "M") then Some sire_fill
      else if decide (sex = "F") then Some dam_fill
      else None in
    let ops :=
      st.1 ++ [SetCell (row_start + 3) col text fill
                 (bool_decide (node_pk ∈ inbred_pks))] in
    let ops :=
      if bool_decide (row_start < row_end)
      then ops ++ [MergeCells (row_start + 3) (row_end + 3) col col]
      else ops in
    match data with
    | None => Ok (ops, st.2)
    | Some d =>
        match Z_lt_dec gen (max_depth - 1) with
        | right _ => Ok (ops, st.2)
        | left _ =>
            let sire := field strip d "Sire" in
            let dam := field strip d "Dam" in
            if decide (sire = "" /\ dam = "") then Ok (ops, st.2)
            else
              let mid := (row_start + row_end) `div` 2 in
              let visiting := {[node_pk]} ∪ st.2 in
              st ← (if decide (sire = "") then Ok (ops, visiting)
                    else place_node by_pk max_depth inbred_pks sire
                           (gen + 1) row_start mid (ops, visiting));
              st ← (if decide (dam = "") then Ok st
                    else place_node by_pk max_depth inbred_pks dam
                           (gen + 1) (mid + 1) row_end st);
              visiting ← set_remove node_pk st.2;
              Ok (st.1, visiting)
        end
    end.
Proof. all: lia. Qed.

(** What a call of [place_node] can do to the state: it only appends to
    the calls made and only shrinks [visiting]; the one error it can raise
    is the [KeyError] of [visiting.remove]. *)
Definition shape (st : SheetState) (r : outcome SheetState) : Prop :=
  match r with
  | Ok st' => st'.2 ⊆ st.2 /\ exists new, st'.1 = st.1 ++ new
  | Raised e => e = "KeyError"
  | OutOfFuel => False
  end.

(** The text of a cell is the display name of a horse, without a note. *)
Definition plain (by_pk : gmap string row) (op : SheetOp) : Prop :=
  match op with
  | SetCell _ _ value _ _ =>
      exists n, value = display_name n (by_pk !! n) ""
  | MergeCells _ _ _ _ => True
  end.

(** The parent link of a record on the sire side or on the dam side. *)
Definition parent_link (d : row) (dam_side : bool) : string :=
  field strip d (if dam_side then "Dam" else "Sire").

(** The ancestor reached from [node] by a list of sides, each step as
    [place_node] takes it: through a record and a non-empty link. *)
Fixpoint follow (by_pk : gmap string row) (node : string)
    (sides : list bool) : option string :=
  match sides with
  | [] => Some node
  | side :: rest =>
      match by_pk !! node with
      | Some d =>
          if decide (parent_link d side = "") then None
          else follow by_pk (parent_link d side) rest
      | None => None
      end
  end.

(** The same from the subject, whose row must be truthy; the subject
    itself has no cell. *)
Definition top_follow (by_pk : gmap string row) (pk : string)
    (sides : list bool) : option string :=
  match sides with
  | [] => None
  | side :: rest =>
      match by_pk !! pk with
      | Some d =>
          if decide (d = ∅) then None
          else if decide (parent_link d side = "") then None
          else follow by_pk (parent_link d side) rest
      | None => None
      end
  end.

(** The first row of the block of an ancestor: each dam side on the way
    moves it down by the height of a node of that generation. *)
Fixpoint row_offset (max_depth gen : Z) (sides : list bool) : Z :=
  match sides with
  | [] => 0
  | side :: rest =>
      (if (side : bool) then 2 ^ (max_depth - 1 - gen) else 0) +
      row_offset max_depth (gen + 1) rest
  end.

(** The cell of the horse [n] at a row and column of the sheet. *)
Definition cell_for (by_pk : gmap string row) (inbred_pks : gset string)
    (n : string) (r c : Z) : SheetOp :=
  let data := by_pk !! n in
  let sex :=
    match data with
    | Some d => if decide (d = ∅) then "" else upper (field strip d "Sex")
    | None => ""
    end in
  let fill :=
    if decide (sex = "M") then Some sire_fill
    else if decide (sex = "F") then Some dam_fill
    else None in
  SetCell r c (display_name n data "") fill
    (bool_decide (n ∈ inbred_pks)).

Definition is_cell (op : SheetOp) : Prop :=
  match op with
  | SetCell _ _ _ _ _ => True
  | MergeCells _ _ _ _ => False
  end.
(** The cells a call of [place_node] writes: one for each ancestor of
    [node] within the generations left, [node] itself included. *)
Definition cells_of (by_pk : gmap string row) (max_depth : Z)
    (inbred_pks : gset string) (node : string) (gen rs : Z)
    (new : list SheetOp) : Prop :=
  forall op, is_cell op ->
    op ∈ new <->
    exists sides n,
      follow by_pk node sides = Some n /\
      gen + Z.of_nat (length sides) <= max_depth - 1 /\
      op = cell_for by_pk inbred_pks n
             (rs + 3 + row_offset max_depth (gen + 1) sides)
             (gen + 1 + Z.of_nat (length sides)).

(** The ways that lead upwards from [node] in at most [n] steps, each with
    the ancestor it reaches; the way of no step first, sire side before
    dam side. *)
Fixpoint ways (by_pk : gmap string row) (n : nat) (node : string)
  : list (list bool * string) :=
  ([], node) ::
  match n with
  | O => []
  | S n' =>
      match by_pk !! node with
      | Some d =>
          (if decide (parent_link d false = "") then []
           else prod_map (cons false) id <$>
                  ways by_pk n' (parent_link d false)) ++
          (if decide (parent_link d true = "") then []
           else prod_map (cons true) id <$>
                  ways by_pk n' (parent_link d true))
      | None => []
      end
  end.

(** The ways from the subject, of one step at least. *)
Definition top_ways (by_pk : gmap string row) (max_depth : Z) (pk : string)
  : list (list bool * string) :=
  match by_pk !! pk with
  | Some d =>
      if decide (d = ∅) then []
      else if bool_decide (max_depth < 1) then []
      else
        (if decide (parent_link d false = "") then []
         else prod_map (cons false) id <$>
                ways by_pk (Z.to_nat (max_depth - 1))
                  (parent_link d false)) ++
        (if decide (parent_link d true = "") then []
         else prod_map (cons true) id <$>
                ways by_pk (Z.to_nat (max_depth - 1))
                  (parent_link d true))
  | None => []
  end.
(** [total_rows] and [excel_row_limit] of [write_excel]. *)
Definition total_rows (max_depth : Z) : Z :=
  if bool_decide (0 < max_depth) then 2 ^ max_depth else 1.

Definition excel_row_limit : Z := 1048576.

(** The part of [write_excel] that fills the pedigree rows: the check of
    the row limit and, for a positive [max_depth], the two top calls of
    [place_node] on the sire and dam of the subject.  (The title and the
    summary go to rows 1 and 2 and are not modelled.) *)
Definition place_pedigree (pk : string) (by_pk : gmap string row)
    (max_depth : Z) (inbred_pks : gset string) : outcome (list SheetOp) :=
  if bool_decide (excel_row_limit < total_rows max_depth + 2)
  then Raised "SystemExit"
  else
    if bool_decide (0 < max_depth) then
      let data := by_pk !! pk in
      let truthy :=
        match data with
        | Some d => bool_decide (d <> ∅)
        | None => false
        end in
      let sire :=
        match data with
        | Some d => if truthy then field strip d "Sire" else ""
        | None => ""
        end in
      let dam :=
        match data with
        | Some d => if truthy then field strip d "Dam" else ""
        | None => ""
        end in
      if decide (sire = "" /\ dam = "") then Ok []
      else
        let mid := (total_rows max_depth - 1) `div` 2 in
        st ← (if decide (sire = "") then Ok ([], ∅)
              else place_node by_pk max_depth inbred_pks sire 0 0 mid ([], ∅));
        st ← (if decide (dam = "") then Ok st
              else place_node by_pk max_depth inbred_pks dam 0 (mid + 1)
                     (total_rows max_depth - 1) st);
        Ok st.1
    else Ok [].

End Excel.

(** ** The routes of the walk *)

Section Routes.
Variable strip : string -> string.

(** The identifiers passed from [node] by a list of sides, [false] for
    the sire link and [true] for the dam link, [node] itself not counted;
    [None] when a step finds no record or an empty link. *)
Fixpoint route (by_pk : gmap string row) (node : string)
    (sides : list bool) : option (list string) :=
  match sides with
  | [] => Some []
  | side :: rest =>
      match by_pk !! node with
      | Some d =>
          if decide (parent_link strip d side = "") then None
          else cons (parent_link strip d side) <$>
                 route by_pk (parent_link strip d side) rest
      | None => None
      end
  end.

(** A route from the subject [pk] that [collect_inbreeding] walks: the
    row of the subject is truthy, the route has one step at least and
    [M] at most, and the identifiers [p] it passes are all different. *)
Definition clean_route (by_pk : gmap string row) (pk : string) (M : Z)
    (sides : list bool) (p : list string) : Prop :=
  (exists d, by_pk !! pk = Some d /\ d <> ∅) /\
  sides <> [] /\
  route by_pk pk sides = Some p /\
  NoDup p /\
  Z.of_nat (length sides) <= M.

(** The order of depth-first search, sire side first: a route comes
    before the routes that extend it, and a route through the sire link
    before a route through the dam link. *)
Fixpoint route_lt (s1 s2 : list bool) : Prop :=
  match s1, s2 with
  | [], _ :: _ => True
  | b1 :: r1, b2 :: r2 =>
      (b1 = false /\ b2 = true) \/ (b1 = b2 /\ route_lt r1 r2)
  | _, _ => False
  end.

(** [rs] lists the routes to the identifier [a], each with the
    identifiers it passes, once each and in the order of the search. *)
Definition routes_to (by_pk : gmap string row) (pk : string) (M : Z)
    (a : string) (rs : list (list bool * list string)) : Prop :=
  StronglySorted (fun r1 r2 => route_lt r1.1 r2.1) rs /\
  forall sides p,
    (sides, p) ∈ rs <-> clean_route by_pk pk M sides p /\ last p = Some a.

(** The occurrence filed for a route: its length as generation, the
    identifiers passed as path, and the tag of its first link. *)
Definition occ_of_route {T} (sire_tag dam_tag : T)
    (r : list bool * list string) : Occurrence T :=
  mkOcc (Z.of_nat (length r.1)) r.2
        (match r.1 with true :: _ => dam_tag | _ => sire_tag end).

End Routes.

(** A stripper of ASCII white space, to run the definitions on examples. *)
Definition is_space (c : Ascii.ascii) : bool :=
  let n := Ascii.nat_of_ascii c in
  ((9 <=? n) && (n <=? 13) || (28 <=? n) && (n <=? 32))%nat.

Fixpoint lstrip (s : string) : string :=
  match s with
  | String c rest => if is_space c then lstrip rest else s
  | EmptyString => EmptyString
  end.

Definition ascii_strip (s : string) : string :=
  String.rev (lstrip (String.rev (lstrip s))).

(** An upper-casing of ASCII letters, to run the definitions on examples. *)
Definition upper_char (c : Ascii.ascii) : Ascii.ascii :=
  let n := Ascii.nat_of_ascii c in
  if ((97 <=? n) && (n <=? 122))%nat then Ascii.ascii_of_nat (n - 32) else c.

Fixpoint ascii_upper (s : string) : string :=
  match s with
  | String c rest => String (upper_char c) (ascii_upper rest)
  | EmptyString => EmptyString
  end.

(** Builds a row from its columns. *)
Definition mk_row (cols : list (string * string)) : row :=
  list_to_map (prod_map id Some <$> cols).

(** ** Forgetting the side *)

(** An occurrence as [make_pedigree.py] files it: without its side. *)
Definition retag {T} (o : Occurrence T) : Occurrence unit :=
  mkOcc (gen o) (path o) tt.

Definition dict_retag {T} (d : dict (list (Occurrence T)))
  : dict (list (Occurrence unit)) :=
  (fun kl : string * list (Occurrence T) => (kl.1, retag <$> kl.2)) <$>
  (d : list (string * list (Occurrence T))).

(** ** Record stores used in examples *)

(** [G] is reached at generation 2 through the sire and at generation 3
    through the dam. *)
Definition store_2x3 : gmap string row :=
  list_to_map [("S", mk_row [("Sire", "F"); ("Dam", "M")]);
               ("F", mk_row [("Sire", "G")]);
               ("M", mk_row [("Sire", "H")]);
               ("H", mk_row [("Sire", "G")])].

(** [G] is reached at generation 2 through the sire and through the dam;
    [G] itself has a recorded sire [P]. *)
Definition store_2x2 : gmap string row :=
  list_to_map [("S", mk_row [("Sire", "F"); ("Dam", " M ")]);
               ("F", mk_row [("Sire", "G"); ("Dam", "A")]);
               ("M", mk_row [("Sire", "G"); ("Dam", "B")]);
               ("G", mk_row [("Sire", "P")])].

(** The subject names the same horse as sire and as dam. *)
Definition store_twin : gmap string row :=
  list_to_map [("S", mk_row [("Sire", "X"); ("Dam", "X")])].

(** The dam of the subject is "X", and its sire line comes to "X" again
    after the 53 horses "A1" to "A53". *)
Definition store_far : gmap string row :=
  list_to_map
    (("S", mk_row [("Sire", "A1"); ("Dam", "X")]) ::
     ((fun i : Z =>
         ("A" +:+ pretty i,
          mk_row [("Sire", if decide (i = 53) then "X"
                           else "A" +:+ pretty (i + 1))]))
      <$> seqZ 1 53)).

(** [X] names itself as its sire; [Y] and [Z] name each other. *)
Definition store_cyclic : gmap string row :=
  list_to_map [("S", mk_row [("Sire", "X"); ("Dam", "Y")]);
               ("X", mk_row [("Sire", "X")]);
               ("Y", mk_row [("Sire", "Z"); ("Dam", "X")]);
               ("Z", mk_row [("Sire", "Y")])].

(** [A] and [X] name each other, and [X] is reached from [R] both through
    [A] and through [B]. *)
Definition store_memo : gmap string row :=
  list_to_map [("R", mk_row [("Sire", "A"); ("Dam", "B")]);
               ("A", mk_row [("Sire", "X")]);
               ("X", mk_row [("Sire", "A")]);
               ("B", mk_row [("Sire", "X")])].

(** [store_memo] with the parents of [R] exchanged. *)
Definition store_memo_swapped : gmap string row :=
  list_to_map [("R", mk_row [("Sire", "B"); ("Dam", "A")]);
               ("A", mk_row [("Sire", "X")]);
               ("X", mk_row [("Sire", "A")]);
               ("B", mk_row [("Sire", "X")])].

End MakePedigree.


(** * pedigree.py: the table *)

Module PedigreeRender.
Import Pedigree.

(** The double quote and the line feed, as strings. *)
Definition dquote : string := String (Ascii.ascii_of_nat 34) EmptyString.
Definition newline : string := String (Ascii.ascii_of_nat 10) EmptyString.

(** [" ".join(part for part in parts if part)] *)
Definition join_parts (parts : list string) : string :=
  String.concat " " (filter (fun part => part <> "") parts).

(** [cells]: the dict of [collect_cells], keyed by [(row_start, depth)]. *)
Abbreviation Cells := (gmap (Z * Z) PedigreeNode).

(** [collect_cells(node, cells)] *)
Fixpoint collect_cells (node : PedigreeNode) (cells : Cells) : Cells :=
  match node with
  | mkNode _ s d rs _ dp =>
      let cells := <[(rs, dp) := node]> cells in
      let cells :=
        match s with Some sn => collect_cells sn cells | None => cells end in
      match d with Some dn => collect_cells dn cells | None => cells end
  end.

(** [horse_label(horse)] *)
Definition horse_label (h : Horse) : string :=
  if is_placeholder h then "&nbsp;"
  else
    let name := if decide (name h = "") then key h else name h in
    let extras := join_parts [year h; color h] in
    let extras :=
      if decide (details h = "") then extras
      else join_parts [extras; details h] in
    if decide (extras = "") then name
    else name +:+ "<br><span class=" +:+ dquote +:+ "meta" +:+ dquote +:+ ">"
           +:+ extras +:+ "</span>".

(** [horse_class(horse)] *)
Definition horse_class (h : Horse) : string :=
  if is_placeholder h then "b_empty"
  else if decide (sex h = "M") then "b_ml"
  else if decide (sex h = "F") then "b_fml"
  else "b_unknown".

(** The cell [render_pedigree] writes where no node starts. *)
Definition empty_cell : string :=
  "<td class=" +:+ dquote +:+ "b_empty" +:+ dquote +:+ ">&nbsp;</td>".

(** The cell [render_pedigree] writes for a node. *)
Definition node_cell (node : PedigreeNode) : string :=
  let rowspan := row_end node - row_start node + 1 in
  let label := horse_label (horse node) in
  let label :=
    if decide (url (horse node) = "") then label
    else "<a href=" +:+ dquote +:+ url (horse node) +:+ dquote +:+ ">"
           +:+ label +:+ "</a>" in
  "<td class=" +:+ dquote +:+ horse_class (horse node) +:+ dquote
    +:+ " rowspan=" +:+ dquote +:+ pretty rowspan +:+ dquote +:+ ">"
    +:+ label +:+ "</td>".

(** A [for] loop whose body may raise. *)
Fixpoint for_each {A B} (body : A -> B -> outcome A) (l : list B) (a : A)
  : outcome A :=
  match l with
  | [] => Ok a
  | x :: rest => a ← body a x; for_each body rest a
  end.

(** The body of the inner loop of [render_pedigree], on the state
    [(coverage, row_cells)]. *)
Definition render_col (cells : Cells) (row : Z)
    (st : list Z * list string) (col : Z) : outcome (list Z * list string) :=
  let '(coverage, row_cells) := st in
  match coverage !! Z.to_nat col with
  | None => Raised "IndexError"
  | Some covered =>
      if bool_decide (0 < covered)
      then Ok (<[Z.to_nat col := covered - 1]> coverage, row_cells)
      else
        match cells !! (row, col) with
        | None => Ok (coverage, row_cells ++ [empty_cell])
        | Some node =>
            let rowspan := row_end node - row_start node + 1 in
            Ok (<[Z.to_nat col := rowspan - 1]> coverage,
                row_cells ++ [node_cell node])
        end
  end.

(** The body of the outer loop, on the state [(coverage, rows_html)]. *)
Definition render_row (cells : Cells) (generations : Z)
    (st : list Z * list string) (row : Z) : outcome (list Z * list string) :=
  let '(coverage, rows_html) := st in
  '(coverage, row_cells) ←
    for_each (render_col cells row) (seqZ 0 generations) (coverage, []);
  Ok (coverage,
      rows_html ++ ["<tr>" +:+ String.concat "" row_cells +:+ "</tr>"]).

(** [render_pedigree(root, generations)].  For [generations < 1] the
    power [2 ** (generations - 1)] is a float, and [range] refuses it. *)
Definition render_pedigree (root : PedigreeNode) (generations : Z)
  : outcome string :=
  if bool_decide (generations - 1 < 0) then Raised "TypeError"
  else
    let leaf_rows := 2 ^ (generations - 1) in
    let cells := collect_cells root ∅ in
    let coverage := replicate (Z.to_nat generations) 0 in
    '(_, rows_html) ←
      for_each (render_row cells generations) (seqZ 0 leaf_rows)
        (coverage, []);
    Ok (String.concat newline rows_html).

(** The leaves of a tree, from the top row down. *)
Fixpoint leaves (node : PedigreeNode) : list PedigreeNode :=
  match node with
  | mkNode _ None None _ _ _ => [node]
  | mkNode _ s d _ _ _ =>
      match s with Some sn => leaves sn | None => [] end ++
      match d with Some dn => leaves dn | None => [] end
  end.

(** Row [i] of the table as it should read: the cells of the nodes whose
    span starts at row [i], the outer generation first. *)
Definition table_row (root : PedigreeNode) (i : Z) : string :=
  "<tr>" +:+
  String.concat ""
    (node_cell <$> filter (fun n => row_start n = i) (subnodes root)) +:+
  "</tr>".

(** ** Devices for the proofs *)

(** The key under which [collect_cells] files a node. *)
Definition cell_key (n : PedigreeNode) : Z * Z := (row_start n, depth n).

(** The inner loop works column by column: what happens in a column
    depends on its own counter only. *)
Definition col_next (cells : Cells) (row : Z) (f : Z -> Z) (c : Z) : Z :=
  if bool_decide (0 < f c) then f c - 1
  else match cells !! (row, c) with
       | None => f c
       | Some node => row_end node - row_start node + 1 - 1
       end.

Definition col_emit (cells : Cells) (row : Z) (f : Z -> Z) (c : Z)
  : option string :=
  if bool_decide (0 < f c) then None
  else match cells !! (row, c) with
       | None => Some empty_cell
       | Some node => Some (node_cell node)
       end.

(** The counter of a column at the start of row [i]: the rows still to go
    until the next node of the column starts. *)
Definition cov (G i c : Z) : Z := (- i) `mod` 2 ^ (G - 1 - c).

End PedigreeRender.


(** * Loading the CSV file *)

Module PedigreeLoad.
Import Pedigree MakePedigree.

Section Load.
Variable strip : string -> string.

(** [value or None] for a string. *)
Definition or_None (value : string) : option string :=
  if decide (value = "") then None else Some value.

(** The [Horse] that [load_horses] makes of a row of the CSV file. *)
Definition horse_of_row (key : string) (r : row) : Horse :=
  mkHorse key
    (or_None (field strip r "Sire"))
    (or_None (field strip r "Dam"))
    (field strip r "Sex")
    (field strip r "Color")
    (field strip r "Year")
    (field strip r "Details")
    (field strip r "URL")
    (if decide (field strip r "Horse Name" = "") then key
     else field strip r "Horse Name")
    false.

(** [load_horses(csv_path)], on the rows that [csv.DictReader] yields. *)
Definition load_horses (rows : list row) : gmap string Horse :=
  foldl (fun horses r =>
           let key := field strip r "PrimaryKey" in
           if decide (key = "") then horses
           else <[key := horse_of_row key r]> horses)
        ∅ rows.

(** [load_rows(csv_path)] of [make_pedigree.py] and
    [make_pedigree_image.py], on the rows that [csv.DictReader] yields. *)
Definition load_rows (rows : list row) : gmap string row :=
  foldl (fun by_pk r =>
           let pk := field strip r "PrimaryKey" in
           if decide (pk = "") then by_pk
           else <[pk := r]> by_pk)
        ∅ rows.

End Load.

(** The rows of a small file: [A] with sire [B] and a dam [C] that has
    no row of its own. *)
Definition rows_example : list row :=
  [mk_row [("PrimaryKey", "A"); ("Sire", "B"); ("Dam", "C")];
   mk_row [("PrimaryKey", " B "); ("Horse Name", "Bravo")]].

End PedigreeLoad.

(** * make_pedigree_image.py: the lines of the summary *)

Module ImageSummary.

Section Wrap.

(** [len] of a [str] counts its characters.  The strings of the model
    hold the bytes of a text, of which a character takes one or more, so
    [len] is a parameter, as [str.strip] is. *)
Variable len : string -> Z.

(** The state of the first loop over [parts] in [draw_chart]: the lines
    closed so far and the line being filled. *)
Definition wrap_step (max_chars : Z) (st : list string * string)
    (part : string) : list string * string :=
  let '(lines, current) := st in
  let candidate :=
    if decide (current = "") then part else current +:+ " / " +:+ part in
  if bool_decide (max_chars < len candidate)
     && bool_decide (current <> "")
  then (lines ++ [current], part)
  else (lines, candidate).

(** The lines that [draw_chart] makes of the parts of the summary before
    it hands over-long lines to [textwrap.wrap]. *)
Definition wrap_parts (parts : list string) (max_chars : Z) : list string :=
  let '(lines, current) := foldl (wrap_step max_chars) ([], "") parts in
  if decide (current = "") then lines else lines ++ [current].

(** A line is short enough, or it is one part that is too long by
    itself. *)
Definition line_ok (max_chars : Z) (all_parts : list string)
    (line : string) : Prop :=
  len line <= max_chars \/ line ∈ all_parts.

End Wrap.

(** [len] on texts of ASCII characters, which take one byte each; to run
    the definitions on examples. *)
Definition ascii_len (s : string) : Z := Z.of_nat (String.length s).

End ImageSummary.

(** Decides a closed decidable proposition by evaluation. *)
(** Runs are checked for both ways of adding floats. *)
Ltac both_sums tac :=
  split; [tac (MakePedigree.Build_SumMode false)
         |tac (MakePedigree.Build_SumMode true)].

Ltac by_compute :=
  match goal with
  | |- ?P => apply (bool_decide_eq_true_1 P); vm_compute; reflexivity
  end.

(** * Facts about pedigree.py *)
Module PedigreeFacts.
Import Pedigree.

(** Structural induction through the optional children. *)
Lemma PedigreeNode_ind (P : PedigreeNode -> Prop) :
  (forall h s d rs re dp,
      (forall sn, s = Some sn -> P sn) ->
      (forall dn, d = Some dn -> P dn) ->
      P (mkNode h s d rs re dp)) ->
  forall node, P node.
Proof.
  intros step.
  refine (fix IH (node : PedigreeNode) : P node :=
            match node with
            | mkNode h s d rs re dp => step h s d rs re dp _ _
            end).
  - intros sn E. destruct s as [s0|]; [|discriminate].
    injection E as <-. apply IH.
  - intros dn E. destruct d as [d0|]; [|discriminate].
    injection E as <-. apply IH.
Qed.

Lemma build_node_root horses G h d :
  horse (build_node horses G h d) = h /\ depth (build_node horses G h d) = d.
Proof.
  rewrite build_node_equation_1.
  destruct (Z_lt_dec d (G - 1)); simpl; auto.
Qed.

Lemma build_node_well_built horses G h d :
  well_built G (build_node horses G h d).
Proof.
  funelim (build_node horses G h d).
  - simpl. repeat split; try lia.
    + apply build_node_root.
    + apply build_node_root.
    + apply H.
    + apply H0.
  - simpl. lia.
Qed.

Lemma well_built_leaf_count G t :
  well_built G t -> depth t <= G - 1 ->
  leaf_count t = 2 ^ (G - 1 - depth t).
Proof.
  induction t as [h s d rs re dp IHs IHd] using PedigreeNode_ind.
  intros Hwb Hd. simpl in *.
  destruct s as [sn|], d as [dn|]; try contradiction.
  - destruct Hwb as (Hlt & Es & Ed & Hs & Hdn).
    rewrite (IHs sn eq_refl Hs), (IHd dn eq_refl Hdn) by lia.
    rewrite Es, Ed.
    replace (G - 1 - dp) with (Z.succ (G - 1 - (dp + 1))) by lia.
    rewrite Z.pow_succ_r by lia. lia.
  - replace (G - 1 - dp) with 0 by lia. reflexivity.
Qed.


Lemma leaf_count_pos t : 1 <= leaf_count t.
Proof.
  induction t as [h s d rs re dp IHs IHd] using PedigreeNode_ind.
  simpl. destruct s as [sn|], d as [dn|]; try lia.
  - specialize (IHs sn eq_refl). specialize (IHd dn eq_refl). lia.
  - specialize (IHs sn eq_refl). lia.
  - specialize (IHd dn eq_refl). lia.
Qed.

(** What [assign_rows] does to a well-built tree: it hands out as many
    rows as there are leaves, starting at [leaf_index], and leaves shape,
    horses and depths alone. *)
Lemma assign_rows_well_built G t :
  well_built G t -> forall li,
  let t' := (assign_rows t li G).1 in
  (assign_rows t li G).2 = li + leaf_count t /\
  row_start t' = li /\ row_end t' = li + leaf_count t - 1 /\
  laid_out t' /\ well_built G t' /\
  leaf_count t' = leaf_count t /\ depth t' = depth t /\ horse t' = horse t.
Proof.
  induction t as [h s d rs re dp IHs IHd] using PedigreeNode_ind.
  intros Hwb li. simpl in Hwb.
  destruct s as [sn|], d as [dn|]; try contradiction.
  - destruct Hwb as (Hlt & Es & Ed & Hs & Hdn).
    specialize (IHs sn eq_refl Hs li).
    cbn [assign_rows].
    rewrite bool_decide_eq_false_2 by lia. cbn [orb andb bool_decide].
    rewrite (bool_decide_eq_false_2 (Some sn = None)) by discriminate.
    cbn [andb].
    destruct (assign_rows sn li G) as [sn' li1] eqn:E1. cbn [fst snd] in IHs.
    destruct IHs as (-> & Hrs & Hre & Hlo & Hwb' & Hlc & Hdp & Hh).
    specialize (IHd dn eq_refl Hdn (li + leaf_count sn)).
    destruct (assign_rows dn (li + leaf_count sn) G) as [dn' li2] eqn:E2.
    cbn [fst snd] in IHd.
    destruct IHd as (-> & Hrs2 & Hre2 & Hlo2 & Hwb2 & Hlc2 & Hdp2 & Hh2).
    cbn [fst snd leaf_count row_start row_end laid_out well_built depth horse].
    rewrite Hlc, Hlc2, Hdp, Hdp2.
    pose proof (leaf_count_pos sn). pose proof (leaf_count_pos dn).
    repeat split; auto; lia.
  - cbn [assign_rows].
    rewrite bool_decide_eq_true_2 by lia.
    cbn. repeat split; auto; lia.
Qed.

Lemma build_node_linked horses G h d :
  linked horses (build_node horses G h d).
Proof.
  funelim (build_node horses G h d); simpl; [|tauto].
  repeat split; try apply build_node_root; assumption.
Qed.

(** Shape and layout pass from a tree to each of its nodes. *)
Lemma subnodes_laid_out G t :
  well_built G t -> laid_out t ->
  forall n, n ∈ subnodes t -> well_built G n /\ laid_out n.
Proof.
  induction t as [h s d rs re dp IHs IHd] using PedigreeNode_ind.
  intros Hwb Hlo n Hin. cbn [subnodes] in Hin.
  apply elem_of_cons in Hin as [->|Hin]; [split; assumption|].
  simpl in Hwb, Hlo.
  destruct s as [sn|], d as [dn|]; try contradiction.
  - destruct Hwb as (_ & Es & Ed & Hs & Hd).
    destruct Hlo as (_ & _ & _ & Os & Od).
    apply elem_of_app in Hin as [Hin|Hin]; eauto.
  - simpl in Hin. now apply elem_of_nil in Hin.
Qed.

(** Shape and links pass from a tree to each of its nodes, which lie at
    the depth of the root or deeper. *)
Lemma subnodes_built horses G t :
  well_built G t -> linked horses t ->
  forall n, n ∈ subnodes t ->
    well_built G n /\ linked horses n /\ depth t <= depth n /\
    (depth t <= G - 1 -> depth n <= G - 1).
Proof.
  induction t as [h s d rs re dp IHs IHd] using PedigreeNode_ind.
  intros Hwb Hlk n Hin. cbn [subnodes] in Hin.
  apply elem_of_cons in Hin as [->|Hin]; [split_and!; auto; lia|].
  simpl in Hwb, Hlk.
  destruct s as [sn|], d as [dn|]; try contradiction.
  - destruct Hwb as (Hlt & Es & Ed & Hs & Hd).
    destruct Hlk as ((_ & Ls) & (_ & Ld)).
    apply elem_of_app in Hin as [Hin|Hin].
    + destruct (IHs sn eq_refl Hs Ls n Hin) as (? & ? & ? & ?).
      split_and!; auto; simpl; lia.
    + destruct (IHd dn eq_refl Hd Ld n Hin) as (? & ? & ? & ?).
      split_and!; auto; simpl; lia.
  - simpl in Hin. now apply elem_of_nil in Hin.
Qed.

(** A well-built node either has both children, one level deeper, or is a
    leaf at depth [G - 1] or beyond. *)
Lemma well_built_cases G n :
  well_built G n ->
  (depth n < G - 1 /\
   exists s d, n_sire n = Some s /\ n_dam n = Some d /\
               depth s = depth n + 1 /\ depth d = depth n + 1) \/
  (G - 1 <= depth n /\ is_leaf n).
Proof.
  destruct n as [h [sn|] [dn|] rs re dp]; simpl; try contradiction.
  - intros (Hlt & Es & Ed & _). left. split; [lia|].
    exists sn, dn. auto.
  - intros Hge. right. split; [lia|]. split; reflexivity.
Qed.

Lemma laid_out_span_len G t :
  well_built G t -> laid_out t -> span_len t = leaf_count t.
Proof.
  induction t as [h s d rs re dp IHs IHd] using PedigreeNode_ind.
  unfold span_len. simpl.
  destruct s as [sn|], d as [dn|]; try contradiction.
  - intros (_ & _ & _ & Hs & Hd) (-> & Hadj & -> & Os & Od).
    specialize (IHs sn eq_refl Hs Os). specialize (IHd dn eq_refl Hd Od).
    unfold span_len in *. lia.
  - intros _ ->. lia.
Qed.

Lemma laid_out_span_exact G n :
  well_built G n -> laid_out n -> span_exact n.
Proof.
  intros Hwb Hlo. pose proof (laid_out_span_len G n Hwb Hlo) as Hlen.
  pose proof (leaf_count_pos n) as Hpos.
  unfold span_exact. split; [unfold span_len in Hlen; lia|].
  split; [exact Hlen|].
  destruct n as [h [sn|] [dn|] rs re dp]; simpl in Hwb, Hlo; try contradiction.
  - destruct Hwb as (_ & _ & _ & Hs & Hd).
    destruct Hlo as (-> & Hadj & -> & Os & Od).
    pose proof (laid_out_span_len G sn Hs Os) as Ls.
    pose proof (laid_out_span_len G dn Hd Od) as Ld.
    pose proof (leaf_count_pos sn). pose proof (leaf_count_pos dn).
    unfold span_len in *.
    split; [intros [E _]; discriminate|].
    intros _. exists sn, dn. unfold covers. simpl.
    repeat split; auto; try lia.
  - split; [|intros Hn; exfalso; apply Hn; split; reflexivity].
    intros _. unfold span_len. simpl. lia.
Qed.

Lemma build_tree_well_built horses k G :
  well_built G (build_tree horses k G) /\
  linked horses (build_tree horses k G) /\
  depth (build_tree horses k G) = 0 /\
  horse (build_tree horses k G) = default UNKNOWN_HORSE (horses !! k).
Proof.
  unfold build_tree. split_and!.
  - apply build_node_well_built.
  - apply build_node_linked.
  - apply build_node_root.
  - apply build_node_root.
Qed.

(** C1. A tree built for [G >= 1] generations and laid out by
    [assign_rows] from leaf index 0 has exact spans: the span of every
    node is a non-empty range of rows as long as the number of leaves
    below it, a leaf holds one row, the span of an inner node is the span
    of its sire side followed, without gap or overlap, by the span of its
    dam side, and the root spans the rows [0 .. 2^(G-1) - 1], which are
    all the rows handed out. *)
Theorem assign_rows_spans_exact horses k G :
  1 <= G ->
  let laid := assign_rows (build_tree horses k G) 0 G in
  (forall n, n ∈ subnodes laid.1 -> span_exact n) /\
  row_start laid.1 = 0 /\
  row_end laid.1 = 2 ^ (G - 1) - 1 /\
  laid.2 = 2 ^ (G - 1).
Proof.
  intros HG laid.
  destruct (build_tree_well_built horses k G) as (Hwb & _ & Hd & _).
  destruct (assign_rows_well_built G _ Hwb 0)
    as (Hnext & Hrs & Hre & Hlo & Hwb' & _ & _ & _).
  fold laid in Hnext, Hrs, Hre, Hlo, Hwb'.
  rewrite (well_built_leaf_count G _ Hwb) in Hnext, Hre by lia.
  rewrite Hd, Z.sub_0_r in Hnext, Hre.
  split_and!; try lia.
  intros n Hin.
  destruct (subnodes_laid_out G _ Hwb' Hlo n Hin) as [Hn Ho].
  exact (laid_out_span_exact G n Hn Ho).
Qed.

Lemma assign_rows_spans_exact_witness :
  1 <= 3 /\
  let laid := assign_rows (build_tree stable "A" 3) 0 3 in
  (forall n, n ∈ subnodes laid.1 -> span_exact n) /\
  row_start laid.1 = 0 /\
  row_end laid.1 = 2 ^ (3 - 1) - 1 /\
  laid.2 = 2 ^ (3 - 1).
Proof.
  split; [lia | apply (assign_rows_spans_exact stable "A" 3); lia].
Defined.



(** The horse "B" of [stable] has a recorded sire "D", yet with two
    generations its node, at depth 1, is a leaf. *)
Example build_tree_cuts_recorded_ancestry :
  exists b, n_sire (build_tree stable "A" 2) = Some b /\
            key (horse b) = "B" /\ sire (horse b) = Some "D" /\
            is_Some (stable !! "D") /\ is_leaf b.
Proof.
  eexists. split; [reflexivity|].
  split_and!; try reflexivity; eexists; reflexivity.
Qed.

(** C9. When the subject has no record, the root carries the
    unknown-root horse, which has the visible name "Unknown" and is not a
    placeholder; for a generation count above 1 the root has a sire-side
    and a dam-side child at generation 1, both placeholders (and for a
    count of at most 1 the root stands alone). *)
Theorem build_tree_unknown_root horses k G :
  horses !! k = None ->
  let t := build_tree horses k G in
  horse t = UNKNOWN_HORSE /\
  name (horse t) = "Unknown" /\
  is_placeholder (horse t) = false /\
  depth t = 0 /\
  (G <= 1 -> is_leaf t) /\
  (1 < G ->
   exists s d, n_sire t = Some s /\ n_dam t = Some d /\
     horse s = placeholder_horse /\ horse d = placeholder_horse /\
     is_placeholder (horse s) = true /\ is_placeholder (horse d) = true /\
     depth s = 1 /\ depth d = 1).
Proof.
  intros Hnone t.
  destruct (build_tree_well_built horses k G) as (Hwb & Hlk & Hd & Hh).
  fold t in Hwb, Hlk, Hd, Hh. rewrite Hnone in Hh. simpl in Hh.
  rewrite Hh. split_and!; auto.
  - intros HG. destruct (well_built_cases G t Hwb) as [(Hlt & _) | (_ & Hl)];
      [lia | exact Hl].
  - intros HG.
    destruct (well_built_cases G t Hwb)
      as [(_ & s & d & Es & Ed & Ds & Dd) | (Hge & _)]; [|lia].
    exists s, d.
    destruct t as [h ts td rs re dp]. simpl in *. subst ts td h.
    destruct Hlk as ((Hs & _) & (Hdm & _)). simpl in Hs, Hdm.
    rewrite Hs, Hdm. split_and!; auto; lia.
Qed.

Lemma build_tree_unknown_root_witness :
  stable !! "Nobody" = None /\
  let t := build_tree stable "Nobody" 3 in
  horse t = UNKNOWN_HORSE /\
  name (horse t) = "Unknown" /\
  is_placeholder (horse t) = false /\
  depth t = 0 /\
  (3 <= 1 -> is_leaf t) /\
  (1 < 3 ->
   exists s d, n_sire t = Some s /\ n_dam t = Some d /\
     horse s = placeholder_horse /\ horse d = placeholder_horse /\
     is_placeholder (horse s) = true /\ is_placeholder (horse d) = true /\
     depth s = 1 /\ depth d = 1).
Proof.
  split; [reflexivity | apply (build_tree_unknown_root stable "Nobody" 3)].
  reflexivity.
Defined.

(** C10. For [G >= 1] the built tree is a perfect binary tree: every
    node at a depth below [G - 1] has a sire-side and a dam-side child,
    every node at depth [G - 1] has none and no node lies deeper, a
    placeholder node has placeholder children, and the tree has
    [2^(G-1)] leaves whatever the record store contains. *)
Theorem build_tree_perfect horses k G :
  1 <= G ->
  let t := build_tree horses k G in
  (forall n, n ∈ subnodes t ->
     0 <= depth n <= G - 1 /\
     (depth n < G - 1 ->
      exists s d, n_sire n = Some s /\ n_dam n = Some d) /\
     (depth n = G - 1 -> n_sire n = None /\ n_dam n = None) /\
     (horse n = placeholder_horse ->
      forall c, n_sire n = Some c \/ n_dam n = Some c ->
                horse c = placeholder_horse)) /\
  leaf_count t = 2 ^ (G - 1).
Proof.
  intros HG t.
  destruct (build_tree_well_built horses k G) as (Hwb & Hlk & Hd & Hh).
  fold t in Hwb, Hlk, Hd, Hh. split.
  - intros n Hin.
    destruct (subnodes_built horses G t Hwb Hlk n Hin) as (Hn & Ln & Hge & Hle).
    assert (Hph : horse n = placeholder_horse ->
                  forall c, n_sire n = Some c \/ n_dam n = Some c ->
                            horse c = placeholder_horse).
    { intros Hp c Hc. destruct n as [h ns nd rs re dp]. simpl in *. subst h.
      destruct Ln as [Ls Ld].
      destruct Hc as [->| ->]; [apply Ls | apply Ld]. }
    destruct (well_built_cases G n Hn)
      as [(Hlt & s & d & Es & Ed & Ds & Dd) | (Hge' & Hleaf)].
    + split_and!; auto; try lia.
      intros _. exists s, d. auto.
    + split_and!; auto; lia.
  - rewrite (well_built_leaf_count G t Hwb) by lia. rewrite Hd. f_equal. lia.
Qed.

Lemma build_tree_perfect_witness :
  1 <= 4 /\
  let t := build_tree stable "A" 4 in
  (forall n, n ∈ subnodes t ->
     0 <= depth n <= 4 - 1 /\
     (depth n < 4 - 1 ->
      exists s d, n_sire n = Some s /\ n_dam n = Some d) /\
     (depth n = 4 - 1 -> n_sire n = None /\ n_dam n = None) /\
     (horse n = placeholder_horse ->
      forall c, n_sire n = Some c \/ n_dam n = Some c ->
                horse c = placeholder_horse)) /\
  leaf_count t = 2 ^ (4 - 1).
Proof.
  split; [lia | apply (build_tree_perfect stable "A" 4); lia].
Defined.

End PedigreeFacts.

(** * Facts on the table of pedigree.py *)

Module PedigreeRenderFacts.
Import Pedigree PedigreeRender PedigreeFacts.

Lemma collect_cells_subnodes t : forall cells,
  collect_cells t cells =
  foldl (fun m n => <[cell_key n := n]> m) cells (subnodes t).
Proof.
  induction t as [h s d rs re dp IHs IHd] using PedigreeNode_ind.
  intros cells. cbn [collect_cells subnodes foldl]. rewrite foldl_app.
  destruct s as [sn|], d as [dn|]; cbn [foldl];
    try rewrite (IHs _ eq_refl); try rewrite (IHd _ eq_refl); reflexivity.
Qed.

Lemma foldl_insert_other (l : list PedigreeNode) k : forall m : Cells,
  k ∉ cell_key <$> l ->
  foldl (fun m n => <[cell_key n := n]> m) m l !! k = m !! k.
Proof.
  induction l as [|x l IH]; intros m Hk; [reflexivity|].
  cbn [foldl]. rewrite fmap_cons, not_elem_of_cons in Hk.
  destruct Hk as [Hx Hk]. rewrite IH by exact Hk.
  now rewrite lookup_insert_ne.
Qed.

Lemma foldl_insert_lookup (l : list PedigreeNode) n : forall m : Cells,
  NoDup (cell_key <$> l) -> n ∈ l ->
  foldl (fun m n => <[cell_key n := n]> m) m l !! cell_key n = Some n.
Proof.
  induction l as [|x l IH]; intros m Hnd Hin; [inversion Hin|].
  rewrite fmap_cons, NoDup_cons in Hnd. destruct Hnd as [Hx Hnd].
  cbn [foldl]. apply elem_of_cons in Hin as [->|Hl].
  - rewrite foldl_insert_other by exact Hx. apply lookup_insert_eq.
  - now apply IH.
Qed.

Lemma keys_NoDup (l : list PedigreeNode) :
  (forall i, NoDup (depth <$> filter (fun n => row_start n = i) l)) ->
  NoDup (cell_key <$> l).
Proof.
  induction l as [|x l IH]; intros H; [constructor|].
  rewrite fmap_cons. apply NoDup_cons. split.
  - intros (y & Hk & Hy)%list_elem_of_fmap. injection Hk as Hr Hd.
    specialize (H (row_start x)). rewrite filter_cons_True in H by reflexivity.
    rewrite fmap_cons in H. apply NoDup_cons in H as [H _]. apply H.
    apply list_elem_of_fmap. exists y. split; [exact Hd|].
    apply list_elem_of_filter. auto.
  - apply IH. intros i. specialize (H i).
    destruct (decide (row_start x = i)) as [E|E].
    + rewrite filter_cons_True in H by exact E. rewrite fmap_cons in H.
      now apply NoDup_cons in H.
    + now rewrite filter_cons_False in H by exact E.
Qed.

Lemma aligned_start L a i :
  0 < L -> a `mod` L = 0 -> a <= i < a + L -> i `mod` L = 0 <-> i = a.
Proof.
  intros HL Ha Hi. split; [|now intros ->].
  intros Hm. apply Z.mod_divide in Ha as [q ->]; [|lia].
  apply Z.mod_divide in Hm as [q' ->]; [|lia].
  assert (q' = q) by nia. now subst.
Qed.

Lemma well_built_span G t :
  well_built G t -> laid_out t -> depth t <= G - 1 ->
  row_end t = row_start t + 2 ^ (G - 1 - depth t) - 1.
Proof.
  intros Hwb Hlo Hd. pose proof (laid_out_span_len G t Hwb Hlo) as H.
  rewrite (well_built_leaf_count G t Hwb Hd) in H. unfold span_len in H. lia.
Qed.

(** The nodes whose span starts at row [i] stand in the columns whose
    node height divides [i], one in each, the outer generation first. *)
Lemma starts_columns G t :
  well_built G t -> laid_out t -> depth t <= G - 1 ->
  row_start t `mod` 2 ^ (G - 1 - depth t) = 0 ->
  forall i,
    depth <$> filter (fun n => row_start n = i) (subnodes t) =
    if bool_decide (row_start t <= i <= row_end t)
    then filter (fun c => i `mod` 2 ^ (G - 1 - c) = 0)
           (seqZ (depth t) (G - depth t))
    else [].
Proof.
  induction t as [h s d rs re dp IHs IHd] using PedigreeNode_ind.
  intros Hwb Hlo Hd Hmod i.
  pose proof (well_built_span G _ Hwb Hlo Hd) as Hspan.
  cbn [depth row_start row_end] in *.
  rewrite (seqZ_cons dp (G - dp)) by lia.
  cbn [well_built laid_out] in Hwb, Hlo.
  destruct s as [sn|], d as [dn|]; try contradiction.
  - destruct Hwb as (Hlt & Hds & Hdd & Hwbs & Hwbd).
    destruct Hlo as (Ers & Eadj & Ere & Hlos & Hlod).
    assert (Hpow : 2 ^ (G - 1 - dp) = 2 * 2 ^ (G - 1 - (dp + 1))).
    { replace (G - 1 - dp) with (Z.succ (G - 1 - (dp + 1))) by lia.
      rewrite Z.pow_succ_r by lia. reflexivity. }
    assert (Hpos : 0 < 2 ^ (G - 1 - (dp + 1)))
      by (apply Z.pow_pos_nonneg; lia).
    pose proof (well_built_span G sn Hwbs Hlos ltac:(lia)) as Hss.
    pose proof (well_built_span G dn Hwbd Hlod ltac:(lia)) as Hsd.
    rewrite Hds in Hss. rewrite Hdd in Hsd.
    assert (Hms : row_start sn `mod` 2 ^ (G - 1 - depth sn) = 0).
    { rewrite Hds, <- Ers. apply Z.mod_divide; [lia|].
      apply Z.mod_divide in Hmod as [q Hq]; [|lia].
      exists (2 * q). rewrite Hq, Hpow. lia. }
    assert (Hmd : row_start dn `mod` 2 ^ (G - 1 - depth dn) = 0).
    { rewrite Hdd, <- Eadj, Hss, <- Ers. apply Z.mod_divide; [lia|].
      apply Z.mod_divide in Hmod as [q Hq]; [|lia].
      exists (2 * q + 1). rewrite Hq, Hpow. lia. }
    specialize (IHs sn eq_refl Hwbs Hlos ltac:(lia) Hms i).
    specialize (IHd dn eq_refl Hwbd Hlod ltac:(lia) Hmd i).
    cbn [subnodes]. rewrite filter_cons, filter_app.
    cbn [row_start]. rewrite Hds in IHs. rewrite Hdd in IHd.
    replace (Z.succ dp) with (dp + 1) by lia.
    replace (Z.pred (G - dp)) with (G - (dp + 1)) by lia.
    rewrite filter_cons.
    pose proof (aligned_start (2 ^ (G - 1 - dp)) rs i ltac:(lia) Hmod) as Hal.
    destruct (decide (rs = i)) as [Ei|Ei];
      destruct (decide (i `mod` 2 ^ (G - 1 - dp) = 0)) as [Em|Em];
      destruct (bool_decide (rs <= i <= re)) eqn:B0;
      destruct (bool_decide (row_start sn <= i <= row_end sn)) eqn:B1;
      destruct (bool_decide (row_start dn <= i <= row_end dn)) eqn:B2;
      try apply bool_decide_eq_true in B0;
      try apply bool_decide_eq_false in B0;
      try apply bool_decide_eq_true in B1;
      try apply bool_decide_eq_false in B1;
      try apply bool_decide_eq_true in B2;
      try apply bool_decide_eq_false in B2;
      try lia;
      try (exfalso; apply Ei; symmetry; apply Hal; [lia|exact Em]);
      try (exfalso; apply Em, Hal; [lia|congruence]);
      rewrite ?fmap_cons, ?fmap_app, IHs, IHd, ?app_nil_r; reflexivity.
  - assert (dp = G - 1) as -> by lia.
    cbn [subnodes app]. rewrite filter_cons, filter_nil. cbn [row_start].
    rewrite filter_cons, (seqZ_nil _ (Z.pred _)), filter_nil by lia.
    replace (G - 1 - (G - 1)) with 0 by lia. rewrite Z.pow_0_r, Z.mod_1_r.
    rewrite (decide_True (P := 0 = 0)) by reflexivity.
    destruct (decide (rs = i)) as [Ei|Ei];
      destruct (bool_decide (rs <= i <= re)) eqn:B0;
      try apply bool_decide_eq_true in B0;
      try apply bool_decide_eq_false in B0;
      try lia; reflexivity.
Qed.

Lemma insert_middle {A} (pre post : list A) x y :
  <[length pre := x]> (pre ++ y :: post) = pre ++ x :: post.
Proof.
  rewrite insert_app_r_alt by reflexivity. now rewrite Nat.sub_diag.
Qed.

Lemma render_col_step cells row f pre post acc :
  let c := Z.of_nat (length pre) in
  render_col cells row (pre ++ f c :: post, acc) c =
  Ok (pre ++ col_next cells row f c :: post,
      acc ++ option_list (col_emit cells row f c)).
Proof.
  intros c. unfold render_col, col_next, col_emit. subst c.
  rewrite Nat2Z.id, list_lookup_middle by reflexivity.
  destruct (bool_decide (0 < f (Z.of_nat (length pre)))).
  - rewrite insert_middle. cbn. now rewrite app_nil_r.
  - destruct (cells !! (row, Z.of_nat (length pre))) as [node|];
      [rewrite insert_middle|]; reflexivity.
Qed.

Lemma for_each_cols cells row f : forall (k : nat) pre acc,
  for_each (render_col cells row)
    (seqZ (Z.of_nat (length pre)) (Z.of_nat k))
    (pre ++ (f <$> seqZ (Z.of_nat (length pre)) (Z.of_nat k)), acc) =
  Ok (pre ++ (col_next cells row f <$>
                seqZ (Z.of_nat (length pre)) (Z.of_nat k)),
      acc ++ omap (col_emit cells row f)
               (seqZ (Z.of_nat (length pre)) (Z.of_nat k))).
Proof.
  induction k as [|k IH]; intros pre acc.
  - cbn. now rewrite !app_nil_r.
  - rewrite (seqZ_cons _ (Z.of_nat (S k))) by lia.
    replace (Z.pred (Z.of_nat (S k))) with (Z.of_nat k) by lia.
    cbn [for_each fmap list_fmap omap list_omap].
    rewrite render_col_step. cbn [mbind outcome_bind].
    set (c := Z.of_nat (length pre)).
    specialize (IH (pre ++ [col_next cells row f c])
                  (acc ++ option_list (col_emit cells row f c))).
    replace (Z.of_nat (length (pre ++ [col_next cells row f c])))
      with (Z.succ c) in IH by (rewrite length_app; cbn; lia).
    rewrite <- !app_assoc in IH. cbn [app] in IH.
    change (list_fmap Z Z f) with (fmap (M := list) f).
    change (list_fmap Z Z (col_next cells row f))
      with (fmap (M := list) (col_next cells row f)).
    change (list_omap Z string (col_emit cells row f))
      with (omap (M := list) (col_emit cells row f)).
    rewrite IH. destruct (col_emit cells row f c); reflexivity.
Qed.

Lemma cov_zero G i c :
  0 <= c < G -> ~ 0 < cov G i c <-> i `mod` 2 ^ (G - 1 - c) = 0.
Proof.
  intros Hc. unfold cov.
  assert (0 < 2 ^ (G - 1 - c)) as HL by (apply Z.pow_pos_nonneg; lia).
  pose proof (Z.mod_pos_bound (- i) _ HL) as Hb.
  split.
  - intros H. assert ((- i) `mod` 2 ^ (G - 1 - c) = 0) as H0 by lia.
    apply Z.mod_divide in H0 as [q Hq]; [|lia].
    apply Z.mod_divide; [lia|]. exists (- q). lia.
  - intros H0. apply Z.mod_divide in H0 as [q Hq]; [|lia].
    assert ((- i) `mod` 2 ^ (G - 1 - c) = 0) as ->; [|lia].
    apply Z.mod_divide; [lia|]. exists (- q). lia.
Qed.

Lemma cov_succ G i c :
  0 <= c < G ->
  cov G (i + 1) c =
  if bool_decide (0 < cov G i c) then cov G i c - 1
  else 2 ^ (G - 1 - c) - 1.
Proof.
  intros Hc. unfold cov.
  assert (0 < 2 ^ (G - 1 - c)) as HL by (apply Z.pow_pos_nonneg; lia).
  pose proof (Z.mod_pos_bound (- i) _ HL) as Hb.
  pose proof (Z.div_mod (- i) (2 ^ (G - 1 - c)) ltac:(lia)) as Hdm.
  set (L := 2 ^ (G - 1 - c)) in *.
  destruct (bool_decide (0 < (- i) `mod` L)) eqn:B.
  - apply bool_decide_eq_true in B. symmetry.
    apply (Z.mod_unique _ _ ((- i) `div` L)); lia.
  - apply bool_decide_eq_false in B. symmetry.
    apply (Z.mod_unique _ _ ((- i) `div` L - 1)); lia.
Qed.

Lemma fmap_zero_replicate {A} (l : list A) :
  (fun _ => 0) <$> l = replicate (length l) 0.
Proof. induction l as [|x l IH]; cbn; congruence. Qed.

Lemma omap_starts (cells : Cells) i (f : Z -> Z) (P : Z -> Prop)
    `{!forall c, Decision (P c)} :
  forall (cols : list Z) (F : list PedigreeNode),
  depth <$> F = filter P cols ->
  (forall n, n ∈ F -> cells !! (i, depth n) = Some n) ->
  (forall c, c ∈ cols -> ~ 0 < f c <-> P c) ->
  omap (col_emit cells i f) cols = node_cell <$> F.
Proof.
  induction cols as [|c cols IH]; intros F HF Hcell HP.
  - rewrite filter_nil in HF. apply fmap_nil_inv in HF as ->. reflexivity.
  - rewrite filter_cons in HF. cbn [omap list_omap]. unfold col_emit at 1.
    pose proof (HP c (list_elem_of_here _ _)) as Hc.
    destruct (decide (P c)) as [Pc|Pc].
    + destruct F as [|n F]; [discriminate|]. injection HF as Hd HF.
      rewrite bool_decide_eq_false_2 by tauto.
      rewrite <- Hd, (Hcell n (list_elem_of_here _ _)). cbn [fmap list_fmap].
      f_equal. apply IH; auto.
      * intros m Hm. apply Hcell. now apply list_elem_of_further.
      * intros c' Hc'. apply HP. now apply list_elem_of_further.
    + rewrite bool_decide_eq_true_2
        by (destruct (decide (0 < f c)); [assumption|tauto]).
      apply IH; auto. intros c' Hc'. apply HP. now apply list_elem_of_further.
Qed.

Section Table.
Variable G : Z.
Variable t : PedigreeNode.
Hypothesis HG : 1 <= G.
Hypothesis Hwb : well_built G t.
Hypothesis Hlo : laid_out t.
Hypothesis Hdepth : depth t = 0.
Hypothesis Hstart : row_start t = 0.

Let cells : Cells := collect_cells t ∅.

Lemma root_end : row_end t = 2 ^ (G - 1) - 1.
Proof.
  rewrite (well_built_span G t Hwb Hlo) by (rewrite Hdepth; lia).
  rewrite Hstart, Hdepth, Z.sub_0_r. lia.
Qed.

Lemma starts_at i :
  depth <$> filter (fun n => row_start n = i) (subnodes t) =
  if bool_decide (0 <= i < 2 ^ (G - 1))
  then filter (fun c => i `mod` 2 ^ (G - 1 - c) = 0) (seqZ 0 G)
  else [].
Proof.
  rewrite (starts_columns G t Hwb Hlo);
    [|rewrite Hdepth; lia
     |rewrite Hstart; apply Z.mod_0_l, Z.pow_nonzero; rewrite ?Hdepth; lia].
  rewrite Hstart, Hdepth, root_end, Z.sub_0_r.
  destruct (bool_decide (0 <= i < 2 ^ (G - 1))) eqn:B.
  - apply bool_decide_eq_true in B. now rewrite bool_decide_eq_true_2 by lia.
  - apply bool_decide_eq_false in B. now rewrite bool_decide_eq_false_2 by lia.
Qed.

Lemma subnode_place n :
  n ∈ subnodes t ->
  0 <= row_start n < 2 ^ (G - 1) /\ 0 <= depth n < G /\
  row_start n `mod` 2 ^ (G - 1 - depth n) = 0 /\
  row_end n - row_start n + 1 = 2 ^ (G - 1 - depth n).
Proof.
  intros Hn.
  assert (Hin : depth n ∈
    depth <$> filter (fun m => row_start m = row_start n) (subnodes t)).
  { apply list_elem_of_fmap. exists n. split; [reflexivity|].
    apply list_elem_of_filter. auto. }
  rewrite starts_at in Hin.
  destruct (bool_decide (0 <= row_start n < 2 ^ (G - 1))) eqn:B;
    [|inversion Hin].
  apply bool_decide_eq_true in B.
  apply list_elem_of_filter in Hin as [Hm Hc]. apply elem_of_seqZ in Hc.
  destruct (subnodes_laid_out G t Hwb Hlo n Hn) as [Hwn Hln].
  pose proof (well_built_span G n Hwn Hln ltac:(lia)). split_and!; lia.
Qed.

Lemma cell_at n :
  n ∈ subnodes t -> cells !! (row_start n, depth n) = Some n.
Proof.
  intros Hn. unfold cells. rewrite collect_cells_subnodes.
  apply (foldl_insert_lookup (subnodes t) n ∅); [|exact Hn].
  apply keys_NoDup. intros i. rewrite starts_at.
  destruct (bool_decide _); [|constructor].
  apply NoDup_filter, NoDup_seqZ.
Qed.

Lemma row_emit i :
  0 <= i < 2 ^ (G - 1) ->
  omap (col_emit cells i (cov G i)) (seqZ 0 G) =
  node_cell <$> filter (fun n => row_start n = i) (subnodes t).
Proof.
  intros Hi.
  apply (omap_starts cells i (cov G i)
           (fun c => i `mod` 2 ^ (G - 1 - c) = 0)).
  - rewrite starts_at. now rewrite bool_decide_eq_true_2 by lia.
  - intros n [<- Hn]%list_elem_of_filter. now apply cell_at.
  - intros c Hc%elem_of_seqZ. apply cov_zero. lia.
Qed.

Lemma row_next i :
  0 <= i < 2 ^ (G - 1) ->
  col_next cells i (cov G i) <$> seqZ 0 G = cov G (i + 1) <$> seqZ 0 G.
Proof.
  intros Hi. apply list_fmap_ext. intros k c Hc%list_elem_of_lookup_2.
  apply elem_of_seqZ in Hc. rewrite cov_succ by lia. unfold col_next.
  destruct (bool_decide (0 < cov G i c)) eqn:B; [reflexivity|].
  apply bool_decide_eq_false in B. apply cov_zero in B; [|lia].
  assert (Hin : c ∈
    depth <$> filter (fun n => row_start n = i) (subnodes t)).
  { rewrite starts_at, bool_decide_eq_true_2 by lia.
    apply list_elem_of_filter. split; [exact B|]. apply elem_of_seqZ. lia. }
  apply list_elem_of_fmap in Hin as (n & -> & [<- Hn]%list_elem_of_filter).
  rewrite (cell_at n Hn).
  destruct (subnode_place n Hn) as (_ & _ & _ & ->). reflexivity.
Qed.

Lemma render_row_at i rows :
  0 <= i < 2 ^ (G - 1) ->
  render_row cells G (cov G i <$> seqZ 0 G, rows) i =
  Ok (cov G (i + 1) <$> seqZ 0 G, rows ++ [table_row t i]).
Proof.
  intros Hi. unfold render_row.
  pose proof (for_each_cols cells i (cov G i) (Z.to_nat G) [] []) as H.
  cbn [length app] in H. rewrite Z2Nat.id in H by lia.
  change (Z.of_nat 0) with 0 in H. rewrite H. cbn [mbind outcome_bind].
  rewrite row_next, row_emit by exact Hi. reflexivity.
Qed.

Lemma render_rows_from (k : nat) : forall a rows,
  0 <= a -> a + Z.of_nat k <= 2 ^ (G - 1) ->
  for_each (render_row cells G) (seqZ a (Z.of_nat k))
    (cov G a <$> seqZ 0 G, rows) =
  Ok (cov G (a + Z.of_nat k) <$> seqZ 0 G,
      rows ++ (table_row t <$> seqZ a (Z.of_nat k))).
Proof.
  induction k as [|k IH]; intros a rows Ha Hk.
  - cbn. now rewrite Z.add_0_r, app_nil_r.
  - rewrite (seqZ_cons _ (Z.of_nat (S k))) by lia.
    replace (Z.pred (Z.of_nat (S k))) with (Z.of_nat k) by lia.
    cbn [for_each]. rewrite render_row_at by lia. cbn [mbind outcome_bind].
    replace (Z.succ a) with (a + 1) by lia. rewrite IH by lia.
    rewrite fmap_cons, <- app_assoc.
    replace (a + 1 + Z.of_nat k) with (a + Z.of_nat (S k)) by lia.
    reflexivity.
Qed.

Lemma render_pedigree_rows :
  render_pedigree t G =
  Ok (String.concat newline (table_row t <$> seqZ 0 (2 ^ (G - 1)))).
Proof.
  unfold render_pedigree. rewrite bool_decide_eq_false_2 by lia. cbv zeta.
  assert (Hpos : 0 < 2 ^ (G - 1)) by (apply Z.pow_pos_nonneg; lia).
  pose proof (render_rows_from (Z.to_nat (2 ^ (G - 1))) 0 []) as H.
  rewrite Z2Nat.id in H by lia. fold cells.
  assert (Hcov : replicate (Z.to_nat G) 0 = cov G 0 <$> seqZ 0 G).
  { rewrite <- (length_seqZ 0 G), <- fmap_zero_replicate.
    apply list_fmap_ext. intros k c Hc. unfold cov.
    symmetry. apply Z.mod_0_l. apply Z.pow_nonzero; [lia|].
    apply list_elem_of_lookup_2, elem_of_seqZ in Hc. lia. }
  rewrite Hcov, H by lia. reflexivity.
Qed.

End Table.

(** The table [render_pedigree] writes for the tree of [build_tree] laid
    out by [assign_rows]: one row for each leaf row; row [i] holds the
    cells of the nodes whose span starts at [i], the outer generation
    first, and no filler cell; every node starts inside the table and
    its [rowspan] is [2 ^ (G - 1 - depth)].  Without a generation to show
    the call fails on [range]. *)
Theorem render_pedigree_table horses k G :
  let root := (assign_rows (build_tree horses k G) 0 G).1 in
  (G <= 0 -> render_pedigree root G = Raised "TypeError") /\
  (1 <= G ->
   render_pedigree root G =
     Ok (String.concat newline (table_row root <$> seqZ 0 (2 ^ (G - 1)))) /\
   forall n, n ∈ subnodes root ->
     0 <= row_start n < 2 ^ (G - 1) /\
     row_end n - row_start n + 1 = 2 ^ (G - 1 - depth n)).
Proof.
  intros root. split.
  - intros HG. unfold render_pedigree.
    now rewrite bool_decide_eq_true_2 by lia.
  - intros HG.
    destruct (build_tree_well_built horses k G) as (Hwb & _ & Hd & _).
    destruct (assign_rows_well_built G _ Hwb 0)
      as (_ & Hrs & _ & Hlo & Hwb' & _ & Hd' & _).
    fold root in Hrs, Hlo, Hwb', Hd'. rewrite Hd in Hd'. split.
    + apply render_pedigree_rows; auto.
    + intros n Hn.
      destruct (subnode_place G root HG Hwb' Hlo Hd' Hrs n Hn)
        as (? & _ & _ & ?). auto.
Qed.

Lemma leaves_rows G t :
  well_built G t -> laid_out t ->
  row_start <$> leaves t = seqZ (row_start t) (leaf_count t) /\
  row_end <$> leaves t = seqZ (row_start t) (leaf_count t).
Proof.
  induction t as [h s d rs re dp IHs IHd] using PedigreeNode_ind.
  intros Hwb Hlo. cbn [well_built laid_out] in Hwb, Hlo.
  destruct s as [sn|], d as [dn|]; try contradiction.
  - destruct Hwb as (_ & _ & _ & Hwbs & Hwbd).
    destruct Hlo as (Ers & Eadj & Ere & Hlos & Hlod).
    destruct (IHs sn eq_refl Hwbs Hlos) as [IHs1 IHs2].
    destruct (IHd dn eq_refl Hwbd Hlod) as [IHd1 IHd2].
    pose proof (laid_out_span_len G sn Hwbs Hlos) as Hsp.
    unfold span_len in Hsp.
    pose proof (leaf_count_pos sn). pose proof (leaf_count_pos dn).
    cbn [leaves leaf_count row_start]. rewrite !fmap_app.
    rewrite IHs1, IHs2, IHd1, IHd2, seqZ_app by lia.
    replace (row_start dn) with (rs + leaf_count sn) by lia.
    now rewrite Ers.
  - subst re. cbn. auto.
Qed.

(** The leaves of the laid-out tree hold the rows [0], [1], [2], ... in
    order, one row each. *)
Theorem assign_rows_leaves_in_order horses k G :
  1 <= G ->
  let root := (assign_rows (build_tree horses k G) 0 G).1 in
  row_start <$> leaves root = seqZ 0 (2 ^ (G - 1)) /\
  row_end <$> leaves root = seqZ 0 (2 ^ (G - 1)).
Proof.
  intros HG root.
  destruct (build_tree_well_built horses k G) as (Hwb & _ & Hd & _).
  destruct (assign_rows_well_built G _ Hwb 0)
    as (_ & Hrs & _ & Hlo & Hwb' & Hlc & _).
  fold root in Hrs, Hlo, Hwb', Hlc.
  destruct (leaves_rows G root Hwb' Hlo) as [H1 H2].
  rewrite Hrs, Hlc, (well_built_leaf_count G _ Hwb) in H1, H2 by lia.
  rewrite Hd, Z.sub_0_r in H1, H2. auto.
Qed.

Lemma subnodes_linked horses t :
  linked horses t -> forall n, n ∈ subnodes t -> linked horses n.
Proof.
  induction t as [h s d rs re dp IHs IHd] using PedigreeNode_ind.
  intros Hl n Hn. cbn [subnodes] in Hn.
  apply elem_of_cons in Hn as [->|Hn]; [exact Hl|].
  cbn [linked] in Hl. destruct Hl as [Hs Hd].
  apply elem_of_app in Hn as [Hn|Hn].
  - destruct s as [sn|]; [|inversion Hn]. apply (IHs sn eq_refl); tauto.
  - destruct d as [dn|]; [|inversion Hn]. apply (IHd dn eq_refl); tauto.
Qed.

Lemma parent_horse horses key :
  default placeholder_horse (get_parent horses key) = placeholder_horse \/
  (exists key' : string, key' <> "" /\
     horses !! key' =
     Some (default placeholder_horse (get_parent horses key))).
Proof.
  destruct key as [key|]; [|now left]. cbn.
  destruct (decide (key = "")); [now left|].
  destruct (horses !! key) as [h|] eqn:Hk; [|now left].
  right. exists key. auto.
Qed.

Lemma linked_horses horses t :
  linked horses t -> forall n, n ∈ subnodes t ->
  horse n = horse t \/
  horse n = placeholder_horse \/
  exists key, key <> "" /\ horses !! key = Some (horse n).
Proof.
  induction t as [h s d rs re dp IHs IHd] using PedigreeNode_ind.
  intros Hl n Hn. cbn [subnodes] in Hn.
  apply elem_of_cons in Hn as [->|Hn]; [now left|].
  cbn [linked] in Hl. destruct Hl as [Hs Hd]. right.
  apply elem_of_app in Hn as [Hn|Hn].
  - destruct s as [sn|]; [|inversion Hn]. destruct Hs as [Es Hls].
    destruct (IHs sn eq_refl Hls n Hn) as [->|H]; [|exact H].
    rewrite Es. apply parent_horse.
  - destruct d as [dn|]; [|inversion Hn]. destruct Hd as [Ed Hld].
    destruct (IHd dn eq_refl Hld n Hn) as [->|H]; [|exact H].
    rewrite Ed. apply parent_horse.
Qed.

(** The tree follows the parent links of the store: the sire (dam) side
    of every node shows the record filed under the sire (dam) key of the
    node's horse, and a placeholder when the key is missing, empty or
    unknown to the store.  So a horse of the tree is the root's, a
    placeholder, or a record of the store. *)
Theorem build_tree_follows_links horses k G :
  let t := build_tree horses k G in
  (forall n, n ∈ subnodes t ->
     (forall s, n_sire n = Some s ->
        horse s = default placeholder_horse
                    (get_parent horses (sire (horse n)))) /\
     (forall d, n_dam n = Some d ->
        horse d = default placeholder_horse
                    (get_parent horses (dam (horse n))))) /\
  (forall n, n ∈ subnodes t ->
     horse n = default UNKNOWN_HORSE (horses !! k) \/
     horse n = placeholder_horse \/
     exists key, key <> "" /\ horses !! key = Some (horse n)).
Proof.
  intros t.
  destruct (build_tree_well_built horses k G) as (_ & Hl & _ & Hroot).
  fold t in Hl, Hroot. split.
  - intros n Hn. pose proof (subnodes_linked horses t Hl n Hn) as Hln.
    destruct n as [h s d rs re dp]. cbn [linked] in Hln. cbn.
    destruct Hln as [Hs Hd]. split.
    + intros s' ->. tauto.
    + intros d' ->. tauto.
  - intros n Hn. destruct (linked_horses horses t Hl n Hn) as [->|H].
    + left. exact Hroot.
    + right. exact H.
Qed.

Lemma assign_rows_leaves_in_order_witness :
  1 <= 3 /\
  let root := (assign_rows (build_tree stable "A" 3) 0 3).1 in
  row_start <$> leaves root = seqZ 0 (2 ^ (3 - 1)) /\
  row_end <$> leaves root = seqZ 0 (2 ^ (3 - 1)).
Proof.
  split; [lia|]. apply (assign_rows_leaves_in_order stable "A" 3). lia.
Defined.

End PedigreeRenderFacts.

(** * Facts on loading *)

Module PedigreeLoadFacts.
Import Pedigree MakePedigree PedigreeLoad PedigreeFacts PedigreeRenderFacts.

Section Load.
Variable strip : string -> string.

(** A loop that files each item with a non-empty key under its key keeps,
    for a key, the last item filed under it. *)
Lemma foldl_file {A B} (keyf : A -> string) (mk : string -> A -> B)
    (l : list A) (k : string) : forall m : gmap string B,
  foldl (fun m x => if decide (keyf x = "") then m
                    else <[keyf x := mk (keyf x) x]> m) m l !! k =
  match last (filter (fun x => keyf x = k) l) with
  | Some x => if decide (k = "") then m !! k else Some (mk k x)
  | None => m !! k
  end.
Proof.
  induction l as [|x l IH] using rev_ind; intros m; [reflexivity|].
  rewrite foldl_app, filter_app. cbn [foldl].
  rewrite filter_cons, filter_nil.
  destruct (decide (keyf x = k)) as [E|E].
  - rewrite last_snoc. subst k.
    destruct (decide (keyf x = "")) as [E0|E0]; [|apply lookup_insert_eq].
    rewrite IH. destruct (last _); [|reflexivity].
    now rewrite E0.
  - rewrite app_nil_r.
    destruct (decide (keyf x = "")); [apply IH|].
    rewrite lookup_insert_ne by exact E. apply IH.
Qed.

Lemma load_horses_lookup rows k :
  load_horses strip rows !! k =
    (if decide (k = "") then None
     else horse_of_row strip k <$>
            last (filter (fun r => field strip r "PrimaryKey" = k) rows)).
Proof.
  unfold load_horses.
  rewrite (foldl_file (fun r => field strip r "PrimaryKey")
             (horse_of_row strip) rows k ∅).
  rewrite lookup_empty.
  destruct (last _); destruct (decide (k = "")); reflexivity.
Qed.

Lemma load_horses_spec_empty rows : load_horses strip rows !! "" = None.
Proof. rewrite load_horses_lookup. reflexivity. Qed.

Lemma load_horses_not_placeholder rows k h :
  load_horses strip rows !! k = Some h -> is_placeholder h = false.
Proof.
  rewrite load_horses_lookup. destruct (decide (k = "")); [discriminate|].
  destruct (last _); [|discriminate]. now intros [= <-].
Qed.

(** [load_horses] keeps, for each non-empty stripped [PrimaryKey], the
    horse of the last row that carries it; the horse is filed under its
    own key, its parent links are [None] rather than empty, its name is
    never empty, and it is no placeholder. *)
Theorem load_horses_spec rows k :
  load_horses strip rows !! k =
    (if decide (k = "") then None
     else horse_of_row strip k <$>
            last (filter (fun r => field strip r "PrimaryKey" = k) rows)) /\
  forall h, load_horses strip rows !! k = Some h ->
    k <> "" /\ key h = k /\ sire h <> Some "" /\ dam h <> Some "" /\
    name h <> "" /\ is_placeholder h = false.
Proof.
  pose proof (load_horses_lookup rows k) as Hspec.
  split; [exact Hspec|]. intros h. rewrite Hspec.
  destruct (decide (k = "")) as [|Hk]; [discriminate|].
  destruct (last _) as [r|]; [|discriminate]. intros [= <-].
  unfold horse_of_row, or_None. cbn. split_and!; auto.
  - destruct (decide (field strip r "Sire" = "")); congruence.
  - destruct (decide (field strip r "Dam" = "")); congruence.
  - destruct (decide (field strip r "Horse Name" = "")); congruence.
Qed.

(** [load_rows] keeps, for each non-empty stripped [PrimaryKey], the last
    row that carries it, and nothing under the empty key. *)
Theorem load_rows_spec rows k :
  load_rows strip rows !! k =
    (if decide (k = "") then None
     else last (filter (fun r => field strip r "PrimaryKey" = k) rows)) /\
  forall r, load_rows strip rows !! k = Some r ->
    k <> "" /\ r ∈ rows /\ field strip r "PrimaryKey" = k.
Proof.
  assert (Hspec : load_rows strip rows !! k =
    (if decide (k = "") then None
     else last (filter (fun r => field strip r "PrimaryKey" = k) rows))).
  { unfold load_rows.
    rewrite (foldl_file (fun r => field strip r "PrimaryKey")
               (fun _ r => r) rows k ∅).
    rewrite lookup_empty.
    destruct (last _); destruct (decide (k = "")); reflexivity. }
  split; [exact Hspec|]. intros r. rewrite Hspec.
  destruct (decide (k = "")) as [|Hk]; [discriminate|].
  intros Hl. apply last_Some_elem_of, list_elem_of_filter in Hl. tauto.
Qed.

(** In the tree built from a loaded file a side shows the placeholder
    exactly when the link of the horse is missing or names no row of the
    file; otherwise it shows the horse loaded for that key. *)
Theorem loaded_tree_placeholders rows k G :
  let horses := load_horses strip rows in
  let t := build_tree horses k G in
  forall n, n ∈ subnodes t ->
    (forall s, n_sire n = Some s ->
       (is_placeholder (horse s) = true <->
        forall key, sire (horse n) = Some key -> horses !! key = None) /\
       (forall key h, sire (horse n) = Some key ->
          horses !! key = Some h -> horse s = h)) /\
    (forall d, n_dam n = Some d ->
       (is_placeholder (horse d) = true <->
        forall key, dam (horse n) = Some key -> horses !! key = None) /\
       (forall key h, dam (horse n) = Some key ->
          horses !! key = Some h -> horse d = h)).
Proof.
  intros horses t n Hn.
  destruct (build_tree_well_built horses k G) as (_ & Hl & _ & _).
  fold t in Hl. pose proof (subnodes_linked horses t Hl n Hn) as Hln.
  assert (Hside : forall link c,
    horse c = default placeholder_horse (get_parent horses link) ->
    (is_placeholder (horse c) = true <->
     forall key, link = Some key -> horses !! key = None) /\
    (forall key h, link = Some key -> horses !! key = Some h ->
       horse c = h)).
  { intros link c ->. destruct link as [key|]; cbn.
    - destruct (decide (key = "")) as [->|Hk].
      + pose proof (load_horses_spec_empty rows) as Hempty.
        fold horses in Hempty. cbn. split; [split|].
        * intros _ key [= <-]. exact Hempty.
        * reflexivity.
        * intros key h [= <-]. rewrite Hempty. discriminate.
      + destruct (horses !! key) as [h|] eqn:Hh; cbn.
        * split; [split|].
          -- intros Hp.
             pose proof (load_horses_not_placeholder rows key h Hh).
             congruence.
          -- intros H. specialize (H key eq_refl). congruence.
          -- intros key' h' [= <-]. rewrite Hh. congruence.
        * split; [split|].
          -- intros _ key' [= <-]. exact Hh.
          -- reflexivity.
          -- intros key' h' [= <-]. rewrite Hh. discriminate.
    - split; [split|]; [intros _ key; discriminate|reflexivity|
                        intros key h; discriminate]. }
  destruct n as [h s d rs re dp]. cbn [linked] in Hln. cbn.
  destruct Hln as [Hs Hd]. split.
  - intros s' ->. apply Hside. tauto.
  - intros d' ->. apply Hside. tauto.
Qed.

End Load.

Lemma loaded_tree_placeholders_witness :
  let horses := load_horses ascii_strip rows_example in
  let t := build_tree horses "A" 2 in
  t ∈ subnodes t /\
  (forall s, n_sire t = Some s ->
     (is_placeholder (horse s) = true <->
      forall key, sire (horse t) = Some key -> horses !! key = None) /\
     (forall key h, sire (horse t) = Some key ->
        horses !! key = Some h -> horse s = h)) /\
  (forall d, n_dam t = Some d ->
     (is_placeholder (horse d) = true <->
      forall key, dam (horse t) = Some key -> horses !! key = None) /\
     (forall key h, dam (horse t) = Some key ->
        horses !! key = Some h -> horse d = h)).
Proof.
  intros horses t.
  assert (Hin : t ∈ subnodes t) by (vm_compute; apply list_elem_of_here).
  split; [exact Hin|].
  exact (loaded_tree_placeholders ascii_strip rows_example "A" 2 t Hin).
Defined.

End PedigreeLoadFacts.

(** * Facts on the lines of the summary *)

Module ImageSummaryFacts.
Import ImageSummary.

Lemma string_app_assoc (a b c : string) : (a +:+ b) +:+ c = a +:+ b +:+ c.
Proof.
  induction a as [|x a IH]; [reflexivity|].
  change (String x ((a +:+ b) +:+ c) = String x (a +:+ b +:+ c)).
  now rewrite IH.
Qed.

Lemma string_app_nonempty (a b : string) : a <> "" -> a +:+ b <> "".
Proof. destruct a; [congruence|discriminate]. Qed.

Lemma concat_cons sep x y (l : list string) :
  String.concat sep (x :: y :: l) = x +:+ sep +:+ String.concat sep (y :: l).
Proof. reflexivity. Qed.

(** Joining does not see whether two neighbours were glued before. *)
Lemma concat_glued sep (l : list string) a b rest :
  String.concat sep (l ++ (a +:+ sep +:+ b) :: rest) =
  String.concat sep (l ++ a :: b :: rest).
Proof.
  induction l as [|x l IH].
  - cbn [app]. rewrite concat_cons. destruct rest as [|r rest].
    + reflexivity.
    + rewrite !concat_cons, !string_app_assoc. reflexivity.
  - destruct l as [|y l].
    + cbn [app] in *. rewrite !concat_cons, IH, concat_cons. reflexivity.
    + cbn [app] in *. rewrite !(concat_cons sep x), IH. reflexivity.
Qed.

Section Wrap.
Variable len : string -> Z.
Variable max_chars : Z.
Variable all_parts : list string.

Lemma wrap_step_first lines part :
  wrap_step len max_chars (lines, "") part = (lines, part).
Proof.
  unfold wrap_step. rewrite decide_True by reflexivity.
  rewrite (bool_decide_eq_false_2 ("" <> "")) by tauto.
  now rewrite andb_false_r.
Qed.

Lemma wrap_step_next lines current part :
  current <> "" ->
  wrap_step len max_chars (lines, current) part =
  if bool_decide (max_chars < len (current +:+ " / " +:+ part))
  then (lines ++ [current], part)
  else (lines, current +:+ " / " +:+ part).
Proof.
  intros Hc. unfold wrap_step. rewrite decide_False by exact Hc.
  rewrite (bool_decide_eq_true_2 (current <> "")) by exact Hc.
  now rewrite andb_true_r.
Qed.

#[local] Abbreviation line_ok :=
  (ImageSummary.line_ok len max_chars all_parts).

Lemma wrap_loop parts : forall lines current,
  Forall (fun part => part <> "") parts ->
  (forall part, part ∈ parts -> part ∈ all_parts) ->
  current <> "" ->
  Forall (fun line => line <> "") lines ->
  Forall line_ok lines -> line_ok current ->
  let st := foldl (wrap_step len max_chars) (lines, current) parts in
  st.2 <> "" /\
  String.concat " / " (st.1 ++ [st.2]) =
    String.concat " / " (lines ++ current :: parts) /\
  Forall (fun line => line <> "") st.1 /\
  Forall line_ok st.1 /\ line_ok st.2.
Proof.
  induction parts as [|part parts IH];
    intros lines current Hne Hall Hc Hlne Hlok Hcok.
  - cbn. auto.
  - apply Forall_cons in Hne as [Hp Hne]. cbn [foldl].
    rewrite wrap_step_next by exact Hc.
    assert (Hpart : part ∈ all_parts) by (apply Hall, list_elem_of_here).
    assert (Hall' : forall p, p ∈ parts -> p ∈ all_parts)
      by (intros p Hin; apply Hall; now apply list_elem_of_further).
    destruct (bool_decide _) eqn:B.
    + destruct (IH (lines ++ [current]) part Hne Hall' Hp)
        as (H1 & H2 & H3 & H4 & H5).
      * apply Forall_app. split; [exact Hlne|]. now constructor.
      * apply Forall_app. split; [exact Hlok|]. now constructor.
      * now right.
      * cbv zeta. split_and!; auto. rewrite H2, <- app_assoc. reflexivity.
    + apply bool_decide_eq_false in B.
      destruct (IH lines (current +:+ " / " +:+ part) Hne Hall')
        as (H1 & H2 & H3 & H4 & H5); auto.
      * now apply string_app_nonempty.
      * left. lia.
      * cbv zeta. split_and!; auto. rewrite H2. apply concat_glued.
Qed.

End Wrap.

(** The lines made of the parts of the summary: joined again with the
    separator they give back the summary; no line is empty; and a line
    has more than [max_chars] characters, as [len] counts them, only when
    it is a single part that is too long by itself. *)
Theorem wrap_parts_spec len parts max_chars :
  Forall (fun part => part <> "") parts ->
  String.concat " / " (wrap_parts len parts max_chars) =
    String.concat " / " parts /\
  Forall (fun line => line <> "") (wrap_parts len parts max_chars) /\
  Forall (fun line => len line <= max_chars \/ line ∈ parts)
         (wrap_parts len parts max_chars).
Proof.
  intros Hne. unfold wrap_parts. destruct parts as [|part parts].
  - cbn. auto.
  - pose proof Hne as Hne'. apply Forall_cons in Hne' as [Hp Hps].
    cbn [foldl]. rewrite wrap_step_first.
    destruct (wrap_loop len max_chars (part :: parts) parts [] part Hps)
      as (H1 & H2 & H3 & H4 & H5); auto.
    + intros p Hin. now apply list_elem_of_further.
    + right. apply list_elem_of_here.
    + destruct (foldl _ _ _) as [lines current]. cbn [fst snd] in *.
      rewrite decide_False by exact H1. split_and!.
      * exact H2.
      * apply Forall_app. split; [exact H3|]. now constructor.
      * apply Forall_app. split; [exact H4|]. now constructor.
Qed.

Lemma wrap_parts_spec_witness :
  let parts := ["Alpha 12.50% 3 x 3"; "Bravo 6.25% 4 x 4"; "C"] in
  Forall (fun part => part <> "") parts /\
  String.concat " / " (wrap_parts ascii_len parts 21) =
    String.concat " / " parts /\
  Forall (fun line => line <> "") (wrap_parts ascii_len parts 21) /\
  Forall (fun line => ascii_len line <= 21 \/ line ∈ parts)
         (wrap_parts ascii_len parts 21).
Proof.
  intros parts.
  assert (H : Forall (fun part => part <> "") parts)
    by (repeat constructor; discriminate).
  split; [exact H|]. exact (wrap_parts_spec ascii_len parts 21 H).
Defined.

End ImageSummaryFacts.

(** * Facts about the inbreeding analyzer *)
Module MakePedigreeFacts.
Import MakePedigree.

(** ** Dictionaries *)

Section Dicts.
Context {V : Type}.
Implicit Types (d : dict V) (k : string).

Lemma dict_get_None d k : dict_get d k = None <-> k ∉ dict_keys d.
Proof.
  induction d as [|[k' v] d IH]; simpl.
  - split; [intros _; apply not_elem_of_nil | reflexivity].
  - rewrite not_elem_of_cons. destruct (decide (k' = k)) as [->|Hne].
    + split; [discriminate | intros [? _]; congruence].
    + rewrite IH. split; [intros ?; split; congruence | tauto].
Qed.

Lemma dict_get_Some_keys d k v : dict_get d k = Some v -> k ∈ dict_keys d.
Proof.
  intros E. destruct (decide (k ∈ dict_keys d)) as [|Hn]; [assumption|].
  apply dict_get_None in Hn. congruence.
Qed.

Lemma dict_keys_is_Some d k : k ∈ dict_keys d <-> is_Some (dict_get d k).
Proof.
  split.
  - intros Hin. destruct (dict_get d k) eqn:E; [eauto|].
    apply dict_get_None in E. contradiction.
  - intros [v E]. eapply dict_get_Some_keys, E.
Qed.

Lemma dict_get_set d k v k' :
  dict_get (dict_set d k v) k' =
  if decide (k = k') then Some v else dict_get d k'.
Proof.
  induction d as [|[k0 v0] d IH]; simpl.
  - destruct (decide (k = k')); reflexivity.
  - destruct (decide (k0 = k)) as [->|Hne]; simpl.
    + destruct (decide (k = k')); reflexivity.
    + destruct (decide (k0 = k')) as [->|Hne'].
      * rewrite decide_False by congruence. reflexivity.
      * apply IH.
Qed.

End Dicts.

Section DictLists.
Context {V : Type}.
Implicit Types (d : dict (list V)) (k : string).

Lemma dict_get_setdefault_append d k o k' :
  dict_get (setdefault_append d k o) k' =
  if decide (k = k') then Some (default [] (dict_get d k) ++ [o])
  else dict_get d k'.
Proof.
  induction d as [|[k0 l0] d IH]; simpl.
  - destruct (decide (k = k')); reflexivity.
  - destruct (decide (k0 = k)) as [->|Hne]; simpl.
    + destruct (decide (k = k')); reflexivity.
    + destruct (decide (k0 = k')) as [->|Hne'].
      * rewrite decide_False by congruence. reflexivity.
      * apply IH.
Qed.

Lemma dict_keys_setdefault_append d k o :
  dict_keys (setdefault_append d k o) =
  if decide (k ∈ dict_keys d) then dict_keys d else dict_keys d ++ [k].
Proof.
  unfold dict_keys. induction d as [|[k0 v0] d IH].
  - cbn. rewrite decide_False by apply not_elem_of_nil. reflexivity.
  - cbn [setdefault_append]. destruct (decide (k0 = k)) as [->|Hne];
      rewrite !fmap_cons; cbn [fst].
    + rewrite decide_True by apply list_elem_of_here. reflexivity.
    + rewrite IH.
      destruct (decide (k ∈ d.*1)) as [Hin|Hn],
               (decide (k ∈ k0 :: d.*1)) as [Hin'|Hn'];
        try reflexivity; exfalso.
      * apply Hn'. apply list_elem_of_further, Hin.
      * apply elem_of_cons in Hin' as [?|?]; [congruence|contradiction].
Qed.

Lemma setdefault_append_NoDup d k o :
  NoDup (dict_keys d) -> NoDup (dict_keys (setdefault_append d k o)).
Proof.
  intros Hnd. rewrite dict_keys_setdefault_append.
  destruct (decide (k ∈ dict_keys d)) as [|Hn]; [assumption|].
  apply NoDup_app. split_and!; [assumption| |apply NoDup_singleton].
  intros x Hx ->%list_elem_of_singleton. contradiction.
Qed.

End DictLists.

(** ** The walk records its trace *)

Section WalkFacts.
Variable strip : string -> string.
Context {T : Type}.
Implicit Types (o : Occurrence T) (tr : list (Occurrence T))
  (d : dict (list (Occurrence T))).

Lemma record_all_app tr1 tr2 d :
  record_all (tr1 ++ tr2) d = record_all tr2 (record_all tr1 d).
Proof. apply foldl_app. Qed.

Lemma record_all_NoDup tr d :
  NoDup (dict_keys d) -> NoDup (dict_keys (record_all tr d)).
Proof.
  revert d. induction tr as [|o tr IH]; intros d Hnd; [exact Hnd|].
  apply IH, setdefault_append_NoDup, Hnd.
Qed.

Lemma dict_get_record_all tr d a :
  dict_get (record_all tr d) a =
  match hits a tr with
  | [] => dict_get d a
  | l => Some (default [] (dict_get d a) ++ l)
  end.
Proof.
  revert d. induction tr as [|o tr IH]; intros d; [reflexivity|].
  change (record_all (o :: tr) d)
    with (record_all tr (setdefault_append d (occ_key o) o)).
  rewrite IH, dict_get_setdefault_append. unfold hits.
  rewrite filter_cons. destruct (decide (occ_key o = a)) as [->|Hne].
  - simpl. destruct (filter _ tr) as [|o' l].
    + reflexivity.
    + rewrite <- app_assoc. reflexivity.
  - reflexivity.
Qed.

Lemma visiting_add (x : string) (path : list string) :
  ({[x]} ∪ list_to_set path : gset string) = list_to_set (path ++ [x]).
Proof. rewrite list_to_set_app_L. simpl. set_solver. Qed.

Lemma set_remove_added (x : string) (path : list string) :
  x ∉ path ->
  set_remove x (list_to_set (path ++ [x])) = Ok (list_to_set path).
Proof.
  intros Hx. unfold set_remove.
  rewrite decide_True by (rewrite list_to_set_app_L; set_solver).
  f_equal. rewrite list_to_set_app_L. simpl.
  assert (x ∉ (list_to_set path : gset string)) by (rewrite elem_of_list_to_set; exact Hx).
  set_solver.
Qed.

(** [walk] never raises, restores the visiting set, and files exactly the
    occurrences of [trace]. *)
Lemma walk_trace by_pk max_depth node_pk gen path sd d :
  walk strip by_pk max_depth node_pk gen path sd (d, list_to_set path) =
  Ok (record_all (trace strip by_pk max_depth node_pk gen path sd) d,
      list_to_set path).
Proof.
  remember (Z.to_nat (max_depth - gen)) as n eqn:En.
  revert node_pk gen path d En.
  induction n as [n IH] using lt_wf_ind. intros node_pk gen path d En.
  rewrite walk_equation_1, trace_equation_1. cbn [fst snd].
  destruct (bool_decide (max_depth < gen)) eqn:Hgen; [reflexivity|].
  apply bool_decide_eq_false in Hgen.
  rewrite (bool_decide_ext (node_pk ∈ (list_to_set path : gset string))
             (node_pk ∈ path)) by apply elem_of_list_to_set.
  destruct (bool_decide (node_pk ∈ path)) eqn:Hvis; [reflexivity|].
  apply bool_decide_eq_false in Hvis.
  cbv zeta. rewrite visiting_add.
  change (record_all (?o :: ?tr) d)
    with (record_all tr (setdefault_append d (occ_key o) o)).
  assert (Hkey : occ_key (mkOcc gen (path ++ [node_pk]) sd) = node_pk).
  { unfold occ_key. simpl. rewrite last_snoc. reflexivity. }
  rewrite Hkey. clear Hkey.
  set (d1 := setdefault_append d node_pk _).
  unfold parents.
  destruct (by_pk !! node_pk) as [data|] eqn:Hdata.
  - destruct (Z_lt_dec gen max_depth) as [Hlt|Hge].
    + assert (Hm : (Z.to_nat (max_depth - (gen + 1)) < n)%nat) by lia.
      destruct (decide (field strip data "Sire" = "")) as [Es|Es],
               (decide (field strip data "Dam" = "")) as [Ed|Ed];
        cbn [mbind outcome_bind app list_bind];
        try rewrite (IH _ Hm _ _ _ _ eq_refl); cbn [mbind outcome_bind fst snd];
        try rewrite (IH _ Hm _ _ _ _ eq_refl); cbn [mbind outcome_bind fst snd];
        rewrite set_remove_added by assumption; cbn [mbind outcome_bind];
        rewrite ?app_nil_r, ?record_all_app; reflexivity.
    + cbn [mbind outcome_bind fst snd].
      rewrite set_remove_added by assumption. reflexivity.
  - destruct (Z_lt_dec gen max_depth);
      rewrite set_remove_added by assumption; reflexivity.
Qed.

(** The trace holds exactly the cycle-free chains of parent links that
    start at [node_pk] and stay within [max_depth] generations. *)
Lemma trace_spec by_pk max_depth node_pk gen path sd o :
  NoDup path ->
  o ∈ trace strip by_pk max_depth node_pk gen path sd <->
  exists suffix,
    MakePedigree.path o = path ++ node_pk :: suffix /\
    chain strip by_pk node_pk suffix /\
    NoDup (path ++ node_pk :: suffix) /\
    MakePedigree.gen o = gen + Z.of_nat (length suffix) /\
    gen + Z.of_nat (length suffix) <= max_depth /\
    side o = sd.
Proof.
  remember (Z.to_nat (max_depth - gen)) as n eqn:En.
  revert node_pk gen path o En.
  induction n as [n IH] using lt_wf_ind. intros node_pk gen path o En Hnd.
  rewrite trace_equation_1.
  destruct (bool_decide (max_depth < gen)) eqn:Hgen.
  { apply bool_decide_eq_true in Hgen. split.
    - intros []%elem_of_nil.
    - intros (suffix & _ & _ & _ & _ & Hle & _). lia. }
  apply bool_decide_eq_false in Hgen.
  destruct (bool_decide (node_pk ∈ path)) eqn:Hvis.
  { apply bool_decide_eq_true in Hvis. split.
    - intros []%elem_of_nil.
    - intros (suffix & _ & _ & Hnd' & _). exfalso.
      apply NoDup_app in Hnd' as (_ & Hdisj & _).
      apply (Hdisj node_pk Hvis). apply list_elem_of_here. }
  apply bool_decide_eq_false in Hvis.
  cbv zeta. rewrite elem_of_cons. split.
  - intros [-> | Hin].
    + exists []. cbn. split_and!; auto; try lia.
      apply NoDup_app. split_and!; [assumption| |apply NoDup_singleton].
      intros x Hx ->%list_elem_of_singleton. contradiction.
    + destruct (Z_lt_dec gen max_depth) as [Hlt|Hge];
        [|now apply elem_of_nil in Hin].
      apply list_elem_of_bind in Hin as (p & Hin & Hp).
      assert (Hnd' : NoDup (path ++ [node_pk])).
      { apply NoDup_app. split_and!; [assumption| |apply NoDup_singleton].
        intros x Hx ->%list_elem_of_singleton. contradiction. }
      apply (IH (Z.to_nat (max_depth - (gen + 1)))) in Hin; [|lia|reflexivity|exact Hnd'].
      destruct Hin as (s' & Ep & Hch & Hnd'' & Eg & Hle & Es).
      exists (p :: s'). rewrite <- app_assoc in Ep, Hnd''. cbn in Ep, Hnd''.
      cbn [chain length]. split_and!; auto; lia.
  - intros (suffix & Ep & Hch & Hnd' & Eg & Hle & Es).
    destruct suffix as [|p s'].
    + left. destruct o as [g pth s0]. cbn in *. subst. f_equal. lia.
    + right. cbn [chain length] in *. destruct Hch as [Hp Hch].
      destruct (Z_lt_dec gen max_depth) as [Hlt|Hge]; [|lia].
      apply list_elem_of_bind. exists p. split; [|exact Hp].
      apply (IH (Z.to_nat (max_depth - (gen + 1)))); [lia|reflexivity| |].
      * apply NoDup_app. split_and!; [assumption| |apply NoDup_singleton].
        intros x Hx ->%list_elem_of_singleton. contradiction.
      * exists s'. rewrite <- app_assoc. cbn. split_and!; auto; lia.
Qed.

Lemma trace_prefix by_pk max_depth node_pk gen path sd o :
  o ∈ trace strip by_pk max_depth node_pk gen path sd ->
  exists suffix, MakePedigree.path o = path ++ node_pk :: suffix.
Proof.
  remember (Z.to_nat (max_depth - gen)) as n eqn:En.
  revert node_pk gen path o En.
  induction n as [n IH] using lt_wf_ind. intros node_pk gen path o En.
  rewrite trace_equation_1.
  destruct (bool_decide (max_depth < gen)); [intros []%elem_of_nil|].
  destruct (bool_decide (node_pk ∈ path)); [intros []%elem_of_nil|].
  cbv zeta. intros [->|Hin]%elem_of_cons; [exists []; reflexivity|].
  destruct (Z_lt_dec gen max_depth) as [Hlt|]; [|now apply elem_of_nil in Hin].
  apply list_elem_of_bind in Hin as (p & Hin & _).
  apply (IH (Z.to_nat (max_depth - (gen + 1)))) in Hin as (sfx & ->);
    [|lia|reflexivity].
  exists (p :: sfx). now rewrite <- app_assoc.
Qed.

(** When no record names the same parent twice, no path is filed twice. *)
Lemma trace_paths_NoDup by_pk max_depth node_pk gen path sd :
  (forall k, NoDup (parents strip by_pk k)) ->
  NoDup (@MakePedigree.path T <$> trace strip by_pk max_depth node_pk gen path sd).
Proof.
  intros Hpar.
  remember (Z.to_nat (max_depth - gen)) as n eqn:En.
  revert node_pk gen path En.
  induction n as [n IH] using lt_wf_ind. intros node_pk gen path En.
  rewrite trace_equation_1.
  destruct (bool_decide (max_depth < gen)); [apply NoDup_nil_2|].
  destruct (bool_decide (node_pk ∈ path)); [apply NoDup_nil_2|].
  cbv zeta. rewrite fmap_cons. cbn [MakePedigree.path].
  destruct (Z_lt_dec gen max_depth) as [Hlt|];
    [|apply NoDup_singleton].
  apply NoDup_cons. split.
  - intros (o & Ep & Ho)%list_elem_of_fmap.
    apply list_elem_of_bind in Ho as (p & Ho & _).
    apply trace_prefix in Ho as (sfx & Eo). rewrite Eo in Ep.
    apply (f_equal length) in Ep. rewrite !length_app in Ep. cbn in Ep. lia.
  - generalize (Hpar node_pk).
    induction (parents strip by_pk node_pk) as [|p ps IHps]; intros Hnd;
      [apply NoDup_nil_2|].
    apply NoDup_cons in Hnd as [Hp Hnd].
    cbn [mbind list_bind]. rewrite fmap_app. apply NoDup_app. split_and!.
    + apply (IH (Z.to_nat (max_depth - (gen + 1)))); [lia|reflexivity].
    + intros x (o1 & -> & Ho1)%list_elem_of_fmap (o2 & E & Ho2)%list_elem_of_fmap.
      apply trace_prefix in Ho1 as (s1 & E1).
      apply list_elem_of_bind in Ho2 as (q & Ho2 & Hq).
      apply trace_prefix in Ho2 as (s2 & E2).
      rewrite E1, E2 in E. apply app_inv_head in E. injection E as -> _.
      contradiction.
    + apply IHps, Hnd.
Qed.

Lemma all_occurrences_paths_NoDup (sire_tag dam_tag : T) pk by_pk max_depth :
  (forall k, NoDup (parents strip by_pk k)) ->
  NoDup (@MakePedigree.path T <$>
           all_occurrences strip sire_tag dam_tag pk by_pk max_depth).
Proof.
  intros Hpar. pose proof (Hpar pk) as Hpk.
  unfold all_occurrences. unfold parents in Hpk.
  destruct (by_pk !! pk) as [data|]; [|apply NoDup_nil_2].
  destruct (decide (data = ∅)); [apply NoDup_nil_2|].
  rewrite fmap_app.
  destruct (decide (field strip data "Sire" = "")) as [|Hs];
    [apply NoDup_app; split_and!;
       [apply NoDup_nil_2 | intros x []%elem_of_nil |];
     destruct (decide (field strip data "Dam" = ""));
       [apply NoDup_nil_2 | now apply trace_paths_NoDup]|].
  destruct (decide (field strip data "Dam" = "")) as [|Hd].
  { rewrite app_nil_r. now apply trace_paths_NoDup. }
  apply NoDup_app. split_and!; try now apply trace_paths_NoDup.
  intros x (o1 & -> & Ho1)%list_elem_of_fmap (o2 & E & Ho2)%list_elem_of_fmap.
  apply trace_prefix in Ho1 as (s1 & E1). apply trace_prefix in Ho2 as (s2 & E2).
  rewrite E1, E2 in E. cbn [app] in E, Hpk. injection E as E _.
  apply NoDup_cons in Hpk as [Hne _]. apply Hne. rewrite E.
  apply list_elem_of_here.
Qed.

Lemma hits_paths_NoDup a (tr : list (Occurrence T)) :
  NoDup (@MakePedigree.path T <$> tr) -> NoDup (@MakePedigree.path T <$> hits a tr).
Proof.
  intros Hnd. eapply sublist_NoDup; [exact Hnd|].
  apply fmap_sublist. apply sublist_filter.
Qed.

Lemma walk_parents_trace (sire_tag dam_tag : T) pk by_pk max_depth :
  walk_parents strip sire_tag dam_tag pk by_pk max_depth =
  Ok (record_all (all_occurrences strip sire_tag dam_tag pk by_pk max_depth) []).
Proof.
  unfold walk_parents, all_occurrences.
  destruct (by_pk !! pk) as [data|]; [|reflexivity].
  destruct (decide (data = ∅)); [reflexivity|].
  pose proof (fun n g sd d => walk_trace by_pk max_depth n g [] sd d) as W.
  change (list_to_set [] : gset string) with (∅ : gset string) in W.
  destruct (decide (field strip data "Sire" = "")),
           (decide (field strip data "Dam" = ""));
    cbn [mbind outcome_bind app]; rewrite ?W; cbn [mbind outcome_bind fst];
    rewrite ?W; cbn [mbind outcome_bind fst];
    rewrite ?app_nil_r, ?record_all_app; reflexivity.
Qed.

(** Every occurrence of a run is an ancestor path of the subject, filed
    at its own length, and every ancestor path occurs. *)
Lemma all_occurrences_spec (sire_tag dam_tag : T) pk by_pk max_depth o :
  o ∈ all_occurrences strip sire_tag dam_tag pk by_pk max_depth ->
  ancestor_path strip by_pk pk max_depth (path o) /\
  gen o = Z.of_nat (length (path o)) /\
  (side o = sire_tag \/ side o = dam_tag).
Proof.
  unfold all_occurrences, ancestor_path, top_parents, parents.
  destruct (by_pk !! pk) as [data|] eqn:Hd; [|intros []%elem_of_nil].
  destruct (decide (data = ∅)); [intros []%elem_of_nil|].
  intros [Hin|Hin]%elem_of_app.
  - destruct (decide (field strip data "Sire" = "")); [now apply elem_of_nil in Hin|].
    apply trace_spec in Hin as (sfx & Ep & Hch & Hnd & Eg & Hle & Es);
      [|apply NoDup_nil_2].
    cbn [app] in Ep, Hnd. rewrite Ep. cbn [length].
    split_and!; [|lia|auto].
    eexists _, sfx. split_and!; [reflexivity| |exact Hch|exact Hnd|cbn [length]; lia].
    apply elem_of_app. left. apply list_elem_of_here.
  - destruct (decide (field strip data "Dam" = "")); [now apply elem_of_nil in Hin|].
    apply trace_spec in Hin as (sfx & Ep & Hch & Hnd & Eg & Hle & Es);
      [|apply NoDup_nil_2].
    cbn [app] in Ep, Hnd. rewrite Ep. cbn [length].
    split_and!; [|lia|auto].
    eexists _, sfx. split_and!; [reflexivity| |exact Hch|exact Hnd|cbn [length]; lia].
    apply elem_of_app. right. apply list_elem_of_here.
Qed.

Lemma all_occurrences_complete (sire_tag dam_tag : T) pk by_pk max_depth p :
  ancestor_path strip by_pk pk max_depth p ->
  exists o, o ∈ all_occurrences strip sire_tag dam_tag pk by_pk max_depth /\
            path o = p /\ gen o = Z.of_nat (length p).
Proof.
  unfold all_occurrences, ancestor_path, top_parents, parents.
  intros (first & sfx & -> & Hfirst & Hch & Hnd & Hle).
  destruct (by_pk !! pk) as [data|] eqn:Hd; [|now apply elem_of_nil in Hfirst].
  destruct (decide (data = ∅)); [now apply elem_of_nil in Hfirst|].
  cbn [length] in *.
  apply elem_of_app in Hfirst as [Hf|Hf].
  - destruct (decide (field strip data "Sire" = "")); [now apply elem_of_nil in Hf|].
    apply list_elem_of_singleton in Hf as ->.
    exists (mkOcc (1 + Z.of_nat (length sfx)) (field strip data "Sire" :: sfx) sire_tag).
    cbn. split_and!; [|reflexivity|lia].
    apply elem_of_app. left. apply trace_spec; [apply NoDup_nil_2|].
    exists sfx. cbn. split_and!; auto; lia.
  - destruct (decide (field strip data "Dam" = "")); [now apply elem_of_nil in Hf|].
    apply list_elem_of_singleton in Hf as ->.
    exists (mkOcc (1 + Z.of_nat (length sfx)) (field strip data "Dam" :: sfx) dam_tag).
    cbn. split_and!; [|reflexivity|lia].
    apply elem_of_app. right. apply trace_spec; [apply NoDup_nil_2|].
    exists sfx. cbn. split_and!; auto; lia.
Qed.

End WalkFacts.

(** ** Aggregation *)

Section Aggregation.
Context {sum_mode : SumMode}.
Context {T : Type}.
Implicit Types (occs : dict (list (Occurrence T))).

(** The loop of [aggregate], started from any dict that holds none of the
    keys still to come. *)
Lemma dict_get_aggregate_from occs (acc : dict InbredEntry) a :
  NoDup (dict_keys occs) ->
  (forall k, k ∈ dict_keys occs -> dict_get acc k = None) ->
  dict_get
    (foldl (fun inbred '(ancestor, l) =>
              if bool_decide (length l < 2)%nat then inbred
              else dict_set inbred ancestor (entry_of l)) acc occs) a =
  match dict_get occs a with
  | Some l => if bool_decide (length l < 2)%nat then None
              else Some (entry_of l)
  | None => dict_get acc a
  end.
Proof.
  revert acc. induction occs as [|[k l] occs IH]; intros acc Hnd Hfresh;
    [reflexivity|].
  unfold dict_keys in Hnd. rewrite fmap_cons in Hnd. cbn [fst] in Hnd.
  apply NoDup_cons in Hnd as [Hk Hnd].
  cbn [foldl dict_get]. rewrite IH; [|exact Hnd|].
  - destruct (decide (k = a)) as [->|Hne].
    + rewrite (proj2 (dict_get_None occs a) Hk).
      destruct (bool_decide (length l < 2)%nat).
      * apply Hfresh. apply list_elem_of_here.
      * rewrite dict_get_set, decide_True by reflexivity. reflexivity.
    + destruct (dict_get occs a); [reflexivity|].
      destruct (bool_decide (length l < 2)%nat); [reflexivity|].
      rewrite dict_get_set, decide_False by exact Hne. reflexivity.
  - intros k' Hk'.
    assert (k <> k') by (intros ->; contradiction).
    assert (dict_get acc k' = None)
      by (apply Hfresh; apply list_elem_of_further, Hk').
    destruct (bool_decide (length l < 2)%nat); [assumption|].
    rewrite dict_get_set, decide_False by assumption. assumption.
Qed.

Lemma dict_get_aggregate occs a :
  NoDup (dict_keys occs) ->
  dict_get (aggregate occs) a =
  match dict_get occs a with
  | Some l => if bool_decide (length l < 2)%nat then None
              else Some (entry_of l)
  | None => None
  end.
Proof.
  intros Hnd. unfold aggregate.
  rewrite dict_get_aggregate_from; [|exact Hnd|reflexivity].
  destruct (dict_get occs a); reflexivity.
Qed.

Lemma aggregate_Some occs a e :
  NoDup (dict_keys occs) ->
  dict_get (aggregate occs) a = Some e <->
  exists l, dict_get occs a = Some l /\ (2 <= length l)%nat /\ e = entry_of l.
Proof.
  intros Hnd. rewrite (dict_get_aggregate occs a Hnd).
  destruct (dict_get occs a) as [l|].
  - destruct (bool_decide (length l < 2)%nat) eqn:Hlen.
    + apply bool_decide_eq_true in Hlen. split; [discriminate|].
      intros (l' & [= <-] & ? & _). lia.
    + apply bool_decide_eq_false in Hlen. split.
      * intros [= <-]. exists l. split_and!; auto. lia.
      * intros (l' & [= <-] & _ & ->). reflexivity.
  - split; [discriminate|]. intros (? & [=] & _).
Qed.

End Aggregation.

Section ImageAggregation.
Context {sum_mode : SumMode}.

Lemma aggregate_image_inbred occs :
  (aggregate_image occs).1 = aggregate occs.
Proof.
  unfold aggregate_image, aggregate.
  generalize (@nil (string * InbredEntry)) as i.
  generalize (@nil (string * string)) as t.
  induction occs as [|[k l] occs IH]; intros t i; [reflexivity|].
  cbn [foldl]. destruct (bool_decide (length l < 2)%nat); apply IH.
Qed.

Lemma dict_get_aggregate_types occs a :
  NoDup (dict_keys occs) ->
  dict_get (aggregate_image occs).2 a =
  match dict_get occs a with
  | Some l => if bool_decide (length l < 2)%nat then None
              else Some (inbred_type (list_to_set (side <$> l)))
  | None => None
  end.
Proof.
  unfold aggregate_image.
  generalize (@nil (string * InbredEntry)) as i.
  assert (G : forall (t : dict string) i,
    NoDup (dict_keys occs) ->
    (forall k, k ∈ dict_keys occs -> dict_get t k = None) ->
    dict_get
      (foldl (fun '(inbred, inbred_types) '(ancestor, l) =>
                if bool_decide (length l < 2)%nat then (inbred, inbred_types)
                else
                  let sides : gset string := list_to_set (side <$> l) in
                  (dict_set inbred ancestor (entry_of l),
                   dict_set inbred_types ancestor (inbred_type sides)))
             (i, t) occs).2 a =
    match dict_get occs a with
    | Some l => if bool_decide (length l < 2)%nat then None
                else Some (inbred_type (list_to_set (side <$> l)))
    | None => dict_get t a
    end).
  { induction occs as [|[k l] occs IH]; intros t i Hnd Hfresh; [reflexivity|].
    unfold dict_keys in Hnd. rewrite fmap_cons in Hnd. cbn [fst] in Hnd.
    apply NoDup_cons in Hnd as [Hk Hnd].
    cbn [foldl dict_get].
    assert (Hf' : forall k', k' ∈ dict_keys occs -> k <> k' /\ dict_get t k' = None).
    { intros k' Hk'. split; [intros ->; contradiction|].
      apply Hfresh, list_elem_of_further, Hk'. }
    destruct (bool_decide (length l < 2)%nat) eqn:Hsmall.
    - rewrite IH; [|exact Hnd|intros k' Hk'; apply Hf', Hk'].
      destruct (decide (k = a)) as [->|Hne].
      + rewrite (proj2 (dict_get_None occs a) Hk), Hsmall.
        apply Hfresh, list_elem_of_here.
      + destruct (dict_get occs a); reflexivity.
    - cbv zeta. rewrite IH; [|exact Hnd|].
      + destruct (decide (k = a)) as [->|Hne].
        * rewrite (proj2 (dict_get_None occs a) Hk), Hsmall.
          rewrite dict_get_set, decide_True by reflexivity. reflexivity.
        * destruct (dict_get occs a); [reflexivity|].
          rewrite dict_get_set, decide_False by exact Hne. reflexivity.
      + intros k' Hk'. destruct (Hf' k' Hk').
        rewrite dict_get_set, decide_False by assumption. assumption. }
  intros i Hnd. rewrite G; [|exact Hnd|reflexivity].
  destruct (dict_get occs a); reflexivity.
Qed.

End ImageAggregation.

(** ** The two scripts file the same occurrences *)

Section Retag.
Context {sum_mode : SumMode}.
Variable strip : string -> string.
Context {T : Type}.

Lemma trace_retag by_pk M node gen path (sd : T) :
  trace strip by_pk M node gen path tt =
  retag <$> trace strip by_pk M node gen path sd.
Proof.
  remember (Z.to_nat (M - gen)) as n eqn:En.
  revert node gen path En.
  induction n as [n IH] using lt_wf_ind. intros node gen path En.
  rewrite (trace_equation_1 strip by_pk M node gen path tt).
  rewrite (trace_equation_1 strip by_pk M node gen path sd).
  destruct (bool_decide (M < gen)); [reflexivity|].
  destruct (bool_decide (node ∈ path)); [reflexivity|].
  cbv zeta. rewrite fmap_cons. f_equal.
  destruct (Z_lt_dec gen M) as [Hlt|]; [|reflexivity].
  induction (parents strip by_pk node) as [|p ps IHps]; [reflexivity|].
  cbn [mbind list_bind]. rewrite fmap_app, <- IHps. f_equal.
  apply (IH (Z.to_nat (M - (gen + 1)))); [lia|reflexivity].
Qed.

Lemma all_occurrences_retag (sire_tag dam_tag : T) pk by_pk M :
  all_occurrences strip tt tt pk by_pk M =
  retag <$> all_occurrences strip sire_tag dam_tag pk by_pk M.
Proof.
  unfold all_occurrences.
  destruct (by_pk !! pk) as [data|]; [|reflexivity].
  destruct (decide (data = ∅)); [reflexivity|].
  rewrite fmap_app.
  destruct (decide (field strip data "Sire" = "")),
           (decide (field strip data "Dam" = ""));
    try rewrite (trace_retag by_pk M (field strip data "Sire") 1 [] sire_tag);
    try rewrite (trace_retag by_pk M (field strip data "Dam") 1 [] dam_tag);
    reflexivity.
Qed.

Lemma setdefault_append_retag (d : dict (list (Occurrence T))) k o :
  setdefault_append (dict_retag d) k (retag o) =
  dict_retag (setdefault_append d k o).
Proof.
  unfold dict_retag. induction d as [|[k' l] d IH]; [reflexivity|].
  cbn [setdefault_append fmap list_fmap fst snd].
  destruct (decide (k' = k)).
  - cbn [fmap list_fmap fst snd].
    now rewrite (fmap_app retag l [o]).
  - cbn [fmap list_fmap fst snd]. f_equal. apply IH.
Qed.

Lemma record_all_retag (tr : list (Occurrence T)) d :
  record_all (retag <$> tr) (dict_retag d) = dict_retag (record_all tr d).
Proof.
  revert d. induction tr as [|o tr IH]; intros d; [reflexivity|].
  rewrite fmap_cons.
  change (record_all (retag o :: (retag <$> tr)) (dict_retag d))
    with (record_all (retag <$> tr)
            (setdefault_append (dict_retag d) (occ_key (retag o)) (retag o))).
  change (occ_key (retag o)) with (occ_key o).
  rewrite setdefault_append_retag. apply IH.
Qed.

Lemma entry_of_retag (l : list (Occurrence T)) :
  entry_of (retag <$> l) = entry_of l.
Proof.
  unfold entry_of. rewrite <- !list_fmap_compose. reflexivity.
Qed.

Lemma aggregate_retag (d : dict (list (Occurrence T))) :
  aggregate (dict_retag d) = aggregate d.
Proof.
  unfold aggregate, dict_retag.
  generalize (@nil (string * InbredEntry)) as acc.
  induction d as [|[k l] d IH]; intros acc; [reflexivity|].
  cbn [foldl fmap list_fmap fst snd].
  rewrite length_fmap, entry_of_retag. apply IH.
Qed.

End Retag.

(** ** Subsumption *)

Lemma list_index_elem x l :
  x ∈ l ->
  exists i, list_index x l = Ok i /\ l !! i = Some x.
Proof.
  induction l as [|y l IH]; [intros []%elem_of_nil|].
  intros Hin. cbn [list_index].
  destruct (decide (y = x)) as [->|Hne]; [exists 0%nat; auto|].
  apply elem_of_cons in Hin as [?|Hin]; [congruence|].
  destruct (IH Hin) as (i & -> & Hi). exists (S i). auto.
Qed.

Lemma at_or_before_index b a p i j :
  NoDup p -> p !! i = Some b -> p !! j = Some a ->
  at_or_before b a p <-> (i <= j)%nat.
Proof.
  intros Hnd Hi Hj. split.
  - intros (i' & j' & Hi' & Hj' & Hle).
    rewrite (NoDup_lookup p i i' b Hnd Hi Hi').
    rewrite (NoDup_lookup p j j' a Hnd Hj Hj'). exact Hle.
  - intros Hle. exists i, j. auto.
Qed.

Lemma all_contained_spec a o ps :
  usable_paths a ps ->
  exists b, all_contained a o ps = Ok b /\
            (b = true <-> Forall (at_or_before o a) ps).
Proof.
  induction ps as [|p ps IH]; intros Hu.
  - exists true. split; [reflexivity|]. split; auto.
  - cbn [all_contained].
    destruct (Hu p (list_elem_of_here _ _)) as [Ha Hnd].
    destruct (bool_decide (o ∉ p)) eqn:Ho.
    + apply bool_decide_eq_true in Ho. exists false. split; [reflexivity|].
      split; [discriminate|].
      intros [(i & _ & Hi & _) _]%Forall_cons. exfalso. apply Ho.
      eapply list_elem_of_lookup_2, Hi.
    + apply bool_decide_eq_false in Ho. apply dec_stable in Ho.
      destruct (list_index_elem o p Ho) as (io & -> & Hio).
      destruct (list_index_elem a p Ha) as (ia & -> & Hia).
      cbn [mbind outcome_bind].
      pose proof (at_or_before_index o a p io ia Hnd Hio Hia) as Hab.
      destruct (bool_decide (ia < io)%nat) eqn:Hlt.
      * apply bool_decide_eq_true in Hlt. exists false.
        split; [reflexivity|]. split; [discriminate|].
        intros [H _]%Forall_cons. apply Hab in H. lia.
      * apply bool_decide_eq_false in Hlt.
        destruct IH as (b & -> & Hb).
        { intros q Hq. apply Hu, list_elem_of_further, Hq. }
        exists b. split; [reflexivity|]. rewrite Hb, Forall_cons, Hab.
        split; [intros ?; split; [lia|assumption] | tauto].
Qed.

Lemma find_subsumer_spec inbred a e others :
  dict_get inbred a = Some e -> usable_paths a (paths e) ->
  exists b, find_subsumer inbred a others = Ok b /\
            (b = true <-> exists o, o ∈ others /\ subsumes inbred o a).
Proof.
  intros He Hu. induction others as [|o others (b & Hb & IH)].
  - exists false. split; [reflexivity|]. split; [discriminate|].
    intros (o & []%elem_of_nil & _).
  - cbn [find_subsumer]. destruct (decide (a = o)) as [<-|Hne].
    + exists b. split; [exact Hb|]. rewrite IH. split.
      * intros (o & Ho & Hs). exists o. split; [right; exact Ho|exact Hs].
      * intros (o & [->|Ho]%elem_of_cons & Hs); [destruct Hs; congruence|eauto].
    + unfold dict_item. rewrite He. cbn [mbind outcome_bind].
      destruct (all_contained_spec a o (paths e) Hu) as (c & -> & Hc).
      cbn [mbind outcome_bind]. destruct c.
      * exists true. split; [reflexivity|]. split; [|reflexivity].
        intros _. exists o. split; [left|].
        split; [congruence|]. exists e. split; [exact He|]. now apply Hc.
      * exists b. split; [exact Hb|]. rewrite IH. split.
        -- intros (o' & Ho & Hs). exists o'. split; [right; exact Ho|exact Hs].
        -- intros (o' & [->|Ho]%elem_of_cons & Hs); [|eauto].
           destruct Hs as (_ & e' & He' & Hall).
           assert (e' = e) as -> by congruence.
           apply Hc in Hall. discriminate.
Qed.

Lemma subsume_loop_spec inbred candidates todo acc :
  (forall a, a ∈ todo ->
     exists e, dict_get inbred a = Some e /\ usable_paths a (paths e)) ->
  exists sub, subsume_loop inbred candidates todo acc = Ok sub /\
    forall x, x ∈ sub <->
      x ∈ acc \/
      (x ∈ todo /\ exists o, o ∈ candidates /\ subsumes inbred o x).
Proof.
  revert acc. induction todo as [|a todo IH]; intros acc Hg.
  - exists acc. split; [reflexivity|]. intros x. split; [auto|].
    intros [?|[[]%elem_of_nil _]]. assumption.
  - cbn [subsume_loop].
    destruct (Hg a (list_elem_of_here _ _)) as (e & He & Hu).
    destruct (find_subsumer_spec inbred a e candidates He Hu) as (b & -> & Hb).
    cbn [mbind outcome_bind].
    destruct (IH (if b then {[a]} ∪ acc else acc)) as (sub & -> & Hsub).
    { intros a' Ha'. apply Hg, list_elem_of_further, Ha'. }
    exists sub. split; [reflexivity|]. intros x. rewrite Hsub.
    rewrite elem_of_cons. destruct b.
    + rewrite elem_of_union, elem_of_singleton.
      assert (exists o, o ∈ candidates /\ subsumes inbred o a) by now apply Hb.
      split; [|tauto].
      intros [[->|?]|[? ?]]; auto.
    + assert (~ exists o, o ∈ candidates /\ subsumes inbred o a)
        by (intros H; apply Hb in H; discriminate).
      split; [tauto|]. intros [?|[[->|?] ?]]; auto. contradiction.
Qed.

(** The subsumed set: the keys whose recurrence another key explains. *)
Lemma compute_subsumed_spec inbred :
  usable inbred ->
  exists sub, compute_subsumed inbred = Ok sub /\
    forall x, x ∈ sub <->
      exists o, o ∈ dict_keys inbred /\ subsumes inbred o x.
Proof.
  intros Hu. unfold compute_subsumed.
  destruct (subsume_loop_spec inbred (dict_keys inbred) (dict_keys inbred) ∅)
    as (sub & -> & Hsub).
  { intros a [e He]%dict_keys_is_Some. exists e. split; [exact He|].
    apply (Hu a e He). }
  exists sub. split; [reflexivity|]. intros x. rewrite Hsub.
  split.
  - intros [[]%not_elem_of_empty | [_ H]]. exact H.
  - intros (o & Ho & Hs). right. split; [|eauto].
    destruct Hs as (_ & e & He & _). eapply dict_get_Some_keys, He.
Qed.

(** ** Depth resolver *)

Section Depth.
Variable strip : string -> string.

Lemma depth_spec_unfold by_pk V k :
  depth_spec strip by_pk V k =
  if decide (k ∈ V) then 0
  else match by_pk !! k with
       | None => 0
       | Some data =>
           Z.max 0
             (Z.max
                (if decide (field strip data "Sire" = "") then 0
                 else 1 + depth_spec strip by_pk ({[k]} ∪ V)
                            (field strip data "Sire"))
                (if decide (field strip data "Dam" = "") then 0
                 else 1 + depth_spec strip by_pk ({[k]} ∪ V)
                            (field strip data "Dam")))
       end.
Proof.
  funelim (depth_spec strip by_pk V k); rewrite Heq; try reflexivity.
  all: match goal with H : _ !! _ = _ |- _ => rewrite H end; reflexivity.
Qed.

Lemma depth_spec_nonneg by_pk V k : 0 <= depth_spec strip by_pk V k.
Proof.
  rewrite depth_spec_unfold. destruct (decide (k ∈ V)); [lia|].
  destruct (by_pk !! k); lia.
Qed.

Lemma set_remove_fresh (x : string) (V : gset string) :
  x ∉ V -> set_remove x ({[x]} ∪ V) = Ok V.
Proof.
  intros Hx. unfold set_remove.
  rewrite decide_True by set_solver. f_equal. set_solver.
Qed.

Lemma memo_nonneg_insert memo k v :
  memo_nonneg memo -> 0 <= v -> memo_nonneg (<[k := v]> memo).
Proof.
  intros Hm Hv k' v'. rewrite lookup_insert.
  destruct (decide (k = k')); [intros [= <-]; exact Hv | apply Hm].
Qed.

Lemma py_max_nonneg depths : 0 <= py_max (0 :: depths).
Proof.
  unfold py_max.
  assert (G : forall acc, acc <= foldl Z.max acc depths).
  { induction depths as [|d ds IH]; intros acc; simpl; [lia|].
    specialize (IH (Z.max acc d)). lia. }
  apply G.
Qed.

(** With more fuel than there are keys of [by_pk] off the visiting set,
    [depth_for] returns, raises nothing, and hands the visiting set back
    as it got it. *)
Lemma depth_for_returns by_pk fuel node memo V :
  (size (dom by_pk ∖ V) < fuel)%nat -> memo_nonneg memo ->
  exists d memo',
    depth_for strip fuel by_pk node (memo, V) = Ok (d, (memo', V)) /\
    0 <= d /\ memo_nonneg memo'.
Proof.
  revert node memo V. induction fuel as [|fuel IH]; intros node memo V Hf Hm;
    [lia|].
  cbn [depth_for].
  destruct (memo !! node) as [d|] eqn:Hmemo.
  { exists d, memo. split_and!; [reflexivity|eapply Hm, Hmemo|exact Hm]. }
  destruct (decide (node ∈ V)) as [Hin|Hfresh].
  { exists 0, memo. split_and!; [reflexivity|lia|exact Hm]. }
  destruct (by_pk !! node) as [data|] eqn:Hdata.
  - assert (Hf' : (size (dom by_pk ∖ ({[node]} ∪ V)) < fuel)%nat).
    { apply elem_of_dom_2 in Hdata.
      assert (dom by_pk ∖ ({[node]} ∪ V) ⊂ dom by_pk ∖ V) as Hsub
        by set_solver.
      apply subset_size in Hsub. lia. }
    assert (Hstep : forall p m, memo_nonneg m ->
      exists d m', depth_for strip fuel by_pk p (m, {[node]} ∪ V) =
                   Ok (d, (m', {[node]} ∪ V)) /\ memo_nonneg m').
    { intros p m Hmm. destruct (IH p m _ Hf' Hmm) as (d & m' & E & _ & Hm').
      eauto. }
    destruct (decide (field strip data "Sire" = ""));
      [|destruct (Hstep (field strip data "Sire") memo Hm)
          as (d1 & memo1 & -> & Hm1)];
      cbn [mbind outcome_bind];
      (destruct (decide (field strip data "Dam" = ""));
       [|match goal with
         | Hn : memo_nonneg ?m
           |- context [depth_for _ _ _ (field strip data "Dam") (?m, _)] =>
             destruct (Hstep (field strip data "Dam") m Hn)
               as (d2 & memo2 & -> & Hm2)
         end]);
      cbn [mbind outcome_bind];
      rewrite set_remove_fresh by exact Hfresh; cbn [mbind outcome_bind app];
      (eexists _, _; split_and!; [reflexivity|apply py_max_nonneg|]);
      apply memo_nonneg_insert; auto using py_max_nonneg.
  - rewrite set_remove_fresh by exact Hfresh. cbn [mbind outcome_bind].
    eexists _, _. split_and!; [reflexivity|lia|].
    apply memo_nonneg_insert; [exact Hm|lia].
Qed.

Lemma parents_sire by_pk k data :
  by_pk !! k = Some data -> field strip data "Sire" <> "" ->
  field strip data "Sire" ∈ parents strip by_pk k.
Proof.
  intros Hd Hs. unfold parents. rewrite Hd, decide_False by exact Hs.
  apply list_elem_of_here.
Qed.

Lemma parents_dam by_pk k data :
  by_pk !! k = Some data -> field strip data "Dam" <> "" ->
  field strip data "Dam" ∈ parents strip by_pk k.
Proof.
  intros Hd Hs. unfold parents. rewrite Hd, (decide_False _ _ Hs).
  apply elem_of_app. right. apply list_elem_of_here.
Qed.

(** Whenever [depth_for] returns, the visiting set is as it was. *)
Lemma depth_for_visiting by_pk fuel node memo V d memo' V' :
  depth_for strip fuel by_pk node (memo, V) = Ok (d, (memo', V')) -> V' = V.
Proof.
  revert node memo V d memo' V'.
  induction fuel as [|fuel IH]; intros node memo V d memo' V' Hrun;
    [discriminate|].
  cbn [depth_for] in Hrun.
  destruct (memo !! node); [now injection Hrun as <- <- <-|].
  destruct (decide (node ∈ V)) as [|Hfresh]; [now injection Hrun as <- <- <-|].
  destruct (by_pk !! node) as [data|].
  - destruct (decide (field strip data "Sire" = ""));
      [|destruct (depth_for strip fuel by_pk (field strip data "Sire") _)
          as [[d1 [m1 V1]]| |] eqn:E1; try discriminate;
        apply IH in E1 as ->];
      cbn [mbind outcome_bind] in Hrun;
      (destruct (decide (field strip data "Dam" = ""));
       [|destruct (depth_for strip fuel by_pk (field strip data "Dam") _)
           as [[d2 [m2 V2]]| |] eqn:E2; try discriminate;
         apply IH in E2 as ->]);
      cbn [mbind outcome_bind] in Hrun;
      rewrite set_remove_fresh in Hrun by exact Hfresh;
      cbn [mbind outcome_bind] in Hrun; injection Hrun as <- <- <-;
      reflexivity.
  - rewrite set_remove_fresh in Hrun by exact Hfresh.
    cbn [mbind outcome_bind] in Hrun. injection Hrun as <- <- <-.
    reflexivity.
Qed.

Section Acyclic.
Variable by_pk : gmap string row.
Variable rank : string -> nat.
Hypothesis rank_parents :
  forall k p, p ∈ parents strip by_pk k -> (rank p < rank k)%nat.

(** Without cycles the visiting path never cuts anything off: the depth
    below [k] is the same from every path that holds no ancestor of [k]. *)
Lemma depth_spec_off_path V k :
  (forall v, v ∈ V -> (rank k < rank v)%nat) ->
  depth_spec strip by_pk V k = depth_spec strip by_pk ∅ k.
Proof.
  remember (rank k) as n eqn:En. revert k V En.
  induction n as [n IH] using lt_wf_ind. intros k V -> HV.
  rewrite (depth_spec_unfold by_pk V k), (depth_spec_unfold by_pk ∅ k).
  rewrite decide_False by (intros Hk; specialize (HV k Hk); lia).
  rewrite decide_False by apply not_elem_of_empty.
  destruct (by_pk !! k) as [data|] eqn:Hdata; [|reflexivity].
  assert (Hp : forall p, p ∈ parents strip by_pk k ->
            depth_spec strip by_pk ({[k]} ∪ V) p =
            depth_spec strip by_pk ({[k]} ∪ ∅) p).
  { intros p Hp. pose proof (rank_parents k p Hp) as Hlt.
    rewrite (IH (rank p) Hlt p ({[k]} ∪ V) eq_refl).
    - symmetry. apply (IH (rank p) Hlt p _ eq_refl).
      intros v [->%elem_of_singleton|[]%not_elem_of_empty]%elem_of_union.
      exact Hlt.
    - intros v [->%elem_of_singleton|Hv]%elem_of_union; [exact Hlt|].
      specialize (HV v Hv). lia. }
  destruct (decide (field strip data "Sire" = "")) as [|Hs];
    [|rewrite (Hp _ (parents_sire by_pk k data Hdata Hs))];
    (destruct (decide (field strip data "Dam" = "")) as [|Hd];
     [|rewrite (Hp _ (parents_dam by_pk k data Hdata Hd))]); reflexivity.
Qed.

#[local] Abbreviation memo_exact := (MakePedigree.memo_exact strip by_pk).

Lemma memo_exact_insert memo k :
  memo_exact memo ->
  memo_exact (<[k := depth_spec strip by_pk ∅ k]> memo).
Proof.
  intros Hm k' v'. rewrite lookup_insert.
  destruct (decide (k = k')) as [->|]; [intros [= <-]; reflexivity | apply Hm].
Qed.

(** Without cycles every value [depth_for] returns or memoizes is the
    depth of the specification. *)
Lemma depth_for_acyclic fuel node memo V d memo' V' :
  depth_for strip fuel by_pk node (memo, V) = Ok (d, (memo', V')) ->
  memo_exact memo ->
  (forall v, v ∈ V -> (rank node < rank v)%nat) ->
  d = depth_spec strip by_pk ∅ node /\ memo_exact memo'.
Proof.
  revert node memo V d memo' V'.
  induction fuel as [|fuel IH]; intros node memo V d memo' V' Hrun Hm HV;
    [discriminate|].
  cbn [depth_for] in Hrun.
  destruct (memo !! node) as [d0|] eqn:Hmemo.
  { injection Hrun as <- <- <-. split; [eapply Hm, Hmemo|exact Hm]. }
  destruct (decide (node ∈ V)) as [Hin|Hfresh].
  { specialize (HV node Hin). lia. }
  pose proof (depth_spec_unfold by_pk ∅ node) as Hspec.
  rewrite decide_False in Hspec by apply not_elem_of_empty.
  assert (Hdone : forall m x, memo_exact m ->
            x = depth_spec strip by_pk ∅ node ->
            x = depth_spec strip by_pk ∅ node /\ memo_exact (<[node := x]> m)).
  { intros m x Hmm ->. split; [reflexivity|]. now apply memo_exact_insert. }
  destruct (by_pk !! node) as [data|] eqn:Hdata.
  - assert (Hcall : forall p m d1 m1 V1,
      p ∈ parents strip by_pk node -> memo_exact m ->
      depth_for strip fuel by_pk p (m, {[node]} ∪ V) = Ok (d1, (m1, V1)) ->
      d1 = depth_spec strip by_pk ({[node]} ∪ ∅) p /\ memo_exact m1 /\
      V1 = {[node]} ∪ V).
    { intros p m d1 m1 V1 Hp Hmm Hr.
      pose proof (rank_parents node p Hp) as Hlt.
      pose proof (depth_for_visiting _ _ _ _ _ _ _ _ Hr) as ->.
      destruct (IH p m _ d1 m1 _ Hr Hmm) as [-> Hm1].
      - intros v [->%elem_of_singleton|Hv]%elem_of_union; [exact Hlt|].
        specialize (HV v Hv). lia.
      - split_and!; [|exact Hm1|reflexivity]. symmetry.
        apply depth_spec_off_path.
        intros v [->%elem_of_singleton|[]%not_elem_of_empty]%elem_of_union.
        exact Hlt. }
    pose proof (depth_spec_nonneg by_pk ({[node]} ∪ ∅)) as Hnn.
    destruct (decide (field strip data "Sire" = "")) as [|Hs];
      [|destruct (depth_for strip fuel by_pk (field strip data "Sire") _)
          as [[d1 [m1 V1]]| |] eqn:E1; try discriminate;
        apply (Hcall _ _ _ _ _ (parents_sire by_pk node data Hdata Hs) Hm)
          in E1 as (-> & Hm1 & ->)];
      cbn [mbind outcome_bind] in Hrun;
      (destruct (decide (field strip data "Dam" = "")) as [|Hd];
       [|destruct (depth_for strip fuel by_pk (field strip data "Dam") _)
           as [[d2 [m2 V2]]| |] eqn:E2; try discriminate;
         apply (Hcall _ _ _ _ _ (parents_dam by_pk node data Hdata Hd)) in E2
           as (-> & Hm2 & ->); [|assumption]]);
      cbn [mbind outcome_bind] in Hrun;
      (destruct (set_remove node _) as [V3| |]; try discriminate);
      cbn [mbind outcome_bind] in Hrun; injection Hrun as <- <- <-;
      (apply Hdone; [assumption|]); rewrite Hspec; unfold py_max; cbn [foldl app];
      repeat match goal with
             | |- context [depth_spec strip by_pk ({[node]} ∪ ∅) ?p] =>
                 let H := fresh in
                 pose proof (Hnn p) as H;
                 generalize dependent (depth_spec strip by_pk ({[node]} ∪ ∅) p);
                 intros
             end; lia.
  - destruct (set_remove node _) as [V2| |]; try discriminate.
    cbn [mbind outcome_bind] in Hrun. injection Hrun as <- <- <-.
    apply Hdone; [exact Hm|]. now rewrite Hspec.
Qed.

End Acyclic.

Lemma compute_max_depth_returns pk by_pk :
  exists d, compute_max_depth strip pk by_pk = Ok d /\ 0 <= d.
Proof.
  unfold compute_max_depth.
  destruct (depth_for_returns by_pk (S (size by_pk)) pk ∅ ∅)
    as (d & memo' & -> & Hd & _).
  - rewrite difference_empty_L, size_dom. lia.
  - intros k v. rewrite lookup_empty. discriminate.
  - exists d. split; [reflexivity|exact Hd].
Qed.

(** C7, as amended. [compute_max_depth] always returns a depth, which is
    not negative; an identifier without record has depth 0, and so has a
    record whose sire and dam are both absent.  In a record store without
    cyclic parentage the depth returned is the one of the specification:
    [max(0, 1 + depth(sire), 1 + depth(dam))], an absent parent
    contributing nothing.  (With cycles the memo can hold a depth that was
    cut off on another visiting path.) *)
Theorem compute_max_depth_spec pk by_pk :
  (exists d, compute_max_depth strip pk by_pk = Ok d /\ 0 <= d) /\
  (by_pk !! pk = None -> compute_max_depth strip pk by_pk = Ok 0) /\
  (forall data, by_pk !! pk = Some data ->
     field strip data "Sire" = "" -> field strip data "Dam" = "" ->
     compute_max_depth strip pk by_pk = Ok 0) /\
  (acyclic strip by_pk ->
     compute_max_depth strip pk by_pk = Ok (depth_spec strip by_pk ∅ pk)).
Proof.
  split_and!.
  - apply compute_max_depth_returns.
  - intros Hnone. unfold compute_max_depth. cbn [depth_for].
    rewrite lookup_empty, decide_False by apply not_elem_of_empty.
    rewrite Hnone, set_remove_fresh by apply not_elem_of_empty. reflexivity.
  - intros data Hdata Hs Hd. unfold compute_max_depth. cbn [depth_for].
    rewrite lookup_empty, decide_False by apply not_elem_of_empty.
    rewrite Hdata, (decide_True _ _ Hs). cbn [mbind outcome_bind].
    rewrite (decide_True _ _ Hd). cbn [mbind outcome_bind].
    rewrite set_remove_fresh by apply not_elem_of_empty. reflexivity.
  - intros (rank & Hrank).
    destruct (compute_max_depth_returns pk by_pk) as (d & Hrun & _).
    rewrite Hrun. unfold compute_max_depth in Hrun.
    destruct (depth_for strip (S (size by_pk)) by_pk pk (∅, ∅))
      as [[d' [memo' V']]| |] eqn:E; try discriminate.
    cbn [mbind outcome_bind] in Hrun. injection Hrun as ->.
    apply (depth_for_acyclic by_pk rank Hrank) in E as [-> _]; [reflexivity| |].
    + intros k v. rewrite lookup_empty. discriminate.
    + intros v []%not_elem_of_empty.
Qed.

End Depth.

Lemma store_2x2_acyclic : acyclic ascii_strip store_2x2.
Proof.
  exists (fun k => if decide (k = "S") then 3
                   else if decide (k = "F") then 2
                   else if decide (k = "M") then 2
                   else if decide (k = "G") then 1 else 0)%nat.
  intros k p. unfold parents.
  destruct (store_2x2 !! k) as [data|] eqn:Hk; [|intros []%elem_of_nil].
  assert (Hdom : k ∈ (list_to_set ["S"; "F"; "M"; "G"] : gset string)).
  { apply elem_of_dom_2 in Hk. revert Hk.
    assert (dom store_2x2 = list_to_set ["S"; "F"; "M"; "G"]) as ->
      by (vm_compute; reflexivity).
    auto. }
  rewrite elem_of_list_to_set in Hdom.
  repeat (apply elem_of_cons in Hdom as [->|Hdom]);
    [..|now apply elem_of_nil in Hdom];
    vm_compute in Hk; injection Hk as <-; vm_compute;
    intros Hp; repeat (apply elem_of_cons in Hp as [->|Hp]);
      try (now apply elem_of_nil in Hp); vm_compute; lia.
Qed.

Lemma compute_max_depth_spec_witness :
  acyclic ascii_strip store_2x2 /\
  compute_max_depth ascii_strip "S" store_2x2 =
    Ok (depth_spec ascii_strip store_2x2 ∅ "S").
Proof.
  split; [exact store_2x2_acyclic|].
  apply (compute_max_depth_spec ascii_strip "S" store_2x2).
  exact store_2x2_acyclic.
Defined.

(** In [store_memo] the depth of "X" is first computed on the path
    R, A, X, where its sire "A" is cut off, and memoized as 1; reached
    again on the path R, B it is not recomputed.  The specification gives
    [max(0, 1 + 2, 1 + 3) = 4] for "R", the code returns 3. *)
Lemma compute_max_depth_memo_cut :
  compute_max_depth ascii_strip "R" store_memo = Ok 3 /\
  depth_spec ascii_strip store_memo ∅ "R" = 4 /\
  depth_spec ascii_strip store_memo {["R"]} "A" = 2 /\
  depth_spec ascii_strip store_memo {["R"]} "B" = 3.
Proof. split_and!; vm_compute; reflexivity. Qed.

(** With cycles the depth returned depends on which parent is visited
    first: exchanging sire and dam of "R" gives 4. *)
Example compute_max_depth_order :
  compute_max_depth ascii_strip "R" store_memo = Ok 3 /\
  compute_max_depth ascii_strip "R" store_memo_swapped = Ok 4.
Proof. split; vm_compute; reflexivity. Qed.

(** ** One run of the analyzer *)

Section Run.
Context {sum_mode : SumMode}.
Variable strip : string -> string.
Context {T : Type}.

Lemma occ_key_last (o : Occurrence T) a :
  path o <> [] -> occ_key o = a <-> last (path o) = Some a.
Proof.
  unfold occ_key. intros Hne. destruct (last (path o)) as [x|] eqn:E.
  - simpl. split; congruence.
  - apply last_None in E. contradiction.
Qed.

Lemma ancestor_path_nonempty by_pk pk M p :
  ancestor_path strip by_pk pk M p -> p <> [].
Proof. intros (f & sfx & -> & _). discriminate. Qed.

Lemma ancestor_path_NoDup by_pk pk M p :
  ancestor_path strip by_pk pk M p -> NoDup p.
Proof. now intros (f & sfx & _ & _ & _ & Hnd & _). Qed.

(** What the walks leave in [occurrences], and what the aggregation loop
    makes of it. *)
Lemma collect_core_spec (sire_tag dam_tag : T) pk by_pk M :
  exists occs,
    walk_parents strip sire_tag dam_tag pk by_pk M = Ok occs /\
    NoDup (dict_keys occs) /\
    (forall a l o, dict_get occs a = Some l -> o ∈ l ->
       ancestor_path strip by_pk pk M (path o) /\
       last (path o) = Some a /\
       gen o = Z.of_nat (length (path o)) /\
       (side o = sire_tag \/ side o = dam_tag)) /\
    (forall p a, ancestor_path strip by_pk pk M p -> last p = Some a ->
       exists l o, dict_get occs a = Some l /\ o ∈ l /\ path o = p) /\
    (forall a, dict_get occs a =
       match hits a (all_occurrences strip sire_tag dam_tag pk by_pk M) with
       | [] => None
       | l => Some l
       end) /\
    (forall a, dict_get (aggregate occs) a =
       match dict_get occs a with
       | Some l => if bool_decide (length l < 2)%nat then None
                   else Some (entry_of l)
       | None => None
       end) /\
    usable (aggregate occs).
Proof.
  set (tr := all_occurrences strip sire_tag dam_tag pk by_pk M).
  exists (record_all tr []).
  assert (Hnd : NoDup (dict_keys (record_all tr ([] : dict (list (Occurrence T)))))).
  { apply record_all_NoDup. apply NoDup_nil_2. }
  assert (Hget : forall a l, dict_get (record_all tr []) a = Some l ->
                             l = hits a tr /\ l <> []).
  { intros a l. rewrite dict_get_record_all. cbn [dict_get default app].
    destruct (hits a tr) eqn:E; [discriminate|]. intros [= <-]. split; congruence. }
  assert (Hsound : forall a l o, dict_get (record_all tr []) a = Some l -> o ∈ l ->
       ancestor_path strip by_pk pk M (path o) /\
       last (path o) = Some a /\
       gen o = Z.of_nat (length (path o)) /\
       (side o = sire_tag \/ side o = dam_tag)).
  { intros a l o Hl Ho. apply Hget in Hl as [-> _].
    apply list_elem_of_filter in Ho as [Hk Ho].
    apply all_occurrences_spec in Ho as (Hp & Hg & Hs).
    split_and!; auto.
    apply occ_key_last; [|exact Hk]. eapply ancestor_path_nonempty, Hp. }
  split_and!.
  - apply walk_parents_trace.
  - exact Hnd.
  - exact Hsound.
  - intros p a Hp Hlast.
    destruct (all_occurrences_complete strip sire_tag dam_tag pk by_pk M p Hp)
      as (o & Ho & Ep & Eg).
    assert (Hk : occ_key o = a).
    { apply occ_key_last; rewrite Ep; [|exact Hlast].
      eapply ancestor_path_nonempty, Hp. }
    assert (Hin : o ∈ hits a tr) by (apply list_elem_of_filter; auto).
    exists (hits a tr), o. split_and!; auto.
    rewrite dict_get_record_all. cbn [dict_get default app].
    destruct (hits a tr); [now apply elem_of_nil in Hin | reflexivity].
  - intros a. rewrite dict_get_record_all. cbn [dict_get default app].
    reflexivity.
  - intros a. apply dict_get_aggregate, Hnd.
  - intros a e. rewrite (dict_get_aggregate _ _ Hnd).
    destruct (dict_get (record_all tr []) a) as [l|] eqn:Hl; [|discriminate].
    destruct (bool_decide (length l < 2)%nat); [discriminate|].
    intros [= <-] p. cbn [entry_of paths].
    intros (o & -> & Ho)%list_elem_of_fmap.
    destruct (Hsound a l o Hl Ho) as (Hp & Hlast & _).
    split; [|eapply ancestor_path_NoDup, Hp].
    apply last_Some in Hlast as (l' & ->).
    apply elem_of_app. right. apply list_elem_of_here.
Qed.

(** *** Traces near the generation bound *)

Lemma hits_bind a (l : list string) (f : string -> list (Occurrence T)) :
  hits a (l ≫= f) = l ≫= (fun p => hits a (f p)).
Proof.
  induction l as [|p l IH]; [reflexivity|].
  cbn [mbind list_bind]. unfold hits in *. now rewrite filter_app, IH.
Qed.

Lemma hits_cons a (o : Occurrence T) tr :
  hits a (o :: tr) =
  if decide (occ_key o = a) then o :: hits a tr else hits a tr.
Proof. unfold hits. now rewrite filter_cons. Qed.

Lemma hits_app a (tr1 tr2 : list (Occurrence T)) :
  hits a (tr1 ++ tr2) = hits a tr1 ++ hits a tr2.
Proof. apply filter_app. Qed.

Lemma hits_nil a (tr : list (Occurrence T)) :
  (forall o, o ∈ tr -> occ_key o <> a) -> hits a tr = [].
Proof.
  induction tr as [|o tr IH]; intros H; [reflexivity|].
  unfold hits. rewrite filter_cons, decide_False
    by (apply H, list_elem_of_here).
  apply IH. intros o' Ho'. apply H, list_elem_of_further, Ho'.
Qed.

Lemma trace_at_bound by_pk M node path (sd : T) :
  trace strip by_pk M node M path sd =
  if bool_decide (node ∈ path) then [] else [mkOcc M (path ++ [node]) sd].
Proof.
  rewrite trace_equation_1. rewrite bool_decide_eq_false_2 by lia.
  destruct (bool_decide (node ∈ path)); [reflexivity|].
  cbv zeta. destruct (Z_lt_dec M M); [lia|reflexivity].
Qed.

Lemma trace_below by_pk M node gen path (sd : T) :
  gen < M -> node ∉ path ->
  trace strip by_pk M node gen path sd =
  mkOcc gen (path ++ [node]) sd ::
  (parents strip by_pk node ≫=
     fun p => trace strip by_pk M p (gen + 1) (path ++ [node]) sd).
Proof.
  intros Hlt Hn. rewrite trace_equation_1.
  rewrite bool_decide_eq_false_2 by lia.
  rewrite bool_decide_eq_false_2 by exact Hn.
  cbv zeta. destruct (Z_lt_dec gen M); [reflexivity|lia].
Qed.

(** No occurrence is filed under an identifier that is already on the
    path. *)
Lemma hits_on_path by_pk M node gen path (sd : T) a :
  NoDup path -> a ∈ path ->
  hits a (trace strip by_pk M node gen path sd) = [].
Proof.
  intros Hnd Ha. apply hits_nil. intros o Ho Hk.
  apply trace_spec in Ho as (sfx & Ep & _ & Hnd' & _); [|exact Hnd].
  apply occ_key_last in Hk; [|rewrite Ep; now destruct path].
  rewrite Ep in Hk. rewrite last_app in Hk. cbn [last app] in Hk.
  assert (a ∈ node :: sfx) as Hin.
  { revert Hk. destruct (last (node :: sfx)) as [x|] eqn:E.
    - intros [= ->]. apply last_Some in E as (l' & ->).
      apply elem_of_app. right. apply list_elem_of_here.
    - apply last_None in E. discriminate. }
  apply NoDup_app in Hnd' as (_ & Hdisj & _). exact (Hdisj a Ha Hin).
Qed.

Lemma bind_select {X} (ps : list string) (G : string)
    (f : string -> list X) (v : X) :
  (forall p, p ∈ ps -> f p = if decide (p = G) then [v] else []) ->
  ps ≫= f = (fun _ => v) <$> filter (fun p => p = G) ps.
Proof.
  induction ps as [|p ps IH]; intros Hf; [reflexivity|].
  cbn [mbind list_bind]. rewrite filter_cons.
  rewrite (Hf p) by apply list_elem_of_here.
  rewrite IH by (intros q Hq; apply Hf, list_elem_of_further, Hq).
  destruct (decide (p = G)); reflexivity.
Qed.

(** With bound 3, the occurrences of [G] on the side of a parent [F] of
    the subject, when [G] is named once among the parents of [F] and by
    none of the other parents of [F]. *)
Lemma hits_side by_pk F G (sd : T) :
  G <> F ->
  filter (fun p => p = G) (parents strip by_pk F) = [G] ->
  (forall X, X ∈ parents strip by_pk F -> X <> F -> X <> G ->
             G ∉ parents strip by_pk X) ->
  hits G (trace strip by_pk 3 F 1 [] sd) = [mkOcc 2 [F; G] sd].
Proof.
  intros HGF Honce Hno.
  rewrite trace_below; [|lia|apply not_elem_of_nil].
  rewrite hits_cons, decide_False by (unfold occ_key; cbn; congruence).
  rewrite hits_bind. cbn [app].
  assert (Hstep : forall p, p ∈ parents strip by_pk F ->
            hits G (trace strip by_pk 3 p (1 + 1) [F] sd) =
            if decide (p = G) then [mkOcc 2 [F; G] sd] else []).
  { intros p Hp. destruct (decide (p = G)) as [->|Hne].
    - rewrite trace_below;
        [|lia|rewrite list_elem_of_singleton; exact HGF].
      rewrite hits_cons, decide_True by (unfold occ_key; reflexivity).
      rewrite hits_bind. f_equal.
      induction (parents strip by_pk G) as [|q qs IHq]; [reflexivity|].
      cbn [mbind list_bind]. rewrite IHq, app_nil_r.
      apply hits_on_path.
      + apply NoDup_cons. split; [|apply NoDup_singleton].
        rewrite list_elem_of_singleton. congruence.
      + apply elem_of_app. right. apply list_elem_of_here.
    - destruct (decide (p = F)) as [->|HpF].
      + rewrite trace_equation_1.
        rewrite bool_decide_eq_false_2 by lia.
        rewrite bool_decide_eq_true_2 by apply list_elem_of_here.
        reflexivity.
      + rewrite trace_below;
          [|lia|rewrite list_elem_of_singleton; exact HpF].
        rewrite hits_cons, decide_False by (unfold occ_key; cbn; congruence).
        rewrite hits_bind.
        specialize (Hno p Hp HpF Hne).
        induction (parents strip by_pk p) as [|q qs IHq]; [reflexivity|].
        cbn [mbind list_bind]. rewrite IHq, app_nil_r.
        * change (1 + 1 + 1) with 3. rewrite trace_at_bound.
          destruct (bool_decide (q ∈ [F] ++ [p])); [reflexivity|].
          apply hits_nil. intros o ->%list_elem_of_singleton.
          unfold occ_key. cbn. intros ->. apply Hno, list_elem_of_here.
        * intros Hq. apply Hno, list_elem_of_further, Hq. }
  rewrite (bind_select _ G _ (mkOcc 2 [F; G] sd) Hstep), Honce. reflexivity.
Qed.

End Run.

(** ** The routes of the walk *)

Section RouteFacts.
Variable strip : string -> string.
Variable by_pk : gmap string row.

#[local] Abbreviation by_route :=
  (fun r1 r2 : list bool * list string => route_lt r1.1 r2.1).

Lemma StronglySorted_filter {A} (R : relation A) (P : A -> Prop)
    `{!forall x, Decision (P x)} (l : list A) :
  StronglySorted R l -> StronglySorted R (filter P l).
Proof.
  induction 1 as [|x l Hl IH Hx]; [constructor|].
  rewrite filter_cons. destruct (decide (P x)); [|exact IH].
  constructor; [exact IH|].
  rewrite Forall_forall in *. intros y [_ Hy]%list_elem_of_filter. auto.
Qed.

(** The routes that start with one link, from those of the parent. *)
Lemma route_block_sorted (b : bool) (q : string) rs :
  StronglySorted by_route rs ->
  StronglySorted by_route (prod_map (cons b) (cons q) <$> rs).
Proof.
  apply StronglySorted_fmap. intros [s1 p1] [s2 p2] H. cbn in *. right. auto.
Qed.

Lemma route_step node b s p :
  route strip by_pk node (b :: s) = Some p <->
  exists d p', by_pk !! node = Some d /\ parent_link strip d b <> "" /\
    p = parent_link strip d b :: p' /\
    route strip by_pk (parent_link strip d b) s = Some p'.
Proof.
  cbn [route]. destruct (by_pk !! node) as [d|].
  2: { split; [discriminate|]. intros (? & ? & [=] & _). }
  destruct (decide (parent_link strip d b = "")) as [E|E].
  { split; [discriminate|]. intros (? & ? & [= <-] & ? & _). contradiction. }
  split.
  - destruct (route strip by_pk (parent_link strip d b) s) as [p'|] eqn:Er;
      [|discriminate].
    intros [= <-]. exists d, p'. split_and!; auto.
  - intros (? & ? & [= <-] & _ & -> & ->). reflexivity.
Qed.

Lemma route_length : forall s node p,
  route strip by_pk node s = Some p -> length p = length s.
Proof.
  induction s as [|b s IH]; intros node p.
  - intros [= <-]. reflexivity.
  - intros (d & p' & _ & _ & -> & Hr)%route_step. cbn. f_equal. eauto.
Qed.

Lemma trace_routes {T} M (sd : T) (n : nat) : forall node gen path,
  n = Z.to_nat (M - gen) -> gen <= M -> NoDup path ->
  exists rs,
    StronglySorted by_route rs /\
    (forall s p, (s, p) ∈ rs <->
       route strip by_pk node s = Some p /\
       NoDup (path ++ node :: p) /\
       gen + Z.of_nat (length s) <= M) /\
    trace strip by_pk M node gen path sd =
      (fun r => mkOcc (gen + Z.of_nat (length r.1)) (path ++ node :: r.2) sd)
        <$> rs.
Proof.
  induction n as [|n IH]; intros node gen path Hn Hg Hnd;
    rewrite trace_equation_1;
    rewrite (bool_decide_eq_false_2 (M < gen)) by lia.
  all: destruct (bool_decide (node ∈ path)) eqn:Hin;
    [apply bool_decide_eq_true in Hin; exists []; split; [constructor|];
     split; [|reflexivity];
     intros s p; split; [intros H; inversion H|];
     intros (_ & Hno & _); exfalso;
     apply NoDup_app in Hno as (_ & Hno & _);
     apply (Hno node Hin), list_elem_of_here|].
  all: apply bool_decide_eq_false in Hin.
  all: assert (Hnd' : NoDup (path ++ [node]))
    by (apply NoDup_app; split_and!;
        [exact Hnd
        |intros x Hx ->%list_elem_of_singleton; contradiction
        |apply NoDup_singleton]).
  all: cbv zeta; destruct (Z_lt_dec gen M) as [Hlt|Hge]; try lia.
  - exists [([], [])]. split; [repeat constructor|]. split.
    + intros s p. rewrite list_elem_of_singleton. split.
      * intros [= -> ->]. cbn. split_and!; [reflexivity|exact Hnd'|lia].
      * intros (Hr & _ & Hl). destruct s; [|cbn in Hl; lia].
        cbn in Hr. congruence.
    + cbn. do 2 f_equal. lia.
  - assert (Hside : forall b d, exists blk,
      StronglySorted by_route blk /\
      (forall s p, (s, p) ∈ blk <->
         exists s' p', s = b :: s' /\ parent_link strip d b <> "" /\
           p = parent_link strip d b :: p' /\
           route strip by_pk (parent_link strip d b) s' = Some p' /\
           NoDup (path ++ node :: p) /\
           gen + Z.of_nat (length s) <= M) /\
      ((if decide (parent_link strip d b = "") then []
        else [parent_link strip d b]) ≫=
       fun p => trace strip by_pk M p (gen + 1) (path ++ [node]) sd) =
      (fun r => mkOcc (gen + Z.of_nat (length r.1)) (path ++ node :: r.2) sd)
        <$> blk).
    { intros b d. destruct (decide (parent_link strip d b = "")) as [E|E].
      - exists []. split; [constructor|]. split; [|reflexivity].
        intros s p. split; [intros H; inversion H|].
        intros (? & ? & _ & ? & _). contradiction.
      - destruct (IH (parent_link strip d b) (gen + 1) (path ++ [node]))
          as (rs & Hs & Hm & Ht); [lia|lia|exact Hnd'|].
        exists (prod_map (cons b) (cons (parent_link strip d b)) <$> rs).
        split; [apply route_block_sorted, Hs|]. split.
        + intros s p. rewrite list_elem_of_fmap. split.
          * intros ([s' p'] & [= -> ->] & Hin').
            apply Hm in Hin' as (Hr & Hno & Hl).
            exists s', p'. split_and!; auto.
            -- rewrite <- app_assoc in Hno. exact Hno.
            -- cbn [length]. lia.
          * intros (s' & p' & -> & _ & -> & Hr & Hno & Hl).
            exists (s', p'). split; [reflexivity|]. apply Hm.
            split_and!; auto.
            -- rewrite <- app_assoc. exact Hno.
            -- cbn [length] in Hl. lia.
        + cbn [mbind list_bind]. rewrite app_nil_r, Ht.
          rewrite <- list_fmap_compose. apply list_fmap_ext.
          intros i [s p] _. cbn. rewrite <- app_assoc. cbn. f_equal. lia. }
    unfold parents. destruct (by_pk !! node) as [d|] eqn:Hd.
    + destruct (Hside false d) as (bs & Hs1 & Hs2 & Hs3).
      destruct (Hside true d) as (bd & Hd1 & Hd2 & Hd3).
      exists (([], []) :: bs ++ bd). split; [|split].
      * constructor.
        -- apply StronglySorted_app_2; [|exact Hs1|exact Hd1].
           intros [s1 p1] [s2 p2] H1 H2.
           apply Hs2 in H1 as (? & ? & -> & _).
           apply Hd2 in H2 as (? & ? & -> & _). cbn. left. auto.
        -- apply Forall_forall. intros [s p] Hsp.
           apply elem_of_app in Hsp as [Hsp|Hsp];
             [apply Hs2 in Hsp|apply Hd2 in Hsp];
             destruct Hsp as (? & ? & -> & _); exact I.
      * intros s p. rewrite elem_of_cons, elem_of_app, Hs2, Hd2. split.
        -- intros [[= -> ->]|[H|H]].
           ++ cbn. split_and!; [reflexivity|exact Hnd'|lia].
           ++ destruct H as (s' & p' & -> & E & -> & Hr & Hno & Hl).
              split_and!; auto. apply route_step. eauto 10.
           ++ destruct H as (s' & p' & -> & E & -> & Hr & Hno & Hl).
              split_and!; auto. apply route_step. eauto 10.
        -- intros (Hr & Hno & Hl). destruct s as [|b s].
           ++ left. cbn in Hr. congruence.
           ++ right. apply route_step in Hr as (d' & p' & Hd' & E & -> & Hr).
              rewrite Hd in Hd'. injection Hd' as <-.
              destruct b; [right|left]; exists s, p'; split_and!; auto.
      * cbn [fmap list_fmap]. f_equal.
        { cbn. f_equal. lia. }
        rewrite bind_app.
        change (field strip d "Sire") with (parent_link strip d false).
        change (field strip d "Dam") with (parent_link strip d true).
        rewrite Hs3, Hd3, <- fmap_app. reflexivity.
    + exists [([], [])]. split; [repeat constructor|]. split.
      * intros s p. rewrite list_elem_of_singleton. split.
        -- intros [= -> ->]. cbn. split_and!; [reflexivity|exact Hnd'|lia].
        -- intros (Hr & _ & Hl). destruct s as [|b s].
           ++ cbn in Hr. congruence.
           ++ apply route_step in Hr as (d' & ? & Hd' & _). congruence.
      * cbn. do 2 f_equal. lia.
Qed.

Lemma clean_route_step pk M b s p :
  clean_route strip by_pk pk M (b :: s) p <->
  exists d p', by_pk !! pk = Some d /\ d <> ∅ /\
    parent_link strip d b <> "" /\
    p = parent_link strip d b :: p' /\
    route strip by_pk (parent_link strip d b) s = Some p' /\
    NoDup p /\ 1 + Z.of_nat (length s) <= M.
Proof.
  unfold clean_route. rewrite route_step. cbn [length]. split.
  - intros ((d & Hd & Hne) & _ & (d' & p' & Hd' & E & -> & Hr) & Hno & Hl).
    rewrite Hd in Hd'. injection Hd' as <-.
    exists d, p'. split_and!; auto. lia.
  - intros (d & p' & Hd & Hne & E & -> & Hr & Hno & Hl).
    split_and!; eauto 10. lia.
Qed.

(** The occurrences of a run are those of the routes from the subject. *)
Lemma all_occurrences_routes {T} (sire_tag dam_tag : T) pk M :
  exists rs,
    StronglySorted by_route rs /\
    (forall s p, (s, p) ∈ rs <-> clean_route strip by_pk pk M s p) /\
    all_occurrences strip sire_tag dam_tag pk by_pk M =
      occ_of_route sire_tag dam_tag <$> rs.
Proof.
  assert (Hnone : (forall d, by_pk !! pk = Some d -> d = ∅) \/ M < 1 ->
    all_occurrences strip sire_tag dam_tag pk by_pk M = [] ->
    exists rs,
      StronglySorted by_route rs /\
      (forall s p, (s, p) ∈ rs <-> clean_route strip by_pk pk M s p) /\
      all_occurrences strip sire_tag dam_tag pk by_pk M =
        occ_of_route sire_tag dam_tag <$> rs).
  { intros Hno ->. exists []. split; [constructor|]. split; [|reflexivity].
    intros s p. split; [intros H; inversion H|].
    intros ((d & Hd & Hne) & Hs & _ & _ & Hl). exfalso.
    destruct Hno as [Hno|Hno]; [apply Hne, (Hno d Hd)|].
    destruct s; [contradiction|]. cbn [length] in Hl. lia. }
  unfold all_occurrences in *.
  destruct (by_pk !! pk) as [d|] eqn:Hd;
    [|apply Hnone; [left; discriminate|reflexivity]].
  destruct (decide (d = ∅)) as [He|Hne];
    [apply Hnone; [left; congruence|reflexivity]|].
  destruct (Z_lt_dec M 1) as [HM|HM].
  { apply Hnone; [right; exact HM|].
    rewrite !trace_equation_1, !bool_decide_eq_true_2 by lia.
    now destruct (decide _), (decide _). }
  clear Hnone.
  assert (Hside : forall b (sd : T), exists blk,
    StronglySorted by_route blk /\
    (forall s p, (s, p) ∈ blk <->
       exists s', s = b :: s' /\ clean_route strip by_pk pk M s p) /\
    (if decide (parent_link strip d b = "") then []
     else trace strip by_pk M (parent_link strip d b) 1 [] sd) =
    (fun r => mkOcc (Z.of_nat (length r.1)) r.2 sd) <$> blk).
  { intros b sd. destruct (decide (parent_link strip d b = "")) as [E|E].
    - exists []. split; [constructor|]. split; [|reflexivity].
      intros s p. split; [intros H; inversion H|].
      intros (s' & -> & (d' & ? & Hd' & _ & ? & _)%clean_route_step).
      congruence.
    - destruct (trace_routes M sd (Z.to_nat (M - 1))
                  (parent_link strip d b) 1 [] eq_refl ltac:(lia)
                  (NoDup_nil_2))
        as (rs & Hs & Hm & Ht).
      exists (prod_map (cons b) (cons (parent_link strip d b)) <$> rs).
      split; [apply route_block_sorted, Hs|]. split.
      + intros s p. rewrite list_elem_of_fmap. split.
        * intros ([s' p'] & [= -> ->] & Hin).
          apply Hm in Hin as (Hr & Hno & Hl). exists s'.
          split; [reflexivity|]. apply clean_route_step.
          exists d, p'. split_and!; auto.
        * intros (s' & -> & (d' & p' & Hd' & _ & _ & -> & Hr & Hno & Hl)
                    %clean_route_step).
          rewrite Hd in Hd'. injection Hd' as <-.
          exists (s', p'). split; [reflexivity|]. apply Hm. auto.
      + rewrite Ht, <- list_fmap_compose. apply list_fmap_ext.
        intros i [s p] _. cbn. f_equal. lia. }
  destruct (Hside false sire_tag) as (bs & Hs1 & Hs2 & Hs3).
  destruct (Hside true dam_tag) as (bd & Hd1 & Hd2 & Hd3).
  exists (bs ++ bd). split; [|split].
  - apply StronglySorted_app_2; [|exact Hs1|exact Hd1].
    intros [s1 p1] [s2 p2] H1 H2.
    apply Hs2 in H1 as (? & -> & _).
    apply Hd2 in H2 as (? & -> & _). cbn. left. auto.
  - intros s p. rewrite elem_of_app, Hs2, Hd2. split.
    + intros [(? & _ & H)|(? & _ & H)]; exact H.
    + intros H. destruct s as [|[|] s].
      * destruct H as (_ & ? & _). contradiction.
      * right. eauto.
      * left. eauto.
  - change (field strip d "Sire") with (parent_link strip d false).
    change (field strip d "Dam") with (parent_link strip d true).
    rewrite Hs3, Hd3, fmap_app. f_equal; apply list_fmap_ext.
    + intros i [s p] [? Hin]%list_elem_of_lookup_2%Hs2. 
      destruct Hin as [-> _]. reflexivity.
    + intros i [s p] [? Hin]%list_elem_of_lookup_2%Hd2. 
      destruct Hin as [-> _]. reflexivity.
Qed.

Lemma filter_fmap_comm {A B} (f : A -> B) (P : B -> Prop)
    `{!forall b, Decision (P b)} (l : list A) :
  filter P (f <$> l) = f <$> filter (fun x => P (f x)) l.
Proof.
  induction l as [|x l IH]; [reflexivity|].
  rewrite fmap_cons, !filter_cons.
  destruct (decide (P (f x))); [rewrite fmap_cons|]; now rewrite IH.
Qed.

Lemma filter_ext_in {A} (P Q : A -> Prop)
    `{!forall x, Decision (P x)} `{!forall x, Decision (Q x)} (l : list A) :
  (forall x, x ∈ l -> P x <-> Q x) -> filter P l = filter Q l.
Proof.
  induction l as [|x l IH]; intros Hpq; [reflexivity|].
  rewrite !filter_cons.
  assert (Hx : P x <-> Q x) by (apply Hpq, list_elem_of_here).
  rewrite IH by (intros y Hy; apply Hpq, list_elem_of_further, Hy).
  destruct (decide (P x)), (decide (Q x)); tauto.
Qed.

(** The occurrences filed under a key are those of the routes to it. *)
Lemma hits_routes {T} (sire_tag dam_tag : T) pk M a :
  exists rs,
    routes_to strip by_pk pk M a rs /\
    hits a (all_occurrences strip sire_tag dam_tag pk by_pk M) =
      occ_of_route sire_tag dam_tag <$> rs.
Proof.
  destruct (all_occurrences_routes sire_tag dam_tag pk M)
    as (rs & Hs & Hm & ->).
  exists (filter (fun r => last r.2 = Some a) rs). split; [split|].
  - apply StronglySorted_filter, Hs.
  - intros s p. rewrite list_elem_of_filter, Hm. cbn. tauto.
  - unfold hits. rewrite filter_fmap_comm. f_equal.
    apply filter_ext_in. intros [s p] Hin. unfold occ_key. cbn.
    apply Hm in Hin as (_ & Hne & Hr & _).
    apply route_length in Hr.
    destruct (last p) as [x|] eqn:El.
    + cbn. split; congruence.
    + apply last_None in El. subst p. destruct s; [contradiction|discriminate].
Qed.

(** What the walks leave in [occurrences] and what the loop over it puts
    in the map, by the routes to each identifier. *)
Lemma report_routes {sum_mode : SumMode} {T} (sire_tag dam_tag : T) pk M :
  exists occs,
    walk_parents strip sire_tag dam_tag pk by_pk M = Ok occs /\
    forall a, exists rs,
      routes_to strip by_pk pk M a rs /\
      dict_get occs a =
        (if decide (rs = []) then None
         else Some (occ_of_route sire_tag dam_tag <$> rs)) /\
      dict_get (aggregate occs) a =
        (if bool_decide (length rs < 2)%nat then None
         else Some (entry_of (occ_of_route sire_tag dam_tag <$> rs))).
Proof.
  destruct (collect_core_spec strip sire_tag dam_tag pk by_pk M)
    as (occs & Hw & _ & _ & _ & Hhits & Hagg & _).
  exists occs. split; [exact Hw|]. intros a.
  destruct (hits_routes sire_tag dam_tag pk M a) as (rs & Hrs & Hh).
  exists rs. split; [exact Hrs|].
  assert (Hget : dict_get occs a =
            (if decide (rs = []) then None
             else Some (occ_of_route sire_tag dam_tag <$> rs))).
  { rewrite Hhits, Hh. destruct rs; reflexivity. }
  split; [exact Hget|]. rewrite Hagg, Hget.
  destruct rs as [|r1 [|r2 rs]]; try reflexivity.
Qed.

End RouteFacts.

(** ** The analyzer of make_pedigree.py *)

Section Analyzer.
Context {sum_mode : SumMode}.
Variable strip : string -> string.

Lemma collect_inbreeding_unfold pk by_pk M occs sub :
  walk_parents strip tt tt pk by_pk M = Ok occs ->
  compute_subsumed (aggregate occs) = Ok sub ->
  collect_inbreeding strip pk by_pk M = Ok (aggregate occs, sub).
Proof.
  intros Hw Hs. unfold collect_inbreeding. rewrite Hw. cbn [mbind outcome_bind].
  rewrite Hs. reflexivity.
Qed.

(** C2, as amended. [collect_inbreeding] records one occurrence for
    every route from the subject: a choice of the sire link or the dam
    link at each of 1 to [M] steps that passes no identifier twice.  Two
    routes through the same horses, as when a record names one horse as
    sire and as dam, are two occurrences with one path.  The map holds
    exactly the identifiers with at least two recorded occurrences, which
    are those that two routes at least lead to, and the percentage of
    each is the float [sum(0.5 ** gen) * 100.0] over its occurrences in
    the order of the walk.  The recorded paths are the ancestor paths of
    the subject: chains of parent links from a parent of the subject that
    pass no identifier twice and are at most [M] long; each is filed once
    as long as no record names the same horse as sire and as dam. *)
Theorem collect_inbreeding_map_exact pk by_pk M :
  exists occurrences inbred subsumed,
    walk_parents strip tt tt pk by_pk M = Ok occurrences /\
    collect_inbreeding strip pk by_pk M = Ok (inbred, subsumed) /\
    (forall a, exists rs,
       routes_to strip by_pk pk M a rs /\
       dict_get occurrences a =
         (if decide (rs = []) then None
          else Some (occ_of_route tt tt <$> rs)) /\
       (a ∈ dict_keys inbred <-> (2 <= length rs)%nat) /\
       forall e, dict_get inbred a = Some e ->
         gens e = sorted_reverse ((fun r => Z.of_nat (length r.1)) <$> rs) /\
         percentage e =
           (py_sum ((fun r => pow_half (Z.of_nat (length r.1))) <$> rs)
            * 100)%float /\
         paths e = snd <$> rs) /\
    (forall a l o, dict_get occurrences a = Some l -> o ∈ l ->
       ancestor_path strip by_pk pk M (path o) /\
       last (path o) = Some a /\
       gen o = Z.of_nat (length (path o))) /\
    (forall p a, ancestor_path strip by_pk pk M p -> last p = Some a ->
       exists l o, dict_get occurrences a = Some l /\ o ∈ l /\ path o = p) /\
    ((forall k, NoDup (parents strip by_pk k)) ->
     forall a l, dict_get occurrences a = Some l ->
       NoDup (@path unit <$> l)) /\
    (forall a, a ∈ dict_keys inbred <->
       exists l, dict_get occurrences a = Some l /\ (2 <= length l)%nat) /\
    (forall a e, dict_get inbred a = Some e ->
       exists l, dict_get occurrences a = Some l /\
         percentage e = (py_sum (pow_half <$> (gen <$> l)) * 100)%float).
Proof.
  destruct (collect_core_spec strip tt tt pk by_pk M)
    as (occs & Hw & Hnd & Hsound & Hcompl & Hhits & Hagg & Hu).
  destruct (compute_subsumed_spec (aggregate occs) Hu) as (sub & Hs & _).
  destruct (report_routes strip by_pk tt tt pk M) as (occs' & Hw' & Hroutes).
  rewrite Hw in Hw'. injection Hw' as <-.
  exists occs, (aggregate occs), sub. split_and!.
  - exact Hw.
  - exact (collect_inbreeding_unfold pk by_pk M occs sub Hw Hs).
  - intros a. destruct (Hroutes a) as (rs & Hrs & Hget & Ha).
    exists rs. split_and!; [exact Hrs|exact Hget| |].
    + rewrite dict_keys_is_Some, Ha.
      destruct (bool_decide (length rs < 2)%nat) eqn:Hlen.
      * apply bool_decide_eq_true in Hlen. split; [intros [? [=]]|lia].
      * apply bool_decide_eq_false in Hlen. split; [lia|eauto].
    + intros e. rewrite Ha.
      destruct (bool_decide (length rs < 2)%nat); [discriminate|].
      intros [= <-]. cbn [entry_of gens percentage paths].
      rewrite <- !list_fmap_compose. split_and!; reflexivity.
  - intros a l o Hl Ho. destruct (Hsound a l o Hl Ho) as (? & ? & ? & _). auto.
  - exact Hcompl.
  - intros Hpar a l. rewrite Hhits.
    destruct (hits a _) as [|o l'] eqn:E; [discriminate|]. intros [= <-].
    rewrite <- E. apply hits_paths_NoDup.
    apply all_occurrences_paths_NoDup, Hpar.
  - intros a. rewrite dict_keys_is_Some, Hagg.
    destruct (dict_get occs a) as [l|].
    + destruct (bool_decide (length l < 2)%nat) eqn:Hlen.
      * apply bool_decide_eq_true in Hlen. split.
        -- intros [? [=]].
        -- intros (l' & [= <-] & ?). lia.
      * apply bool_decide_eq_false in Hlen. split; [|eauto].
        intros _. exists l. split; [reflexivity|lia].
    + split; [intros [? [=]] | intros (? & [=] & _)].
  - intros a e. rewrite Hagg.
    destruct (dict_get occs a) as [l|] eqn:Hl; [|discriminate].
    destruct (bool_decide (length l < 2)%nat); [discriminate|].
    intros [= <-]. exists l. split; reflexivity.
Qed.

(** C5. An ancestor [A] is in the subsumed set exactly when it is a
    repeated ancestor (it has at least two recorded occurrences, so it is
    in the full map) and another repeated ancestor [B] stands, in every
    one of the recorded paths of [A], at the position of [A] or before it.
    A subsumed ancestor stays in the full map and is absent from the
    reported set [inbred_pks], which holds the keys of the map that are not
    subsumed. *)
Theorem subsumed_iff pk by_pk M :
  exists occurrences inbred subsumed,
    walk_parents strip tt tt pk by_pk M = Ok occurrences /\
    collect_inbreeding strip pk by_pk M = Ok (inbred, subsumed) /\
    forall A,
      (A ∈ subsumed <->
         exists lA, dict_get occurrences A = Some lA /\
           (2 <= length lA)%nat /\
           exists B lB, B <> A /\
             dict_get occurrences B = Some lB /\ (2 <= length lB)%nat /\
             forall o, o ∈ lA -> at_or_before B A (path o)) /\
      (A ∈ subsumed ->
         A ∈ dict_keys inbred /\ A ∉ inbred_pks inbred subsumed) /\
      (A ∈ inbred_pks inbred subsumed <->
         A ∈ dict_keys inbred /\ A ∉ subsumed).
Proof.
  destruct (collect_core_spec strip tt tt pk by_pk M)
    as (occs & Hw & Hnd & _ & _ & _ & _ & Hu).
  destruct (compute_subsumed_spec (aggregate occs) Hu) as (sub & Hs & Hsub).
  exists occs, (aggregate occs), sub.
  split; [exact Hw|].
  split; [exact (collect_inbreeding_unfold pk by_pk M occs sub Hw Hs)|].
  intros A.
  assert (Hiff : A ∈ sub <->
         exists lA, dict_get occs A = Some lA /\
           (2 <= length lA)%nat /\
           exists B lB, B <> A /\
             dict_get occs B = Some lB /\ (2 <= length lB)%nat /\
             forall o, o ∈ lA -> at_or_before B A (path o)).
  { rewrite Hsub. unfold subsumes. split.
    - intros (B & HB & Hne & e & He & Hall).
      apply (aggregate_Some occs A e Hnd) in He as (lA & HlA & HnA & ->).
      apply dict_keys_is_Some in HB as (eB & HeB).
      apply (aggregate_Some occs B eB Hnd) in HeB as (lB & HlB & HnB & _).
      exists lA. split_and!; auto. exists B, lB. split_and!; auto.
      intros o Ho. rewrite Forall_forall in Hall. apply Hall.
      cbn [entry_of paths]. apply list_elem_of_fmap. eauto.
    - intros (lA & HlA & HnA & B & lB & Hne & HlB & HnB & Hall).
      exists B. split.
      + apply dict_keys_is_Some. exists (entry_of lB).
        apply (aggregate_Some occs B _ Hnd). eauto.
      + split; [exact Hne|]. exists (entry_of lA). split.
        * apply (aggregate_Some occs A _ Hnd). eauto.
        * apply Forall_forall. cbn [entry_of paths].
          intros p (o & -> & Ho)%list_elem_of_fmap. auto. }
  assert (Hpks : A ∈ inbred_pks (aggregate occs) sub <->
                 A ∈ dict_keys (aggregate occs) /\ A ∉ sub).
  { unfold inbred_pks. rewrite elem_of_difference, elem_of_list_to_set. tauto. }
  split_and!; [exact Hiff| |exact Hpks].
  intros HA. split; [|rewrite Hpks; tauto].
  apply Hiff in HA as (lA & HlA & HnA & _).
  apply dict_keys_is_Some. exists (entry_of lA).
  apply (aggregate_Some occs A _ Hnd). eauto.
Qed.

(** The percentage of an ancestor filed once at generation 2 and once at
    generation 3, in either order. *)
Lemma entry_of_2_3 {T} (l : list (Occurrence T)) :
  gen <$> l ≡ₚ [2; 3] -> percentage (entry_of l) = 37.5%float.
Proof.
  intros Hp. cbn [entry_of percentage].
  assert (E : gen <$> l = [2; 3] \/ gen <$> l = [3; 2]).
  { destruct (gen <$> l) as [|x [|y [|z r]]];
      try (apply Permutation_length in Hp; discriminate).
    apply Permutation_length_2 in Hp as [[-> ->]|[-> ->]]; auto. }
  destruct sum_mode as [[|]], E as [-> | ->]; vm_compute; reflexivity.
Qed.

(** C3, as amended. An ancestor with exactly two recorded occurrences,
    one at generation 2 and one at generation 3, is in the map with the
    percentage [100 * (0.5^2 + 0.5^3) = 37.5]. *)
Theorem percentage_gen_2_and_3 pk by_pk M occurrences inbred subsumed a l :
  walk_parents strip tt tt pk by_pk M = Ok occurrences ->
  collect_inbreeding strip pk by_pk M = Ok (inbred, subsumed) ->
  dict_get occurrences a = Some l ->
  gen <$> l ≡ₚ [2; 3] ->
  exists e, dict_get inbred a = Some e /\
            percentage e = 37.5%float /\
            percentage e = (100 * (pow_half 2 + pow_half 3))%float.
Proof.
  intros Hw Hc Hl Hg.
  destruct (collect_core_spec strip tt tt pk by_pk M)
    as (occs & Hw' & Hnd & _ & _ & _ & _ & _).
  rewrite Hw in Hw'. injection Hw' as <-.
  unfold collect_inbreeding in Hc. rewrite Hw in Hc. cbn [mbind outcome_bind] in Hc.
  destruct (compute_subsumed (aggregate occurrences)) as [sub| |];
    try discriminate.
  cbn [mbind outcome_bind] in Hc. injection Hc as <- <-.
  exists (entry_of l).
  assert (length l = 2%nat) as Hlen.
  { apply Permutation_length in Hg. rewrite length_fmap in Hg. exact Hg. }
  split_and!.
  - apply (aggregate_Some occurrences a _ Hnd). exists l. split_and!; auto. lia.
  - apply entry_of_2_3, Hg.
  - rewrite (entry_of_2_3 l Hg). vm_compute. reflexivity.
Qed.

(** [collect_inbreeding] of [make_pedigree_image.py] returns the map and
    the subsumed set of [make_pedigree.py], so what is proved of the one
    holds of the other. *)
Lemma collect_inbreeding_image_same pk by_pk M :
  exists inbred subsumed inbred_types,
    collect_inbreeding strip pk by_pk M = Ok (inbred, subsumed) /\
    collect_inbreeding_image strip pk by_pk M =
      Ok (inbred, subsumed, inbred_types).
Proof.
  destruct (collect_core_spec strip "Sire" "Dam" pk by_pk M)
    as (occs & Hw & _ & _ & _ & _ & _ & Hu).
  destruct (compute_subsumed_spec (aggregate occs) Hu) as (sub & Hs & _).
  exists (aggregate occs), sub, (aggregate_image occs).2. split.
  - unfold collect_inbreeding.
    rewrite walk_parents_trace, (all_occurrences_retag strip "Sire" "Dam").
    change (@nil (string * list (Occurrence unit)))
      with (dict_retag (@nil (string * list (Occurrence string)))).
    rewrite record_all_retag. cbn [mbind outcome_bind].
    rewrite walk_parents_trace in Hw. injection Hw as ->.
    rewrite aggregate_retag, Hs. reflexivity.
  - unfold collect_inbreeding_image. rewrite Hw. cbn [mbind outcome_bind].
    pose proof (aggregate_image_inbred occs) as Hi.
    destruct (aggregate_image occs) as [i t]. cbn [fst snd] in *. subst i.
    rewrite Hs. reflexivity.
Qed.

(** The classification of [make_pedigree_image.py] by the tags of the
    occurrences. *)
Lemma inbred_types_sides pk by_pk M :
  exists occurrences inbred subsumed inbred_types,
    walk_parents strip "Sire" "Dam" pk by_pk M = Ok occurrences /\
    collect_inbreeding_image strip pk by_pk M =
      Ok (inbred, subsumed, inbred_types) /\
    inbred = aggregate occurrences /\
    forall a, 
      (a ∈ dict_keys inbred <-> a ∈ dict_keys inbred_types) /\
      forall t, dict_get inbred_types a = Some t ->
        exists l, dict_get occurrences a = Some l /\
          (forall o, o ∈ l -> side o = "Sire" \/ side o = "Dam") /\
          (t = "sire" <-> forall o, o ∈ l -> side o = "Sire") /\
          (t = "dam" <-> forall o, o ∈ l -> side o = "Dam") /\
          (t = "both" <->
             (exists o, o ∈ l /\ side o = "Sire") /\
             (exists o, o ∈ l /\ side o = "Dam")).
Proof.
  destruct (collect_core_spec strip "Sire" "Dam" pk by_pk M)
    as (occs & Hw & Hnd & Hsound & _ & _ & Hagg & Hu).
  destruct (compute_subsumed_spec (aggregate occs) Hu) as (sub & Hs & _).
  exists occs, (aggregate occs), sub, (aggregate_image occs).2.
  split; [exact Hw|]. split.
  { unfold collect_inbreeding_image. rewrite Hw. cbn [mbind outcome_bind].
    pose proof (aggregate_image_inbred occs) as Hi.
    destruct (aggregate_image occs) as [i t]. cbn [fst snd] in *. subst i.
    rewrite Hs. reflexivity. }
  split; [reflexivity|].
  intros a. split.
  { rewrite !dict_keys_is_Some, Hagg, (dict_get_aggregate_types occs a Hnd).
    destruct (dict_get occs a) as [l|];
      [|split; intros [? ?]; discriminate].
    destruct (bool_decide (length l < 2)%nat);
      [split; intros [? ?]; discriminate|].
    split; intros _; eauto. }
  intros t. rewrite (dict_get_aggregate_types occs a Hnd).
  destruct (dict_get occs a) as [l|] eqn:Hl; [|discriminate].
  destruct (bool_decide (length l < 2)%nat) eqn:Hlen; [discriminate|].
  apply bool_decide_eq_false in Hlen. intros [= <-]. exists l.
  assert (Hsides : forall o, o ∈ l -> side o = "Sire" \/ side o = "Dam").
  { intros o Ho. destruct (Hsound a l o Hl Ho) as (_ & _ & _ & H). exact H. }
  split; [reflexivity|]. split; [exact Hsides|].
  set (sides := list_to_set (side <$> l) : gset string).
  assert (Hin : forall x, x ∈ sides <-> exists o, o ∈ l /\ side o = x).
  { intros x. unfold sides. rewrite elem_of_list_to_set, list_elem_of_fmap.
    split; intros (o & ? & ?); eauto. }
  assert (Hex : exists o, o ∈ l).
  { destruct l as [|o l']; [cbn in Hlen; lia|]. exists o. apply list_elem_of_here. }
  assert (HS : sides = {["Sire"]} <-> forall o, o ∈ l -> side o = "Sire").
  { split.
    - intros E o Ho. assert (side o ∈ sides) as H by (apply Hin; eauto).
      rewrite E in H. now apply elem_of_singleton in H.
    - intros Hall. apply set_eq. intros x. rewrite Hin, elem_of_singleton.
      split.
      + intros (o & Ho & <-). auto.
      + intros ->. destruct Hex as (o & Ho). eauto. }
  assert (HD : sides = {["Dam"]} <-> forall o, o ∈ l -> side o = "Dam").
  { split.
    - intros E o Ho. assert (side o ∈ sides) as H by (apply Hin; eauto).
      rewrite E in H. now apply elem_of_singleton in H.
    - intros Hall. apply set_eq. intros x. rewrite Hin, elem_of_singleton.
      split.
      + intros (o & Ho & <-). auto.
      + intros ->. destruct Hex as (o & Ho). eauto. }
  unfold inbred_type. fold sides.
  destruct (decide (sides = {["Sire"]})) as [ES|NS].
  { pose proof (proj1 HS ES) as Hall. split_and!.
    - tauto.
    - split; [discriminate|]. intros HallD. destruct Hex as (o & Ho).
      specialize (Hall o Ho). specialize (HallD o Ho). congruence.
    - split; [discriminate|]. intros [_ (o & Ho & Eo)].
      specialize (Hall o Ho). congruence. }
  destruct (decide (sides = {["Dam"]})) as [ED|ND].
  { pose proof (proj1 HD ED) as Hall. split_and!.
    - split; [discriminate|]. intros HallS. exfalso. apply NS, HS, HallS.
    - tauto.
    - split; [discriminate|]. intros [(o & Ho & Eo) _].
      specialize (Hall o Ho). congruence. }
  split_and!.
  - split; [discriminate|]. intros H. exfalso. apply NS, HS, H.
  - split; [discriminate|]. intros H. exfalso. apply ND, HD, H.
  - split; [|reflexivity]. intros _. split.
    + destruct (decide ("Sire" ∈ sides)) as [Hyes|Hno];
        [now apply Hin|].
      exfalso. apply ND, HD. intros o Ho.
      destruct (Hsides o Ho) as [E|E]; [|exact E].
      exfalso. apply Hno, Hin. eauto.
    + destruct (decide ("Dam" ∈ sides)) as [Hyes|Hno];
        [now apply Hin|].
      exfalso. apply NS, HS. intros o Ho.
      destruct (Hsides o Ho) as [E|E]; [exact E|].
      exfalso. apply Hno, Hin. eauto.
Qed.

(** The classification of [make_pedigree_image.py]: the ancestors of
    the map are those that are classified, and those that two routes at
    least lead to.  Such an ancestor is "sire" when every route to it
    starts with the sire link of the subject, "dam" when every route
    starts with the dam link, and "both" when there are routes of both
    kinds; the tag of an occurrence is that of the first link of its
    route. *)
Lemma inbred_types_classify pk by_pk M :
  exists occurrences inbred subsumed inbred_types,
    walk_parents strip "Sire" "Dam" pk by_pk M = Ok occurrences /\
    collect_inbreeding_image strip pk by_pk M =
      Ok (inbred, subsumed, inbred_types) /\
    forall a,
      (a ∈ dict_keys inbred <-> a ∈ dict_keys inbred_types) /\
      exists rs,
        routes_to strip by_pk pk M a rs /\
        dict_get occurrences a =
          (if decide (rs = []) then None
           else Some (occ_of_route "Sire" "Dam" <$> rs)) /\
        (forall r, r ∈ rs ->
           exists d dam_side,
             by_pk !! pk = Some d /\
             head r.1 = Some dam_side /\
             head r.2 = Some (parent_link strip d dam_side) /\
             side (occ_of_route "Sire" "Dam" r) =
               (if dam_side then "Dam" else "Sire")) /\
        (a ∈ dict_keys inbred_types <-> (2 <= length rs)%nat) /\
        forall t, dict_get inbred_types a = Some t ->
          (t = "sire" <-> forall r, r ∈ rs -> head r.1 = Some false) /\
          (t = "dam" <-> forall r, r ∈ rs -> head r.1 = Some true) /\
          (t = "both" <->
             (exists r, r ∈ rs /\ head r.1 = Some false) /\
             (exists r, r ∈ rs /\ head r.1 = Some true)).
Proof.
  destruct (inbred_types_sides pk by_pk M)
    as (occs & inbred & sub & types & Hw & Hc & -> & Hall).
  destruct (report_routes strip by_pk "Sire" "Dam" pk M)
    as (occs' & Hw' & Hroutes).
  rewrite Hw in Hw'. injection Hw' as <-.
  exists occs, (aggregate occs), sub, types.
  split; [exact Hw|]. split; [exact Hc|].
  intros a. destruct (Hall a) as [Hkeys Htypes]. split; [exact Hkeys|].
  destruct (Hroutes a) as (rs & Hrs & Hget & Ha).
  exists rs.
  assert (Hhead : forall r, r ∈ rs ->
     exists d dam_side,
       by_pk !! pk = Some d /\
       head r.1 = Some dam_side /\
       head r.2 = Some (parent_link strip d dam_side) /\
       side (occ_of_route "Sire" "Dam" r) =
         (if dam_side then "Dam" else "Sire")).
  { intros [s p] Hin. apply Hrs in Hin as [Hin _].
    destruct s as [|b s]; [destruct Hin as (_ & ? & _); contradiction|].
    apply clean_route_step in Hin as (d & p' & Hd & _ & _ & -> & _).
    exists d, b. split_and!; auto. }
  split; [exact Hrs|]. split; [exact Hget|]. split; [exact Hhead|]. split.
  { rewrite <- Hkeys, dict_keys_is_Some, Ha.
    destruct (bool_decide (length rs < 2)%nat) eqn:Hlen.
    - apply bool_decide_eq_true in Hlen. split; [intros [? [=]]|lia].
    - apply bool_decide_eq_false in Hlen. split; [lia|eauto]. }
  intros t Ht. destruct (Htypes t Ht) as (l & Hl & _ & HS & HD & HB).
  rewrite Hget in Hl. destruct (decide (rs = [])); [discriminate|].
  injection Hl as <-.
  assert (Hs : forall r, r ∈ rs ->
     (side (occ_of_route "Sire" "Dam" r) = "Sire" <-> head r.1 = Some false) /\
     (side (occ_of_route "Sire" "Dam" r) = "Dam" <-> head r.1 = Some true)).
  { intros r Hin. destruct (Hhead r Hin) as (d & [|] & _ & -> & _ & ->);
      split; split; congruence. }
  split_and!.
  - rewrite HS. split.
    + intros H r Hr. apply (Hs r Hr), H, list_elem_of_fmap. eauto.
    + intros H o (r & -> & Hr)%list_elem_of_fmap. apply (Hs r Hr), H, Hr.
  - rewrite HD. split.
    + intros H r Hr. apply (Hs r Hr), H, list_elem_of_fmap. eauto.
    + intros H o (r & -> & Hr)%list_elem_of_fmap. apply (Hs r Hr), H, Hr.
  - rewrite HB. split.
    + intros [(o1 & (r1 & -> & Hr1)%list_elem_of_fmap & E1)
              (o2 & (r2 & -> & Hr2)%list_elem_of_fmap & E2)].
      split; [exists r1|exists r2]; split; auto;
        [apply (Hs r1 Hr1), E1|apply (Hs r2 Hr2), E2].
    + intros [(r1 & Hr1 & E1) (r2 & Hr2 & E2)].
      split; [exists (occ_of_route "Sire" "Dam" r1)
             |exists (occ_of_route "Sire" "Dam" r2)];
        (split; [apply list_elem_of_fmap; eauto|]);
        [apply (Hs r1 Hr1), E1|apply (Hs r2 Hr2), E2].
Qed.

Lemma top_parents_pair by_pk S F M :
  top_parents strip by_pk S = [F; M] ->
  exists data, by_pk !! S = Some data /\ data <> ∅ /\
    field strip data "Sire" = F /\ F <> "" /\
    field strip data "Dam" = M /\ M <> "".
Proof.
  unfold top_parents, parents.
  destruct (by_pk !! S) as [data|]; [|discriminate].
  destruct (decide (data = ∅)); [discriminate|].
  destruct (decide (field strip data "Sire" = "")),
           (decide (field strip data "Dam" = "")); try discriminate.
  intros [= <- <-]. exists data. split_and!; auto.
Qed.

(** C4, as amended. Let the subject [S] have sire [F] and dam [M],
    two different horses, and let [G], different from both, be named once
    among the parents of [F] and once among the parents of [M], and by no
    other parent of [F] or [M].  With bound 3 the report holds [G] with
    generations [2; 2], percentage 50, the paths [F; G] and [M; G] and the
    classification "both"; [G] is not subsumed and is reported. *)
Theorem common_grandparent_report by_pk S F M G :
  top_parents strip by_pk S = [F; M] ->
  F <> M -> G <> F -> G <> M ->
  filter (fun p => p = G) (parents strip by_pk F) = [G] ->
  filter (fun p => p = G) (parents strip by_pk M) = [G] ->
  (forall X, X ∈ parents strip by_pk F -> X <> F -> X <> G ->
             G ∉ parents strip by_pk X) ->
  (forall X, X ∈ parents strip by_pk M -> X <> M -> X <> G ->
             G ∉ parents strip by_pk X) ->
  exists inbred subsumed inbred_types e,
    (collect_inbreeding_image strip S by_pk 3 =
       Ok (inbred, subsumed, inbred_types)) /\
    dict_get inbred G = Some e /\
    gens e = [2; 2] /\
    percentage e = 50%float /\
    paths e = [[F; G]; [M; G]] /\
    dict_get inbred_types G = Some "both" /\
    (G ∉ subsumed) /\
    G ∈ inbred_pks inbred subsumed.
Proof.
  intros Htop HFM HGF HGM HF1 HM1 HF3 HM3.
  destruct (top_parents_pair by_pk S F M Htop)
    as (data & Hdata & Hne & Es & HFe & Ed & HMe).
  destruct (collect_core_spec strip "Sire" "Dam" S by_pk 3)
    as (occs & Hw & Hnd & _ & _ & Hhits & Hagg & Hu).
  destruct (compute_subsumed_spec (aggregate occs) Hu) as (sub & Hs & Hsub).
  set (o1 := mkOcc 2 [F; G] "Sire"). set (o2 := mkOcc 2 [M; G] "Dam").
  assert (HG : dict_get occs G = Some [o1; o2]).
  { rewrite Hhits. unfold all_occurrences. rewrite Hdata.
    rewrite decide_False by exact Hne. rewrite Es, Ed.
    rewrite !decide_False by assumption.
    rewrite hits_app.
    rewrite (hits_side strip by_pk F G "Sire" HGF HF1 HF3).
    rewrite (hits_side strip by_pk M G "Dam" HGM HM1 HM3). reflexivity. }
  assert (He : dict_get (aggregate occs) G = Some (entry_of [o1; o2])).
  { rewrite Hagg, HG. reflexivity. }
  exists (aggregate occs), sub, (aggregate_image occs).2, (entry_of [o1; o2]).
  assert (Hpks : G ∉ sub).
  { rewrite Hsub. intros (o & _ & Hno & e & He' & Hall).
    rewrite He in He'. injection He' as <-. cbn [entry_of paths fmap list_fmap] in Hall.
    apply Forall_cons in Hall as [(i & _ & Hi & _) [(j & _ & Hj & _) _]%Forall_cons].
    apply list_elem_of_lookup_2 in Hi, Hj. cbn in Hi, Hj.
    apply elem_of_cons in Hi as [->|Hi].
    - apply elem_of_cons in Hj as [?|Hj]; [congruence|].
      apply list_elem_of_singleton in Hj. congruence.
    - apply list_elem_of_singleton in Hi. congruence. }
  split_and!.
  - unfold collect_inbreeding_image. rewrite Hw. cbn [mbind outcome_bind].
    pose proof (aggregate_image_inbred occs) as Hi.
    destruct (aggregate_image occs) as [i t]. cbn [fst snd] in *. subst i.
    rewrite Hs. reflexivity.
  - exact He.
  - reflexivity.
  - destruct sum_mode as [[|]]; vm_compute; reflexivity.
  - reflexivity.
  - rewrite (dict_get_aggregate_types occs G Hnd), HG. reflexivity.
  - exact Hpks.
  - unfold inbred_pks. rewrite elem_of_difference, elem_of_list_to_set.
    split; [|exact Hpks]. eapply dict_get_Some_keys, He.
Qed.

End Analyzer.

(** Runs on the example stores. *)

(** In [store_twin] the subject "S" names "X" as sire and as dam.  One
    path leads from "S" to "X", the path ["X"], yet the walk files it
    twice, once for each link, and "X" is in the map, at 100 percent. *)
Lemma same_parent_twice :
  either_sum (fun sum_mode =>
  exists occurrences inbred,
    walk_parents ascii_strip tt tt "S" store_twin 3 = Ok occurrences /\
    collect_inbreeding ascii_strip "S" store_twin 3 = Ok (inbred, ∅) /\
    (forall p, ancestor_path ascii_strip store_twin "S" 3 p ->
               last p = Some "X" -> p = ["X"]) /\
    dict_get occurrences "X" = Some [mkOcc 1 ["X"] tt; mkOcc 1 ["X"] tt] /\
    dict_keys inbred = ["X"] /\
    (percentage <$> dict_get inbred "X") = Some 100%float).
Proof.
  assert (Hone : forall p, ancestor_path ascii_strip store_twin "S" 3 p ->
                           last p = Some "X" -> p = ["X"]).
  { intros p (first & suffix & -> & Hf & Hc & _) _.
    change (top_parents ascii_strip store_twin "S") with ["X"; "X"] in Hf.
    assert (first = "X") as ->.
    { apply elem_of_cons in Hf as [->|Hf]; [reflexivity|].
      now apply list_elem_of_singleton in Hf. }
    destruct suffix as [|q suffix]; [reflexivity|].
    destruct Hc as [Hq _].
    change (parents ascii_strip store_twin "X") with (@nil string) in Hq.
    inversion Hq. }
  split; (eexists _, _; split; [vm_compute; reflexivity|];
    split; [vm_compute; reflexivity|]; split; [exact Hone|];
    split; [vm_compute; reflexivity|]; split; vm_compute; reflexivity).
Qed.

(** The percentage is a float.  In [store_far] the ancestor "X" is
    filed at generation 54 and at generation 1, and its percentage is 50:
    the share of the far occurrence is lost in the sum. *)
Example percentage_is_rounded :
  either_sum (fun sum_mode =>
  exists inbred subsumed e,
    collect_inbreeding ascii_strip "S" store_far 54 = Ok (inbred, subsumed) /\
    dict_get inbred "X" = Some e /\
    gens e = [54; 1] /\
    length <$> paths e = [54; 1]%nat /\
    percentage e = 50%float).
Proof.
  split; (eexists _, _, _; split; [vm_compute; reflexivity|];
    split; [vm_compute; reflexivity|]; split; [reflexivity|];
    split; vm_compute; reflexivity).
Qed.

Lemma percentage_gen_2_and_3_witness :
  either_sum (fun sum_mode =>
  exists occurrences inbred subsumed l,
    walk_parents ascii_strip tt tt "S" store_2x3 3 = Ok occurrences /\
    collect_inbreeding ascii_strip "S" store_2x3 3 = Ok (inbred, subsumed) /\
    dict_get occurrences "G" = Some l /\
    gen <$> l ≡ₚ [2; 3] /\
    exists e, dict_get inbred "G" = Some e /\
              percentage e = 37.5%float /\
              percentage e = (100 * (pow_half 2 + pow_half 3))%float).
Proof.
  both_sums ltac:(fun m =>
     eexists _, _, _, _;
     split; [vm_compute; reflexivity|];
     split; [vm_compute; reflexivity|];
     split; [vm_compute; reflexivity|];
     split; [reflexivity|];
     eapply (percentage_gen_2_and_3 (sum_mode := m) ascii_strip "S" store_2x3 3);
       [vm_compute; reflexivity | vm_compute; reflexivity
       | vm_compute; reflexivity | reflexivity]).
Defined.

Lemma common_grandparent_report_witness :
  either_sum (fun sum_mode =>
  top_parents ascii_strip store_2x2 "S" = ["F"; "M"] /\
  "F" <> "M" /\ "G" <> "F" /\ "G" <> "M" /\
  filter (fun p => p = "G") (parents ascii_strip store_2x2 "F") = ["G"] /\
  filter (fun p => p = "G") (parents ascii_strip store_2x2 "M") = ["G"] /\
  exists inbred subsumed inbred_types e,
    (collect_inbreeding_image ascii_strip "S" store_2x2 3 =
       Ok (inbred, subsumed, inbred_types)) /\
    dict_get inbred "G" = Some e /\
    gens e = [2; 2] /\
    percentage e = 50%float /\
    paths e = [["F"; "G"]; ["M"; "G"]] /\
    dict_get inbred_types "G" = Some "both" /\
    ("G" ∉ subsumed) /\
    "G" ∈ inbred_pks inbred subsumed).
Proof.
  assert (HF : forall X, X ∈ parents ascii_strip store_2x2 "F" ->
             X <> "F" -> X <> "G" -> "G" ∉ parents ascii_strip store_2x2 X).
  { intros X HX _ HXG.
    change (parents ascii_strip store_2x2 "F") with ["G"; "A"] in HX.
    apply elem_of_cons in HX as [->|HX]; [contradiction|].
    apply list_elem_of_singleton in HX as ->.
    change (parents ascii_strip store_2x2 "A") with (@nil string).
    apply not_elem_of_nil. }
  assert (HM : forall X, X ∈ parents ascii_strip store_2x2 "M" ->
             X <> "M" -> X <> "G" -> "G" ∉ parents ascii_strip store_2x2 X).
  { intros X HX _ HXG.
    change (parents ascii_strip store_2x2 "M") with ["G"; "B"] in HX.
    apply elem_of_cons in HX as [->|HX]; [contradiction|].
    apply list_elem_of_singleton in HX as ->.
    change (parents ascii_strip store_2x2 "B") with (@nil string).
    apply not_elem_of_nil. }
  both_sums ltac:(fun m =>
     split; [vm_compute; reflexivity|];
     split; [discriminate|]; split; [discriminate|]; split; [discriminate|];
     split; [vm_compute; reflexivity|]; split; [vm_compute; reflexivity|];
     apply (common_grandparent_report (sum_mode := m)
              ascii_strip store_2x2 "S" "F" "M" "G");
       [vm_compute; reflexivity | discriminate | discriminate | discriminate
       | vm_compute; reflexivity | vm_compute; reflexivity
       | exact HF | exact HM]).
Defined.

(** In [store_2x2] the subject "S" has sire "F" and dam "M", which share
    the grandparent "G" at generation 2 on both sides; with bound 3 the
    report holds "G" with generations [2; 2], classification "both" and
    not subsumed, but its percentage is 50, not 25. *)
Lemma common_grandparent_is_not_25 :
  either_sum (fun sum_mode =>
  exists inbred subsumed inbred_types e,
    (collect_inbreeding_image ascii_strip "S" store_2x2 3 =
       Ok (inbred, subsumed, inbred_types)) /\
    dict_get inbred "G" = Some e /\
    gens e = [2; 2] /\
    dict_get inbred_types "G" = Some "both" /\
    ("G" ∉ subsumed) /\
    percentage e = 50%float /\
    percentage e <> 25%float).
Proof.
  split;
    (eexists _, _, _, _;
     split; [vm_compute; reflexivity|];
     split; [vm_compute; reflexivity|];
     split; [vm_compute; reflexivity|];
     split; [vm_compute; reflexivity|];
     split; [by_compute|];
     split; [vm_compute; reflexivity|];
     intros H; vm_compute in H; discriminate).
Qed.

(** In [store_2x3] the ancestor "G" is recorded exactly twice, at
    generations 2 and 3, and its percentage is 37.5, not 18.75. *)
Lemma percentage_gen_2_and_3_is_not_18_75 :
  either_sum (fun sum_mode =>
  exists occurrences inbred subsumed e,
    walk_parents ascii_strip tt tt "S" store_2x3 3 = Ok occurrences /\
    collect_inbreeding ascii_strip "S" store_2x3 3 = Ok (inbred, subsumed) /\
    gen <$> default [] (dict_get occurrences "G") = [2; 3] /\
    dict_get inbred "G" = Some e /\
    percentage e = 37.5%float /\
    percentage e <> 18.75%float).
Proof.
  split;
    (eexists _, _, _, _;
     split; [vm_compute; reflexivity|];
     split; [vm_compute; reflexivity|];
     split; [vm_compute; reflexivity|];
     split; [vm_compute; reflexivity|];
     split; [vm_compute; reflexivity|];
     intros H; vm_compute in H; discriminate).
Qed.

(** ** More on the depth resolver *)

Section DepthMore.
Variable strip : string -> string.

(** The depth a caller asks for is clamped into [0 .. max_depth]: the
    result is the request when that lies in the range, [max_depth] when
    the request is larger or there is none, and 0 when the request is
    negative.  So the result is above the request only for a negative
    request. *)
Theorem clamp_depth_range pk by_pk requested :
  exists d c,
    compute_max_depth strip pk by_pk = Ok d /\
    clamp_depth strip pk by_pk requested = Ok c /\
    0 <= c <= d /\
    (requested = None -> c = d) /\
    (forall r, requested = Some r ->
       c = Z.max 0 (Z.min d r) /\
       c <= Z.max 0 r /\
       (0 <= r <= d -> c = r) /\
       (d <= r -> c = d) /\
       (r <= 0 -> c = 0) /\
       (0 <= r -> c <= r) /\
       (r < 0 -> r < c)).
Proof.
  destruct (compute_max_depth_returns strip pk by_pk) as (d & Hd & Hpos).
  unfold clamp_depth. rewrite Hd. cbn [mbind outcome_bind].
  destruct requested as [r|].
  - exists d, (Z.max 0 (Z.min d r)). split_and!; auto; try lia.
    + discriminate.
    + intros r' [= <-]. lia.
  - exists d, d. split_and!; auto; try lia. discriminate.
Qed.

Section AcyclicMore.
Variable by_pk : gmap string row.
Variable rank : string -> nat.
Hypothesis rank_parents :
  forall k p, p ∈ parents strip by_pk k -> (rank p < rank k)%nat.

Lemma compute_max_depth_acyclic pk :
  compute_max_depth strip pk by_pk = Ok (depth_spec strip by_pk ∅ pk).
Proof.
  destruct (compute_max_depth_returns strip pk by_pk) as (d & Hrun & _).
  rewrite Hrun. unfold compute_max_depth in Hrun.
  destruct (depth_for strip (S (size by_pk)) by_pk pk (∅, ∅))
    as [[d' [memo' V']]| |] eqn:E; try discriminate.
  cbn [mbind outcome_bind] in Hrun. injection Hrun as ->.
  apply (depth_for_acyclic strip by_pk rank rank_parents) in E as [-> _];
    [reflexivity| |].
  - intros k v. rewrite lookup_empty. discriminate.
  - intros v []%not_elem_of_empty.
Qed.

(** A parent lies at least one generation less deep than its child. *)
Lemma depth_spec_parent k p :
  p ∈ parents strip by_pk k ->
  1 + depth_spec strip by_pk ∅ p <= depth_spec strip by_pk ∅ k.
Proof.
  intros Hp. pose proof (rank_parents k p Hp) as Hlt.
  rewrite (depth_spec_unfold strip by_pk ∅ k).
  rewrite decide_False by apply not_elem_of_empty.
  assert (Hoff : depth_spec strip by_pk ({[k]} ∪ ∅) p =
                 depth_spec strip by_pk ∅ p).
  { apply (depth_spec_off_path strip by_pk rank rank_parents).
    intros v [->%elem_of_singleton|[]%not_elem_of_empty]%elem_of_union.
    exact Hlt. }
  unfold parents in Hp.
  destruct (by_pk !! k) as [data|]; [|now apply elem_of_nil in Hp].
  apply elem_of_app in Hp as [Hp|Hp].
  - destruct (decide (field strip data "Sire" = ""));
      [now apply elem_of_nil in Hp|].
    apply list_elem_of_singleton in Hp as ->. rewrite Hoff. lia.
  - destruct (decide (field strip data "Dam" = "")) as [|Hd];
      [now apply elem_of_nil in Hp|].
    apply list_elem_of_singleton in Hp as ->. rewrite Hoff. lia.
Qed.

Lemma depth_spec_no_parents k :
  depth_spec strip by_pk ∅ k = 0 -> parents strip by_pk k = [].
Proof.
  intros H0. destruct (parents strip by_pk k) as [|p ps] eqn:E; [reflexivity|].
  assert (Hp : p ∈ parents strip by_pk k) by (rewrite E; apply list_elem_of_here).
  pose proof (depth_spec_parent k p Hp).
  pose proof (depth_spec_nonneg strip by_pk ∅ p). lia.
Qed.

Lemma chain_depth k l :
  chain strip by_pk k l ->
  Z.of_nat (length l) <= depth_spec strip by_pk ∅ k.
Proof.
  revert k. induction l as [|p l IH]; intros k Hc.
  - apply depth_spec_nonneg.
  - destruct Hc as [Hp Hc]. specialize (IH p Hc).
    pose proof (depth_spec_parent k p Hp). cbn [length]. lia.
Qed.

Lemma chain_depth_attained k :
  exists l, chain strip by_pk k l /\
            Z.of_nat (length l) = depth_spec strip by_pk ∅ k.
Proof.
  remember (rank k) as n eqn:En. revert k En.
  induction n as [n IH] using lt_wf_ind. intros k ->.
  assert (Hoff : forall p, p ∈ parents strip by_pk k ->
            depth_spec strip by_pk ({[k]} ∪ ∅) p =
            depth_spec strip by_pk ∅ p).
  { intros p Hp. pose proof (rank_parents k p Hp) as Hlt.
    apply (depth_spec_off_path strip by_pk rank rank_parents).
    intros v [->%elem_of_singleton|[]%not_elem_of_empty]%elem_of_union.
    exact Hlt. }
  assert (Hup : forall p, p ∈ parents strip by_pk k ->
            exists l, chain strip by_pk k l /\
              Z.of_nat (length l) = 1 + depth_spec strip by_pk ∅ p).
  { intros p Hp.
    destruct (IH (rank p) (rank_parents k p Hp) p eq_refl) as (l & Hc & Hl).
    exists (p :: l). split; [split; assumption|]. cbn [length]. lia. }
  pose proof (depth_spec_unfold strip by_pk ∅ k) as Hspec.
  rewrite decide_False in Hspec by apply not_elem_of_empty.
  destruct (by_pk !! k) as [data|] eqn:Hdata;
    [|exists []; split; [exact I|now rewrite Hspec]].
  pose proof (depth_spec_nonneg strip by_pk ∅ (field strip data "Sire")).
  pose proof (depth_spec_nonneg strip by_pk ∅ (field strip data "Dam")).
  destruct (decide (field strip data "Sire" = "")) as [|Hs];
    [|rewrite (Hoff _ (parents_sire strip by_pk k data Hdata Hs)) in Hspec;
      destruct (Hup _ (parents_sire strip by_pk k data Hdata Hs))
        as (ls & Hcs & Hls)];
    (destruct (decide (field strip data "Dam" = "")) as [|Hd];
     [|rewrite (Hoff _ (parents_dam strip by_pk k data Hdata Hd)) in Hspec;
       destruct (Hup _ (parents_dam strip by_pk k data Hdata Hd))
         as (ld & Hcd & Hld)]).
  - exists []. split; [exact I|]. rewrite Hspec. reflexivity.
  - exists ld. split; [exact Hcd|]. lia.
  - exists ls. split; [exact Hcs|]. lia.
  - destruct (Z_le_gt_dec (depth_spec strip by_pk ∅ (field strip data "Dam"))
                          (depth_spec strip by_pk ∅ (field strip data "Sire"))).
    + exists ls. split; [exact Hcs|]. lia.
    + exists ld. split; [exact Hcd|]. lia.
Qed.

End AcyclicMore.

(** In a store without cyclic parentage the depth returned is the length
    of the longest chain of parent links that starts at the identifier. *)
Theorem compute_max_depth_longest_chain pk by_pk :
  acyclic strip by_pk ->
  exists d,
    compute_max_depth strip pk by_pk = Ok d /\
    (forall l, chain strip by_pk pk l -> Z.of_nat (length l) <= d) /\
    (exists l, chain strip by_pk pk l /\ Z.of_nat (length l) = d).
Proof.
  intros (rank & Hrank). exists (depth_spec strip by_pk ∅ pk). split_and!.
  - apply (compute_max_depth_acyclic by_pk rank Hrank).
  - intros l. apply (chain_depth by_pk rank Hrank).
  - apply (chain_depth_attained by_pk rank Hrank).
Qed.

End DepthMore.

Lemma compute_max_depth_longest_chain_witness :
  acyclic ascii_strip store_2x2 /\
  exists d,
    compute_max_depth ascii_strip "S" store_2x2 = Ok d /\
    (forall l, chain ascii_strip store_2x2 "S" l -> Z.of_nat (length l) <= d) /\
    (exists l, chain ascii_strip store_2x2 "S" l /\ Z.of_nat (length l) = d).
Proof.
  split; [exact store_2x2_acyclic|].
  apply (compute_max_depth_longest_chain ascii_strip "S" store_2x2).
  exact store_2x2_acyclic.
Defined.

(** ** More on the analyzer *)

#[local] Instance Zge_total : Total Z.ge.
Proof. intros x y. lia. Qed.

#[local] Instance Zge_trans : Transitive Z.ge.
Proof. intros x y z. lia. Qed.

Section AnalyzerMore.
Context {sum_mode : SumMode}.
Variable strip : string -> string.

Lemma trace_past_bound {T} by_pk M node gen path (sd : T) :
  M < gen -> trace strip by_pk M node gen path sd = [].
Proof.
  intros Hlt. rewrite trace_equation_1.
  now rewrite bool_decide_eq_true_2 by exact Hlt.
Qed.

Lemma all_occurrences_no_bound {T} (sire_tag dam_tag : T) pk by_pk M :
  M <= 0 -> all_occurrences strip sire_tag dam_tag pk by_pk M = [].
Proof.
  intros HM. unfold all_occurrences.
  destruct (by_pk !! pk) as [data|]; [|reflexivity].
  destruct (decide (data = ∅)); [reflexivity|].
  rewrite !trace_past_bound by lia.
  destruct (decide (field strip data "Sire" = "")),
           (decide (field strip data "Dam" = "")); reflexivity.
Qed.

Lemma all_occurrences_no_parents {T} (sire_tag dam_tag : T) pk by_pk M :
  top_parents strip by_pk pk = [] ->
  all_occurrences strip sire_tag dam_tag pk by_pk M = [].
Proof.
  unfold top_parents, parents, all_occurrences.
  destruct (by_pk !! pk) as [data|]; [|reflexivity].
  destruct (decide (data = ∅)); [reflexivity|].
  destruct (decide (field strip data "Sire" = "")),
           (decide (field strip data "Dam" = "")); try discriminate.
  reflexivity.
Qed.

Lemma collect_inbreeding_of_trace pk by_pk M :
  collect_inbreeding strip pk by_pk M =
  (let inbred :=
     aggregate (record_all (all_occurrences strip tt tt pk by_pk M) []) in
   subsumed ← compute_subsumed inbred; Ok (inbred, subsumed)).
Proof. unfold collect_inbreeding. now rewrite walk_parents_trace. Qed.

Lemma collect_inbreeding_image_of_trace pk by_pk M :
  collect_inbreeding_image strip pk by_pk M =
  (let '(inbred, inbred_types) :=
     aggregate_image
       (record_all (all_occurrences strip "Sire" "Dam" pk by_pk M) []) in
   subsumed ← compute_subsumed inbred; Ok (inbred, subsumed, inbred_types)).
Proof. unfold collect_inbreeding_image. now rewrite walk_parents_trace. Qed.

(** Without a positive bound, or for a subject without parent links
    (no record, an empty row, or both links absent), both scripts return
    the empty report. *)
Theorem collect_inbreeding_nothing_to_walk pk by_pk M :
  M <= 0 \/ top_parents strip by_pk pk = [] ->
  collect_inbreeding strip pk by_pk M = Ok ([], ∅) /\
  collect_inbreeding_image strip pk by_pk M = Ok ([], ∅, []).
Proof.
  intros H.
  rewrite collect_inbreeding_of_trace, collect_inbreeding_image_of_trace.
  destruct H as [H|H].
  - rewrite !all_occurrences_no_bound by exact H. split; reflexivity.
  - rewrite !all_occurrences_no_parents by exact H. split; reflexivity.
Qed.

Lemma bind_ext_in {A B} (l : list A) (f g : A -> list B) :
  (forall x, x ∈ l -> f x = g x) -> l ≫= f = l ≫= g.
Proof.
  induction l as [|x l IH]; intros H; [reflexivity|].
  cbn [mbind list_bind]. rewrite (H x) by apply list_elem_of_here.
  rewrite IH; [reflexivity|]. intros y Hy. apply H, list_elem_of_further, Hy.
Qed.

Section AcyclicTrace.
Variable by_pk : gmap string row.
Variable rank : string -> nat.
Hypothesis rank_parents :
  forall k p, p ∈ parents strip by_pk k -> (rank p < rank k)%nat.

(** Beyond the depth of the data a larger bound records nothing more. *)
Lemma trace_beyond {T} M M' node gen path (sd : T) :
  gen + depth_spec strip by_pk ∅ node <= M ->
  gen + depth_spec strip by_pk ∅ node <= M' ->
  trace strip by_pk M node gen path sd = trace strip by_pk M' node gen path sd.
Proof.
  remember (rank node) as n eqn:En. revert node gen path En.
  induction n as [n IH] using lt_wf_ind. intros node gen path -> HM HM'.
  pose proof (depth_spec_nonneg strip by_pk ∅ node) as Hnn.
  rewrite (trace_equation_1 strip by_pk M), (trace_equation_1 strip by_pk M').
  rewrite !(bool_decide_eq_false_2 (_ < gen)) by lia.
  destruct (bool_decide (node ∈ path)); [reflexivity|].
  cbv zeta. f_equal.
  destruct (Z_lt_dec gen M) as [Hlt|Hge], (Z_lt_dec gen M') as [Hlt'|Hge'].
  - apply bind_ext_in. intros p Hp.
    pose proof (depth_spec_parent strip by_pk rank rank_parents node p Hp).
    apply (IH (rank p) (rank_parents node p Hp) p (gen + 1) _ eq_refl); lia.
  - rewrite (depth_spec_no_parents strip by_pk rank rank_parents node) by lia.
    reflexivity.
  - rewrite (depth_spec_no_parents strip by_pk rank rank_parents node) by lia.
    reflexivity.
  - reflexivity.
Qed.

Lemma all_occurrences_beyond {T} (sire_tag dam_tag : T) pk M M' :
  depth_spec strip by_pk ∅ pk <= M ->
  depth_spec strip by_pk ∅ pk <= M' ->
  all_occurrences strip sire_tag dam_tag pk by_pk M =
  all_occurrences strip sire_tag dam_tag pk by_pk M'.
Proof.
  intros HM HM'. unfold all_occurrences.
  destruct (by_pk !! pk) as [data|] eqn:Hdata; [|reflexivity].
  destruct (decide (data = ∅)); [reflexivity|].
  f_equal.
  - destruct (decide (field strip data "Sire" = "")) as [|Hs]; [reflexivity|].
    pose proof (depth_spec_parent strip by_pk rank rank_parents pk _
                  (parents_sire strip by_pk pk data Hdata Hs)).
    apply trace_beyond; lia.
  - destruct (decide (field strip data "Dam" = "")) as [|Hd]; [reflexivity|].
    pose proof (depth_spec_parent strip by_pk rank rank_parents pk _
                  (parents_dam strip by_pk pk data Hdata Hd)).
    apply trace_beyond; lia.
Qed.

End AcyclicTrace.

(** In a store without cyclic parentage clamping the requested bound
    changes nothing of the report: [collect_inbreeding] returns for the
    clamped bound what it returns for the requested one. *)
Theorem clamp_depth_keeps_report pk by_pk M c :
  acyclic strip by_pk ->
  clamp_depth strip pk by_pk (Some M) = Ok c ->
  collect_inbreeding strip pk by_pk c = collect_inbreeding strip pk by_pk M /\
  collect_inbreeding_image strip pk by_pk c =
    collect_inbreeding_image strip pk by_pk M.
Proof.
  intros (rank & Hrank) Hc. unfold clamp_depth in Hc.
  rewrite (compute_max_depth_acyclic strip by_pk rank Hrank) in Hc.
  cbn [mbind outcome_bind] in Hc. injection Hc as <-.
  pose proof (depth_spec_nonneg strip by_pk ∅ pk) as Hnn.
  rewrite !collect_inbreeding_of_trace, !collect_inbreeding_image_of_trace.
  set (d := depth_spec strip by_pk ∅ pk) in *.
  destruct (Z_le_gt_dec M 0) as [H0|Hpos].
  - rewrite !(all_occurrences_no_bound _ _ pk by_pk M) by exact H0.
    rewrite !(all_occurrences_no_bound _ _ pk by_pk (Z.max 0 (Z.min d M)))
      by lia.
    split; reflexivity.
  - destruct (Z_le_gt_dec M d) as [Hle|Hgt].
    + replace (Z.max 0 (Z.min d M)) with M by lia. split; reflexivity.
    + replace (Z.max 0 (Z.min d M)) with d by lia.
      rewrite !(all_occurrences_beyond by_pk rank Hrank _ _ pk d M)
        by (unfold d; lia).
      split; reflexivity.
Qed.

End AnalyzerMore.

Lemma clamp_depth_keeps_report_witness :
  either_sum (fun sum_mode =>
  acyclic ascii_strip store_2x2 /\
  clamp_depth ascii_strip "S" store_2x2 (Some 9) = Ok 3 /\
  collect_inbreeding ascii_strip "S" store_2x2 3 =
    collect_inbreeding ascii_strip "S" store_2x2 9 /\
  collect_inbreeding_image ascii_strip "S" store_2x2 3 =
    collect_inbreeding_image ascii_strip "S" store_2x2 9).
Proof.
  both_sums ltac:(fun m =>
    split; [exact store_2x2_acyclic|]; split; [vm_compute; reflexivity|];
    apply (clamp_depth_keeps_report (sum_mode := m)
             ascii_strip "S" store_2x2 9 3);
      [exact store_2x2_acyclic | vm_compute; reflexivity]).
Defined.

Lemma collect_inbreeding_nothing_to_walk_witness :
  either_sum (fun sum_mode =>
  (0 <= 0 \/ top_parents ascii_strip store_2x2 "S" = []) /\
  collect_inbreeding ascii_strip "S" store_2x2 0 = Ok ([], ∅) /\
  collect_inbreeding_image ascii_strip "S" store_2x2 0 = Ok ([], ∅, [])).
Proof.
  both_sums ltac:(fun m =>
    split; [left; lia|];
    apply (collect_inbreeding_nothing_to_walk (sum_mode := m)
             ascii_strip "S" store_2x2 0);
    left; lia).
Defined.

(** ** What the report keeps *)

Section Report.
Context {sum_mode : SumMode}.
Variable strip : string -> string.

Lemma chain_take by_pk k l n :
  chain strip by_pk k l -> chain strip by_pk k (take n l).
Proof.
  revert k n. induction l as [|p l IH]; intros k n Hc.
  - now rewrite take_nil.
  - destruct n as [|n]; [exact I|]. destruct Hc as [Hp Hc].
    cbn [take chain]. split; [exact Hp|]. apply IH, Hc.
Qed.

(** The part of an ancestor path up to one of its identifiers is an
    ancestor path. *)
Lemma ancestor_path_take by_pk pk M p i b :
  ancestor_path strip by_pk pk M p -> p !! i = Some b ->
  ancestor_path strip by_pk pk M (take (S i) p) /\
  last (take (S i) p) = Some b /\
  length (take (S i) p) = S i.
Proof.
  intros (f & sfx & -> & Hf & Hc & Hnd & Hle) Hi.
  pose proof (lookup_lt_Some _ _ _ Hi) as Hlt.
  split_and!.
  - exists f, (take i sfx). split_and!; auto.
    + apply chain_take, Hc.
    + eapply sublist_NoDup; [exact Hnd|]. apply (sublist_take _ (S i)).
    + change (f :: take i sfx) with (take (S i) (f :: sfx)).
      rewrite length_take. lia.
  - rewrite (take_S_r _ _ _ Hi). apply last_snoc.
  - apply length_take_le. lia.
Qed.

(** A subsumed ancestor and the one that subsumes it, in terms of the
    recorded occurrences. *)
Lemma subsumer_shallower pk by_pk M :
  exists occs sub,
    walk_parents strip tt tt pk by_pk M = Ok occs /\
    collect_inbreeding strip pk by_pk M = Ok (aggregate occs, sub) /\
    NoDup (dict_keys occs) /\
    (forall a l o, dict_get occs a = Some l -> o ∈ l -> 1 <= gen o <= M) /\
    forall A, A ∈ sub ->
      exists B lB, B <> A /\ dict_get occs B = Some lB /\
        (2 <= length lB)%nat /\
        forall lA oA, dict_get occs A = Some lA -> oA ∈ lA ->
          exists oB, oB ∈ lB /\ gen oB < gen oA /\
                     path oB `prefix_of` path oA.
Proof.
  destruct (collect_core_spec strip tt tt pk by_pk M)
    as (occs & Hw & Hnd & Hsound & Hcompl & _ & _ & Hu).
  destruct (compute_subsumed_spec (aggregate occs) Hu) as (sub & Hs & Hsub).
  exists occs, sub. split_and!; auto.
  - exact (collect_inbreeding_unfold strip pk by_pk M occs sub Hw Hs).
  - intros a l o Hl Ho.
    destruct (Hsound a l o Hl Ho)
      as ((f & sfx & Ep & _ & _ & _ & Hle) & _ & Hg & _).
    rewrite Hg, Ep in *. cbn [length] in *. lia.
  - intros A (B & HB & Hne & e & He & Hall)%Hsub.
    apply (aggregate_Some occs A e Hnd) in He as (lA & HlA & _ & ->).
    apply dict_keys_is_Some in HB as (eB & HeB).
    apply (aggregate_Some occs B eB Hnd) in HeB as (lB & HlB & HnB & _).
    exists B, lB. split_and!; auto.
    intros lA' oA HlA' HoA. rewrite HlA in HlA'. injection HlA' as <-.
    rewrite Forall_forall in Hall.
    destruct (Hall (path oA)) as (i & j & Hi & Hj & Hij).
    { cbn [entry_of paths]. apply list_elem_of_fmap. eauto. }
    destruct (Hsound A lA oA HlA HoA) as (Hp & _ & HgA & _).
    pose proof (ancestor_path_NoDup strip by_pk pk M _ Hp) as HndA.
    assert (i <> j).
    { intros ->. rewrite Hi in Hj. congruence. }
    pose proof (lookup_lt_Some _ _ _ Hj) as Hjl.
    destruct (ancestor_path_take by_pk pk M _ i B Hp Hi) as (Hq & Hlast & Hlen).
    destruct (Hcompl _ B Hq Hlast) as (l & oB & Hl & HoB & Eq).
    rewrite HlB in Hl. injection Hl as <-.
    destruct (Hsound B lB oB HlB HoB) as (_ & _ & HgB & _).
    exists oB. split_and!; [exact HoB| |].
    + rewrite HgB, HgA, Eq, Hlen. lia.
    + rewrite Eq. apply prefix_take.
Qed.

(** Whoever subsumes an ancestor is strictly shallower on each of its
    paths: every recorded path of a subsumed ancestor [A] starts with a
    recorded, shorter path of one and the same other repeated ancestor. *)
Theorem subsumed_by_shallower pk by_pk M :
  exists occurrences inbred subsumed,
    walk_parents strip tt tt pk by_pk M = Ok occurrences /\
    collect_inbreeding strip pk by_pk M = Ok (inbred, subsumed) /\
    forall A, A ∈ subsumed ->
      exists B lB, B <> A /\ dict_get occurrences B = Some lB /\
        (2 <= length lB)%nat /\
        forall lA oA, dict_get occurrences A = Some lA -> oA ∈ lA ->
          exists oB, oB ∈ lB /\ gen oB < gen oA /\
                     path oB `prefix_of` path oA.
Proof.
  destruct (subsumer_shallower pk by_pk M) as (occs & sub & Hw & Hc & _ & _ & H).
  exists occs, (aggregate occs), sub. auto.
Qed.

(** Subsumption never empties the report: when the map holds a repeated
    ancestor, at least one ancestor is reported. *)
Theorem report_nonempty pk by_pk M :
  exists inbred subsumed,
    collect_inbreeding strip pk by_pk M = Ok (inbred, subsumed) /\
    (inbred <> [] -> exists A, A ∈ inbred_pks inbred subsumed).
Proof.
  destruct (subsumer_shallower pk by_pk M)
    as (occs & sub & Hw & Hc & Hnd & Hgen & Hsh).
  exists (aggregate occs), sub. split; [exact Hc|].
  assert (Hdesc : forall n A lA oA,
    dict_get occs A = Some lA -> (2 <= length lA)%nat -> oA ∈ lA ->
    gen oA <= Z.of_nat n ->
    exists C, C ∈ inbred_pks (aggregate occs) sub).
  { induction n as [|n IH]; intros A lA oA HlA HnA HoA Hg.
    - destruct (Hgen A lA oA HlA HoA). lia.
    - destruct (decide (A ∈ sub)) as [Hin|Hout].
      + destruct (Hsh A Hin) as (B & lB & _ & HlB & HnB & Hall).
        destruct (Hall lA oA HlA HoA) as (oB & HoB & Hlt & _).
        apply (IH B lB oB HlB HnB HoB). lia.
      + exists A. unfold inbred_pks.
        rewrite elem_of_difference, elem_of_list_to_set. split; [|exact Hout].
        apply dict_keys_is_Some. exists (entry_of lA).
        apply (aggregate_Some occs A _ Hnd). eauto. }
  assert (Hkey : forall A e, dict_get (aggregate occs) A = Some e ->
            exists C, C ∈ inbred_pks (aggregate occs) sub).
  { intros A e (lA & HlA & HnA & _)%(aggregate_Some occs A e Hnd).
    destruct lA as [|oA lA']; [cbn in HnA; lia|].
    apply (Hdesc (Z.to_nat (gen oA)) A (oA :: lA') oA HlA HnA).
    - apply list_elem_of_here.
    - destruct (Hgen A _ oA HlA (list_elem_of_here _ _)). lia. }
  intros Hne. destruct (aggregate occs) as [|[A e] rest]; [congruence|].
  apply (Hkey A e). cbn [dict_get]. now rewrite decide_True.
Qed.

(** The entries of the map are consistent: the generations are listed
    deepest first, there are as many as paths, at least two, each between
    1 and the bound, and they are the lengths of the paths; every path
    ends in the ancestor and passes no identifier twice. *)
Theorem inbred_entries_consistent pk by_pk M :
  exists inbred subsumed,
    collect_inbreeding strip pk by_pk M = Ok (inbred, subsumed) /\
    forall a e, dict_get inbred a = Some e ->
      Sorted Z.ge (gens e) /\
      gens e ≡ₚ (fun p => Z.of_nat (length p)) <$> paths e /\
      (2 <= length (paths e))%nat /\
      (forall g, g ∈ gens e -> 1 <= g <= M) /\
      (forall p, p ∈ paths e -> last p = Some a /\ NoDup p).
Proof.
  destruct (collect_core_spec strip tt tt pk by_pk M)
    as (occs & Hw & Hnd & Hsound & _ & _ & _ & Hu).
  destruct (compute_subsumed_spec (aggregate occs) Hu) as (sub & Hs & _).
  exists (aggregate occs), sub.
  split; [exact (collect_inbreeding_unfold strip pk by_pk M occs sub Hw Hs)|].
  intros a e (l & Hl & Hn & ->)%(aggregate_Some occs a e Hnd).
  cbn [entry_of gens paths]. unfold sorted_reverse.
  assert (Hlen : gen <$> l = (fun p => Z.of_nat (length p)) <$> (path <$> l)).
  { rewrite <- list_fmap_compose. apply list_fmap_ext. intros i o Ho.
    apply list_elem_of_lookup_2 in Ho.
    destruct (Hsound a l o Hl Ho) as (_ & _ & Hg & _). exact Hg. }
  split_and!.
  - apply Sorted_merge_sort. apply _.
  - rewrite merge_sort_Permutation. now rewrite Hlen.
  - now rewrite length_fmap.
  - intros g Hg. rewrite merge_sort_Permutation in Hg.
    apply list_elem_of_fmap in Hg as (o & -> & Ho).
    destruct (Hsound a l o Hl Ho)
      as ((f & sfx & Ep & _ & _ & _ & Hle) & _ & Hg & _).
    rewrite Hg, Ep in *. cbn [length] in *. lia.
  - intros p (o & -> & Ho)%list_elem_of_fmap.
    destruct (Hsound a l o Hl Ho) as (Hp & Hlast & _).
    split; [exact Hlast|]. eapply ancestor_path_NoDup, Hp.
Qed.

End Report.

(** ** The sheet of [write_excel] *)

Section Sheet.
Context {sum_mode : SumMode}.
Variable strip upper : string -> string.
Variable by_pk : gmap string row.
Variable max_depth : Z.
Variable inbred_pks : gset string.

#[local] Abbreviation place :=
  (place_node strip upper by_pk max_depth inbred_pks).
#[local] Abbreviation own := (node_ops strip upper by_pk inbred_pks).
#[local] Abbreviation plain := (MakePedigree.plain strip by_pk).

Lemma parents_nil k d :
  by_pk !! k = Some d ->
  parents strip by_pk k = [] <->
  field strip d "Sire" = "" /\ field strip d "Dam" = "".
Proof.
  intros Hd. unfold parents. rewrite Hd.
  destruct (decide (field strip d "Sire" = "")) as [->|];
    destruct (decide (field strip d "Dam" = "")) as [->|]; cbn;
    split; try tauto; try discriminate; intros [? ?]; congruence.
Qed.

Lemma outcome_bind_assoc {A B C} (m : outcome A) (f : A -> outcome B)
    (g : B -> outcome C) :
  (m ≫= f) ≫= g = m ≫= fun x => f x ≫= g.
Proof. destruct m; reflexivity. Qed.

Lemma place_node_unfold node gen rs re ops V :
  place node gen rs re (ops, V) =
    let ops0 := ops ++ own node gen rs re V in
    match by_pk !! node with
    | None => Ok (ops0, V)
    | Some d =>
        match Z_lt_dec gen (max_depth - 1) with
        | right _ => Ok (ops0, V)
        | left _ =>
            let sire := field strip d "Sire" in
            let dam := field strip d "Dam" in
            if decide (sire = "" /\ dam = "") then Ok (ops0, V)
            else
              let mid := (rs + re) `div` 2 in
              st ← (if decide (sire = "") then Ok (ops0, {[node]} ∪ V)
                    else place sire (gen + 1) rs mid (ops0, {[node]} ∪ V));
              st ← (if decide (dam = "") then Ok st
                    else place dam (gen + 1) (mid + 1) re st);
              visiting ← set_remove node st.2;
              Ok (st.1, visiting)
        end
    end.
Proof.
  rewrite place_node_equation_1. unfold node_ops. cbv zeta. cbn [fst snd].
  destruct (bool_decide (rs < re)); rewrite <- ?app_assoc; reflexivity.
Qed.

Lemma place_node_leaf node gen rs re ops V :
  by_pk !! node = None \/ max_depth - 1 <= gen \/
    parents strip by_pk node = [] ->
  place node gen rs re (ops, V) = Ok (ops ++ own node gen rs re V, V).
Proof.
  intros Hleaf. rewrite place_node_unfold. cbv zeta.
  destruct (by_pk !! node) as [d|] eqn:Hd; [|reflexivity].
  destruct (Z_lt_dec gen (max_depth - 1)) as [Hlt|]; [|reflexivity].
  destruct Hleaf as [?|[?|Hp]]; [discriminate|lia|].
  apply (parents_nil node d Hd) in Hp.
  now rewrite decide_True.
Qed.

Lemma place_node_expand node gen rs re ops V d :
  by_pk !! node = Some d -> gen < max_depth - 1 ->
  parents strip by_pk node <> [] ->
  place node gen rs re (ops, V) =
    (let st0 := (ops ++ own node gen rs re V, {[node]} ∪ V) in
     let mid := (rs + re) `div` 2 in
     st ← (if decide (field strip d "Sire" = "") then Ok st0
           else place (field strip d "Sire") (gen + 1) rs mid st0);
     st ← (if decide (field strip d "Dam" = "") then Ok st
           else place (field strip d "Dam") (gen + 1) (mid + 1) re st);
     visiting ← set_remove node st.2;
     Ok (st.1, visiting)).
Proof.
  intros Hd Hlt Hp. rewrite place_node_unfold. cbv zeta. rewrite Hd.
  destruct (Z_lt_dec gen (max_depth - 1)); [|lia].
  rewrite decide_False; [reflexivity|].
  intros H. apply Hp. now apply (parents_nil node d Hd).
Qed.

(** Induction over the calls of [place_node]. *)
Lemma place_node_calls
    (P : string -> Z -> Z -> Z -> SheetState -> outcome SheetState -> Prop) :
  (forall node gen rs re ops V,
     by_pk !! node = None \/ max_depth - 1 <= gen \/
       parents strip by_pk node = [] ->
     P node gen rs re (ops, V) (Ok (ops ++ own node gen rs re V, V))) ->
  (forall node gen rs re ops V d r1 r2,
     by_pk !! node = Some d -> gen < max_depth - 1 ->
     parents strip by_pk node <> [] ->
     let st0 := (ops ++ own node gen rs re V, {[node]} ∪ V) in
     let mid := (rs + re) `div` 2 in
     let sire := field strip d "Sire" in
     let dam := field strip d "Dam" in
     (sire = "" /\ r1 = Ok st0 \/
      sire <> "" /\ sire ∈ parents strip by_pk node /\
        r1 = place sire (gen + 1) rs mid st0 /\
        P sire (gen + 1) rs mid st0 r1) ->
     (forall st1, r1 = Ok st1 ->
        dam = "" /\ r2 = Ok st1 \/
        dam <> "" /\ dam ∈ parents strip by_pk node /\
          r2 = place dam (gen + 1) (mid + 1) re st1 /\
          P dam (gen + 1) (mid + 1) re st1 r2) ->
     (forall e, r1 = Raised e -> r2 = Raised e) ->
     (r1 = OutOfFuel -> r2 = OutOfFuel) ->
     P node gen rs re (ops, V)
       (st ← r2; visiting ← set_remove node st.2; Ok (st.1, visiting))) ->
  forall node gen rs re st, P node gen rs re st (place node gen rs re st).
Proof.
  intros Hleaf Hexp node gen rs re st.
  remember (Z.to_nat (max_depth - 1 - gen)) as n eqn:Hn.
  revert node gen rs re st Hn.
  induction n as [n IH] using lt_wf_ind. intros node gen rs re [ops V] Hn.
  destruct (by_pk !! node) as [d|] eqn:Hd;
    [|rewrite place_node_leaf by auto; apply Hleaf; auto].
  destruct (Z_lt_dec gen (max_depth - 1)) as [Hlt|];
    [|rewrite place_node_leaf by (right; left; lia); apply Hleaf; right; left; lia].
  destruct (decide (parents strip by_pk node = [])) as [Hp|Hp];
    [rewrite place_node_leaf by auto; apply Hleaf; auto|].
  rewrite (place_node_expand node gen rs re ops V d Hd Hlt Hp). cbv zeta.
  rewrite <- outcome_bind_assoc.
  set (st0 := (ops ++ own node gen rs re V, {[node]} ∪ V)).
  set (mid := (rs + re) `div` 2).
  match goal with
  | |- P _ _ _ _ _ ((?a ≫= ?f) ≫= _) => set (r1 := a); set (r2 := r1 ≫= f)
  end.
  assert (Hsire : field strip d "Sire" <> "" ->
            field strip d "Sire" ∈ parents strip by_pk node).
  { intros H. unfold parents. rewrite Hd.
    rewrite (decide_False (P := field strip d "Sire" = "")) by exact H.
    apply elem_of_app. left. apply list_elem_of_here. }
  assert (Hdam : field strip d "Dam" <> "" ->
            field strip d "Dam" ∈ parents strip by_pk node).
  { intros H. unfold parents. rewrite Hd.
    rewrite (decide_False (P := field strip d "Dam" = "")) by exact H.
    apply elem_of_app. right. apply list_elem_of_here. }
  apply (Hexp node gen rs re ops V d r1 r2 Hd Hlt Hp).
  - unfold r1. destruct (decide (field strip d "Sire" = "")) as [E|E].
    + left. auto.
    + right. split_and!; auto.
      apply (IH (Z.to_nat (max_depth - 1 - (gen + 1)))); [lia|reflexivity].
  - intros st1 E1. unfold r2. rewrite E1. cbn [mbind outcome_bind].
    destruct (decide (field strip d "Dam" = "")) as [E|E].
    + left. auto.
    + right. split_and!; auto.
      apply (IH (Z.to_nat (max_depth - 1 - (gen + 1)))); [lia|reflexivity].
  - intros e E1. unfold r2. now rewrite E1.
  - intros E1. unfold r2. now rewrite E1.
Qed.

Lemma place_node_shape node gen rs re st :
  shape st (place node gen rs re st).
Proof.
  apply (place_node_calls (fun _ _ _ _ st r => shape st r)); clear.
  - intros node gen rs re ops V _. cbn. split; [set_solver|eauto].
  - intros node gen rs re ops V d r1 r2 _ _ _ st0 mid sire dam H1 H2 HR HF.
    assert (S1 : shape st0 r1).
    { destruct H1 as [[_ ->]|(_ & _ & _ & H)]; [|exact H].
      cbn. split; [set_solver|]. exists []. now rewrite app_nil_r. }
    destruct r1 as [st1|e|]; cbn in S1; [|subst e|tauto].
    + destruct S1 as [Hsub1 [n1 Hn1]].
      assert (S2 : shape st1 r2).
      { destruct (H2 st1 eq_refl) as [[_ ->]|(_ & _ & _ & H)]; [|exact H].
        cbn. split; [set_solver|]. exists []. now rewrite app_nil_r. }
      destruct r2 as [st2|e|]; cbn in S2; [|subst e; reflexivity|tauto].
      destruct S2 as [Hsub2 [n2 Hn2]]. cbn [mbind outcome_bind].
      unfold set_remove. destruct (decide (node ∈ st2.2)); [|reflexivity].
      cbn. split.
      * subst st0. cbn in Hsub1. set_solver.
      * exists (own node gen rs re V ++ n1 ++ n2).
        rewrite Hn2, Hn1. subst st0. cbn. now rewrite <- !app_assoc.
    + rewrite (HR _ eq_refl). reflexivity.
Qed.

Lemma place_node_Ok_subseteq node gen rs re st st' :
  place node gen rs re st = Ok st' -> st'.2 ⊆ st.2.
Proof.
  intros E. pose proof (place_node_shape node gen rs re st) as H.
  rewrite E in H. apply H.
Qed.

(** ** The layout of the sheet *)

Lemma separate_app l1 l2 :
  separate l1 -> separate l2 ->
  (forall op1 op2 r c, op1 ∈ l1 -> op2 ∈ l2 ->
     covers op1 r c -> covers op2 r c -> anchored op1 op2) ->
  separate (l1 ++ l2).
Proof.
  induction l1 as [|op l1 IH]; intros H1 H2 H; [exact H2|].
  destruct H1 as [Hop H1]. cbn. split.
  - intros op' r c [Hin|Hin]%elem_of_app Ht Ht'.
    + now apply (Hop op' r c).
    + apply (H op op' r c);
        [apply list_elem_of_here|exact Hin|exact Ht|exact Ht'].
  - apply IH; auto. intros op1 op2 r c Hin1. apply H.
    now apply list_elem_of_further.
Qed.

Lemma separate_lookup ops : separate ops ->
  forall i j op1 op2 r c, (i < j)%nat ->
    ops !! i = Some op1 -> ops !! j = Some op2 ->
    covers op1 r c -> covers op2 r c -> anchored op1 op2.
Proof.
  induction ops as [|op ops IH]; intros Hsep i j op1 op2 r c Hij H1 H2.
  - discriminate.
  - destruct Hsep as [Hop Hs].
    destruct j as [|j]; [lia|]. cbn in H2. destruct i as [|i].
    + injection H1 as <-. apply Hop. eapply list_elem_of_lookup_2, H2.
    + cbn in H1. apply (IH Hs i j); auto. lia.
Qed.

Lemma half_spans gen rs re :
  0 <= gen < max_depth - 1 ->
  re - rs + 1 = 2 ^ (max_depth - 1 - gen) ->
  (rs + re) `div` 2 - rs + 1 = 2 ^ (max_depth - 1 - (gen + 1)) /\
  re - ((rs + re) `div` 2 + 1) + 1 = 2 ^ (max_depth - 1 - (gen + 1)) /\
  0 < 2 ^ (max_depth - 1 - (gen + 1)).
Proof.
  intros Hg Hlen.
  replace (max_depth - 1 - gen) with (Z.succ (max_depth - 1 - (gen + 1)))
    in Hlen by lia.
  rewrite Z.pow_succ_r in Hlen by lia.
  assert (0 < 2 ^ (max_depth - 1 - (gen + 1))) by (apply Z.pow_pos_nonneg; lia).
  assert ((rs + re) `div` 2 = rs + 2 ^ (max_depth - 1 - (gen + 1)) - 1) as ->
    by (symmetry; apply (Z.div_unique _ _ _ 1); lia).
  lia.
Qed.

Lemma own_layout node gen rs re V :
  0 <= gen <= max_depth - 1 ->
  re - rs + 1 = 2 ^ (max_depth - 1 - gen) ->
  Forall (within max_depth gen rs re) (own node gen rs re V) /\
  separate (own node gen rs re V) /\
  Forall (well_sized max_depth) (own node gen rs re V) /\
  forall op r c, op ∈ own node gen rs re V -> covers op r c -> c = gen + 1.
Proof.
  intros Hg Hlen.
  assert (0 < 2 ^ (max_depth - 1 - gen)) by (apply Z.pow_pos_nonneg; lia).
  unfold node_ops. cbv zeta.
  destruct (bool_decide (rs < re)) eqn:Hlt.
  - apply bool_decide_eq_true in Hlt. split_and!.
    + repeat constructor; cbn in *; lia.
    + cbn. split_and!; auto.
      * intros op' r c ->%list_elem_of_singleton [-> ->] _. cbn. auto.
      * intros op' r c Hin. inversion Hin.
    + constructor; [exact I|]. constructor; [|constructor].
      cbn. split_and!; [reflexivity|lia|].
      replace (max_depth - (gen + 1)) with (max_depth - 1 - gen) by lia. lia.
    + intros op r c Hin Ht.
      apply elem_of_cons in Hin as [->|Hin];
        [|apply list_elem_of_singleton in Hin as ->]; cbn in Ht; lia.
  - apply bool_decide_eq_false in Hlt. split_and!.
    + repeat constructor; cbn in *; lia.
    + cbn. split_and!; auto. intros op' r c Hin. inversion Hin.
    + repeat constructor.
    + intros op r c ->%list_elem_of_singleton Ht. cbn in Ht. lia.
Qed.

Lemma place_node_layout node gen rs re st st' :
  0 <= gen <= max_depth - 1 ->
  re - rs + 1 = 2 ^ (max_depth - 1 - gen) ->
  place node gen rs re st = Ok st' ->
  exists new, st'.1 = st.1 ++ new /\
    Forall (within max_depth gen rs re) new /\
    separate new /\ Forall (well_sized max_depth) new.
Proof.
  revert st'.
  apply (place_node_calls (fun node gen rs re st r =>
    forall st', 0 <= gen <= max_depth - 1 ->
    re - rs + 1 = 2 ^ (max_depth - 1 - gen) ->
    r = Ok st' ->
    exists new, st'.1 = st.1 ++ new /\
      Forall (within max_depth gen rs re) new /\
      separate new /\ Forall (well_sized max_depth) new)); clear.
  - intros node gen rs re ops V _ st' Hg Hlen [= <-].
    destruct (own_layout node gen rs re V Hg Hlen) as (? & ? & ? & _).
    cbn. eauto.
  - intros node gen rs re ops V d r1 r2 _ Hlt _ st0 mid sire dam H1 H2 HR HF
      st' Hg Hlen Hrun.
    destruct (own_layout node gen rs re V Hg Hlen) as (Ow & Od & Os & Oc).
    destruct (half_spans gen rs re ltac:(lia) Hlen) as (Hs & Hd & Hpos).
    fold mid in Hs, Hd.
    assert (L1 : forall st1, r1 = Ok st1 ->
      exists n1, st1.1 = st0.1 ++ n1 /\
        Forall (within max_depth (gen + 1) rs mid) n1 /\
        separate n1 /\ Forall (well_sized max_depth) n1).
    { intros st1 E1. destruct H1 as [[_ E]|(_ & _ & _ & H)].
      - rewrite E in E1. injection E1 as <-. exists [].
        rewrite app_nil_r. cbn. auto.
      - apply (H st1); auto. lia. }
    destruct r1 as [st1|e|]; [|now rewrite (HR _ eq_refl) in Hrun|
                               now rewrite (HF eq_refl) in Hrun].
    destruct (L1 st1 eq_refl) as (n1 & En1 & W1 & D1 & S1).
    assert (L2 : forall st2, r2 = Ok st2 ->
      exists n2, st2.1 = st1.1 ++ n2 /\
        Forall (within max_depth (gen + 1) (mid + 1) re) n2 /\
        separate n2 /\ Forall (well_sized max_depth) n2).
    { intros st2 E2. destruct (H2 st1 eq_refl) as [[_ E]|(_ & _ & _ & H)].
      - rewrite E in E2. injection E2 as <-. exists [].
        rewrite app_nil_r. cbn. auto.
      - apply (H st2); auto. lia. }
    destruct r2 as [st2|e|]; [|discriminate|discriminate].
    destruct (L2 st2 eq_refl) as (n2 & En2 & W2 & D2 & S2).
    cbn [mbind outcome_bind] in Hrun. unfold set_remove in Hrun.
    destruct (decide (node ∈ st2.2)); [|discriminate].
    cbn in Hrun. injection Hrun as <-. cbn [fst].
    exists (own node gen rs re V ++ n1 ++ n2). split_and!.
    + rewrite En2, En1. subst st0. cbn. now rewrite <- !app_assoc.
    + rewrite !Forall_app. split_and!; [exact Ow| |].
      * eapply Forall_impl; [exact W1|]. intros op Hw r c Ht.
        specialize (Hw r c Ht). lia.
      * eapply Forall_impl; [exact W2|]. intros op Hw r c Ht.
        specialize (Hw r c Ht). lia.
    + apply separate_app; [exact Od| |].
      * apply separate_app; [exact D1|exact D2|].
        intros op1 op2 r c Hin1 Hin2 Ht1 Ht2. exfalso.
        rewrite Forall_forall in W1, W2.
        specialize (W1 op1 Hin1 r c Ht1). specialize (W2 op2 Hin2 r c Ht2).
        lia.
      * intros op1 op2 r c Hin1 Hin2 Ht1 Ht2. exfalso.
        specialize (Oc op1 r c Hin1 Ht1).
        rewrite Forall_forall in W1, W2.
        apply elem_of_app in Hin2 as [Hin2|Hin2];
          [specialize (W1 op2 Hin2 r c Ht2)|specialize (W2 op2 Hin2 r c Ht2)];
          lia.
    + rewrite !Forall_app. auto.
Qed.

(** ** Stores without cyclic parentage *)

Lemma place_node_ranked (rank : string -> nat) node gen rs re st :
  (forall k p, p ∈ parents strip by_pk k -> (rank p < rank k)%nat) ->
  (forall v, v ∈ st.2 -> (rank node < rank v)%nat) ->
  exists new, place node gen rs re st = Ok (st.1 ++ new, st.2).
Proof.
  intros Hrank.
  apply (place_node_calls (fun node gen rs re st r =>
    (forall v, v ∈ st.2 -> (rank node < rank v)%nat) ->
    exists new, r = Ok (st.1 ++ new, st.2))); clear - Hrank.
  - intros node gen rs re ops V _ _. cbn. eauto.
  - intros node gen rs re ops V d r1 r2 _ _ _ st0 mid sire dam H1 H2 _ _ HV.
    cbn [fst snd] in HV.
    assert (Hup : forall p v, p ∈ parents strip by_pk node ->
              v ∈ st0.2 -> (rank p < rank v)%nat).
    { intros p v Hp Hv. subst st0. cbn [snd] in Hv.
      apply elem_of_union in Hv as [->%elem_of_singleton|Hv].
      - now apply Hrank.
      - specialize (Hrank _ _ Hp). specialize (HV _ Hv). lia. }
    assert (E1 : exists n1, r1 = Ok (st0.1 ++ n1, st0.2)).
    { destruct H1 as [[_ ->]|(_ & Hp & _ & H)].
      - exists []. rewrite app_nil_r. now destruct st0.
      - apply H. intros v. now apply Hup. }
    destruct E1 as [n1 E1].
    assert (E2 : exists n2, r2 = Ok ((st0.1 ++ n1) ++ n2, st0.2)).
    { destruct (H2 _ E1) as [[_ ->]|(_ & Hp & _ & H)].
      - exists []. now rewrite app_nil_r.
      - apply H. intros v. now apply Hup. }
    destruct E2 as [n2 ->]. subst st0. cbn [mbind outcome_bind fst snd].
    unfold set_remove. rewrite decide_True by set_solver.
    cbn [mbind outcome_bind].
    exists (own node gen rs re V ++ n1 ++ n2). f_equal. f_equal.
    + now rewrite <- !app_assoc.
    + assert (node ∉ V) by (intros Hin; specialize (HV _ Hin); lia).
      set_solver.
Qed.

(** ** Cyclic parentage *)

(** A call that visits the parents of [X] leaves [X] out of [visiting]. *)
Lemma place_node_removes X d gen rs re st st' :
  by_pk !! X = Some d -> gen < max_depth - 1 ->
  parents strip by_pk X <> [] ->
  place X gen rs re st = Ok st' -> X ∉ st'.2.
Proof.
  intros Hd Hlt Hp. destruct st as [ops V].
  rewrite (place_node_expand X gen rs re ops V d Hd Hlt Hp). cbv zeta.
  destruct (if decide (field strip d "Sire" = "") then _ else _)
    as [st1| |]; [|discriminate|discriminate].
  cbn [mbind outcome_bind].
  destruct (if decide (field strip d "Dam" = "") then _ else _)
    as [st2| |]; [|discriminate|discriminate].
  cbn [mbind outcome_bind]. unfold set_remove.
  destruct (decide (X ∈ st2.2)); [|discriminate].
  cbn. intros [= <-]. cbn. set_solver.
Qed.

(** Once a parent's call has dropped [X] from [visiting], [X] is still
    out of it when both parents are done. *)
Lemma after_parents X p q d gen rs re st0 st2 :
  by_pk !! p = Some d -> q ∈ parents strip by_pk p ->
  (forall rs re st st',
     place q (gen + 1) rs re st = Ok st' -> X ∉ st'.2) ->
  (st ← (if decide (field strip d "Sire" = "") then Ok st0
         else place (field strip d "Sire") (gen + 1) rs
                ((rs + re) `div` 2) st0);
   if decide (field strip d "Dam" = "") then Ok st
   else place (field strip d "Dam") (gen + 1)
          ((rs + re) `div` 2 + 1) re st) = Ok st2 ->
  X ∉ st2.2.
Proof.
  intros Hd Hq Hcall. unfold parents in Hq. rewrite Hd in Hq.
  destruct (decide (field strip d "Sire" = "")) as [Es|Es];
    destruct (decide (field strip d "Dam" = "")) as [Ed|Ed];
    cbn [mbind outcome_bind app] in *.
  - inversion Hq.
  - apply list_elem_of_singleton in Hq as ->. apply Hcall.
  - apply list_elem_of_singleton in Hq as ->.
    destruct (place _ _ _ _ _) as [st1| |] eqn:E1; [|discriminate..].
    intros [= <-]. eapply Hcall, E1.
  - destruct (place (field strip d "Sire") _ _ _ _) as [st1| |] eqn:E1;
      [|discriminate..].
    cbn [mbind outcome_bind]. intros E2.
    apply elem_of_cons in Hq as [->|Hq].
    + apply Hcall in E1. apply place_node_Ok_subseteq in E2. set_solver.
    + apply list_elem_of_singleton in Hq as ->. eapply Hcall, E2.
Qed.

Lemma parents_record k p :
  p ∈ parents strip by_pk k -> exists d, by_pk !! k = Some d.
Proof.
  unfold parents. destruct (by_pk !! k); [eauto|]. intros H. inversion H.
Qed.

Lemma place_node_on_cycle X l :
  parents strip by_pk X <> [] ->
  forall p gen rs re st st',
    chain strip by_pk p l -> last (p :: l) = Some X ->
    gen + Z.of_nat (length l) < max_depth - 1 ->
    place p gen rs re st = Ok st' -> X ∉ st'.2.
Proof.
  intros HX. induction l as [|q l IH]; intros p gen rs re st st' Hc Hl Hg.
  - cbn in Hl. injection Hl as ->.
    destruct (parents strip by_pk X) as [|p0 ps] eqn:Hp; [congruence|].
    destruct (parents_record X p0) as [d Hd];
      [rewrite Hp; apply list_elem_of_here|].
    apply (place_node_removes X d); auto;
      [cbn in Hg; lia|rewrite Hp; discriminate].
  - destruct Hc as [Hq Hc]. destruct (parents_record p q Hq) as [d Hd].
    destruct st as [ops V]. cbn [length] in Hg.
    rewrite (place_node_expand p gen rs re ops V d Hd) by
      (try lia; intros E; rewrite E in Hq; inversion Hq).
    cbv zeta. rewrite <- outcome_bind_assoc.
    match goal with
    | |- context [(?a ≫= ?f) ≫= _] =>
        destruct (a ≫= f) as [st2| |] eqn:E2; [|discriminate..]
    end.
    cbn [mbind outcome_bind]. unfold set_remove.
    destruct (decide (p ∈ st2.2)); [|discriminate].
    cbn. intros [= <-]. cbn.
    assert (X ∉ st2.2); [|set_solver].
    eapply (after_parents X p q d gen rs re); [exact Hd|exact Hq| |exact E2].
    intros rs' re' st1 st1'. apply IH; auto. lia.
Qed.

(** A horse on a cycle of parent links with enough generations left to
    come round makes [place_node] fail: the inner visit of the horse drops
    it from [visiting], and the outer visit cannot remove it again. *)
Lemma place_node_cycle_raises X l gen rs re st :
  chain strip by_pk X l -> last l = Some X ->
  gen + Z.of_nat (length l) < max_depth - 1 ->
  place X gen rs re st = Raised "KeyError".
Proof.
  intros Hc Hl Hg.
  destruct l as [|q l]; [discriminate|]. destruct Hc as [Hq Hc].
  pose proof (place_node_shape X gen rs re st) as Hshape.
  destruct (place X gen rs re st) as [st'|e|] eqn:Hrun;
    cbn in Hshape; [exfalso|now subst e|tauto].
  destruct (parents_record X q Hq) as [d Hd]. destruct st as [ops V].
  assert (HX : parents strip by_pk X <> [])
    by (intros E; rewrite E in Hq; inversion Hq).
  cbn [length] in Hg.
  rewrite (place_node_expand X gen rs re ops V d Hd) in Hrun by (auto; lia).
  cbv zeta in Hrun. rewrite <- outcome_bind_assoc in Hrun.
  match type of Hrun with
  | context [(?a ≫= ?f) ≫= _] =>
      destruct (a ≫= f) as [st2| |] eqn:E2; [|discriminate..]
  end.
  cbn [mbind outcome_bind] in Hrun. unfold set_remove in Hrun.
  destruct (decide (X ∈ st2.2)) as [Hin|]; [|discriminate].
  revert Hin.
  eapply (after_parents X X q d gen rs re); [exact Hd|exact Hq| |exact E2].
  intros rs' re' st1 st1'. apply (place_node_on_cycle X l HX); auto. lia.
Qed.

(** ** The text of the cells *)

Lemma place_node_plain node gen rs re st st' :
  st.2 ⊆ dom by_pk ->
  place node gen rs re st = Ok st' ->
  exists new, st'.1 = st.1 ++ new /\ Forall plain new.
Proof.
  revert st'.
  apply (place_node_calls (fun node gen rs re st r =>
    forall st', st.2 ⊆ dom by_pk -> r = Ok st' ->
    exists new, st'.1 = st.1 ++ new /\ Forall plain new)); clear.
  all: assert (Hown : forall node gen rs re V, V ⊆ dom by_pk ->
         Forall plain (own node gen rs re V)).
  1, 3: intros node gen rs re V HV; unfold node_ops; cbv zeta;
    constructor;
    [|destruct (bool_decide (rs < re)); repeat constructor];
    exists node; destruct (decide (node ∈ V)) as [Hin|]; [|reflexivity];
    apply HV, elem_of_dom in Hin as [d ->]; reflexivity.
  - intros node gen rs re ops V _ st' HV [= <-]. cbn. eauto.
  - intros node gen rs re ops V d r1 r2 Hd _ _ st0 mid sire dam H1 H2 HR HF
      st' HV Hrun. cbn [fst snd] in HV.
    assert (HV0 : st0.2 ⊆ dom by_pk).
    { subst st0. cbn. apply union_subseteq. split; [|exact HV].
      apply singleton_subseteq_l, elem_of_dom. eauto. }
    destruct r1 as [st1|e|]; [|now rewrite (HR _ eq_refl) in Hrun|
                               now rewrite (HF eq_refl) in Hrun].
    assert (L1 : st1.2 ⊆ dom by_pk /\
              exists n1, st1.1 = st0.1 ++ n1 /\ Forall plain n1).
    { destruct H1 as [[_ [= <-]]|(_ & _ & E & H)].
      - split; [exact HV0|]. exists []. now rewrite app_nil_r.
      - split; [|now apply H].
        symmetry in E. apply place_node_Ok_subseteq in E. set_solver. }
    destruct L1 as (HV1 & n1 & En1 & P1).
    destruct r2 as [st2|e|]; [|discriminate..].
    assert (L2 : exists n2, st2.1 = st1.1 ++ n2 /\ Forall plain n2).
    { destruct (H2 st1 eq_refl) as [[_ [= <-]]|(_ & _ & _ & H)].
      - exists []. now rewrite app_nil_r.
      - now apply H. }
    destruct L2 as (n2 & En2 & P2).
    cbn [mbind outcome_bind] in Hrun. unfold set_remove in Hrun.
    destruct (decide (node ∈ st2.2)); [|discriminate].
    cbn in Hrun. injection Hrun as <-. cbn [fst].
    exists (own node gen rs re V ++ n1 ++ n2). split.
    + rewrite En2, En1. subst st0. cbn. now rewrite <- !app_assoc.
    + rewrite !Forall_app. split_and!; auto.
Qed.

Lemma top_parents_fields pk X :
  X ∈ top_parents strip by_pk pk ->
  exists d, by_pk !! pk = Some d /\ d <> ∅ /\
    ((field strip d "Sire" = X \/ field strip d "Dam" = X) /\ X <> "").
Proof.
  unfold top_parents, parents.
  destruct (by_pk !! pk) as [d|]; [|intros H; inversion H].
  destruct (decide (d = ∅)); [intros H; inversion H|].
  intros H. exists d. split_and!; auto.
  - apply elem_of_app in H as [H|H];
      [destruct (decide (field strip d "Sire" = ""))|
       destruct (decide (field strip d "Dam" = ""))];
      try (now inversion H); apply list_elem_of_singleton in H; auto.
  - apply elem_of_app in H as [H|H];
      [destruct (decide (field strip d "Sire" = ""))|
       destruct (decide (field strip d "Dam" = ""))];
      try (now inversion H); apply list_elem_of_singleton in H; congruence.
Qed.

Lemma place_pedigree_separate pk ops :
  place_pedigree strip upper pk by_pk max_depth inbred_pks = Ok ops ->
  (forall op r c, op ∈ ops -> covers op r c ->
     1 <= c <= max_depth /\ 3 <= r <= total_rows max_depth + 2 /\
     r <= excel_row_limit) /\
  separate ops /\
  Forall (well_sized max_depth) ops.
Proof.
  unfold place_pedigree.
  destruct (bool_decide (excel_row_limit < total_rows max_depth + 2)) eqn:Hlim;
    [discriminate|].
  apply bool_decide_eq_false in Hlim.
  assert (Hnil : (forall op r c, op ∈ @nil SheetOp -> covers op r c ->
     1 <= c <= max_depth /\ 3 <= r <= total_rows max_depth + 2 /\
     r <= excel_row_limit) /\
     separate [] /\ Forall (well_sized max_depth) []).
  { split_and!; [|exact I|constructor]. intros op r c H. inversion H. }
  destruct (bool_decide (0 < max_depth)) eqn:Hpos; [|now intros [= <-]].
  apply bool_decide_eq_true in Hpos. cbv zeta.
  destruct (decide (_ /\ _)); [now intros [= <-]|]. clear Hnil.
  assert (Htot : total_rows max_depth = 2 ^ max_depth).
  { unfold total_rows. now rewrite bool_decide_eq_true_2. }
  rewrite Htot in *.
  assert (Hpow : 2 ^ max_depth = 2 * 2 ^ (max_depth - 1 - 0)).
  { replace max_depth with (Z.succ (max_depth - 1 - 0)) at 1 by lia.
    rewrite Z.pow_succ_r by lia. reflexivity. }
  assert (Hp : 0 < 2 ^ (max_depth - 1 - 0)) by (apply Z.pow_pos_nonneg; lia).
  assert (Hmid : (2 ^ max_depth - 1) `div` 2 = 2 ^ (max_depth - 1 - 0) - 1)
    by (symmetry; apply (Z.div_unique _ _ _ 1); lia).
  rewrite Hmid. intros Hrun.
  match type of Hrun with
  | context [@mbind _ _ _ _ _ ?a] => set (r1 := a) in Hrun
  end.
  assert (L1 : forall st1, r1 = Ok st1 ->
    Forall (within max_depth 0 0 (2 ^ (max_depth - 1 - 0) - 1)) st1.1 /\
    separate st1.1 /\ Forall (well_sized max_depth) st1.1).
  { intros st1. unfold r1. destruct (decide (_ = "")).
    - intros [= <-]. cbn. split_and!; auto.
    - intros E. apply place_node_layout in E as (n1 & -> & ?); [auto|lia|lia]. }
  destruct r1 as [st1| |]; [|discriminate..].
  destruct (L1 st1 eq_refl) as (W1 & D1 & S1).
  cbn [mbind outcome_bind] in Hrun.
  match type of Hrun with
  | context [@mbind _ _ _ _ _ ?a] => set (r2 := a) in Hrun
  end.
  assert (L2 : forall st2, r2 = Ok st2 ->
    exists n2, st2.1 = st1.1 ++ n2 /\
      Forall (within max_depth 0 (2 ^ (max_depth - 1 - 0) - 1 + 1)
                (2 ^ max_depth - 1)) n2 /\
      separate n2 /\ Forall (well_sized max_depth) n2).
  { intros st2. unfold r2. destruct (decide (_ = "")).
    - intros [= <-]. exists []. rewrite app_nil_r. cbn. split_and!; auto.
    - intros E. apply place_node_layout in E; [auto|lia|lia]. }
  destruct r2 as [st2| |]; [|discriminate..].
  destruct (L2 st2 eq_refl) as (n2 & E2 & W2 & D2 & S2).
  cbn [mbind outcome_bind] in Hrun. injection Hrun as <-. rewrite E2.
  rewrite Forall_forall in W1, W2. split_and!.
  - intros op r c [Hin|Hin]%elem_of_app Ht;
      [specialize (W1 op Hin r c Ht)|specialize (W2 op Hin r c Ht)]; lia.
  - apply separate_app; auto.
    intros op1 op2 r c Hin1 Hin2 Ht1 Ht2. exfalso.
    specialize (W1 op1 Hin1 r c Ht1). specialize (W2 op2 Hin2 r c Ht2). lia.
  - rewrite Forall_app. auto.
Qed.

(** The rows of the pedigree: where [place_pedigree] returns, every cell
    it writes and every cell of a range it merges, the top row of the
    range included, lies in the columns 1 to [max_depth] and in the rows
    3 to [total_rows + 2], below the title and the summary and within the
    row limit.  Two of its calls cover a common cell only when the
    earlier one writes the cell at which the later one, a merge, starts:
    so no cell is written twice, no cell is written inside a merged range
    but its top cell, before the merge, and no two merged ranges overlap.
    Every merge is one column wide and [2 ^ (max_depth - column)] rows
    high. *)
Theorem place_pedigree_layout pk ops :
  place_pedigree strip upper pk by_pk max_depth inbred_pks = Ok ops ->
  (forall op r c, op ∈ ops -> covers op r c ->
     1 <= c <= max_depth /\ 3 <= r <= total_rows max_depth + 2 /\
     r <= excel_row_limit) /\
  (forall i j op1 op2 r c, (i < j)%nat ->
     ops !! i = Some op1 -> ops !! j = Some op2 ->
     covers op1 r c -> covers op2 r c -> anchored op1 op2) /\
  (forall i j sr1 er1 sc1 ec1 sr2 er2 sc2 ec2 r c, i <> j ->
     ops !! i = Some (MergeCells sr1 er1 sc1 ec1) ->
     ops !! j = Some (MergeCells sr2 er2 sc2 ec2) ->
     ~ (covers (MergeCells sr1 er1 sc1 ec1) r c /\
        covers (MergeCells sr2 er2 sc2 ec2) r c)) /\
  Forall (well_sized max_depth) ops.
Proof.
  intros Hrun.
  destruct (place_pedigree_separate pk ops Hrun) as (Hin & Hsep & Hsize).
  pose proof (separate_lookup ops Hsep) as Hpair.
  split_and!; [exact Hin|exact Hpair| |exact Hsize].
  intros i j sr1 er1 sc1 ec1 sr2 er2 sc2 ec2 r c Hij H1 H2 [C1 C2].
  destruct (Nat.lt_total i j) as [Hlt|[->|Hlt]]; [|lia|].
  - exact (Hpair i j _ _ r c Hlt H1 H2 C1 C2).
  - exact (Hpair j i _ _ r c Hlt H2 H1 C2 C1).
Qed.

Lemma place_pedigree_returns pk :
  acyclic strip by_pk ->
  total_rows max_depth + 2 <= excel_row_limit ->
  exists ops,
    place_pedigree strip upper pk by_pk max_depth inbred_pks = Ok ops.
Proof.
  intros [rank Hrank] Hlim. unfold place_pedigree.
  rewrite bool_decide_eq_false_2 by lia.
  destruct (bool_decide (0 < max_depth)); [|eauto]. cbv zeta.
  destruct (decide (_ /\ _)); [eauto|].
  match goal with
  | |- context [@mbind _ _ _ _ _ ?a] => set (r1 := a)
  end.
  assert (E1 : exists n1, r1 = Ok (n1, ∅)).
  { unfold r1. destruct (decide (_ = "")); [eauto|].
    edestruct (place_node_ranked rank) as [n1 ->]; [exact Hrank| |eauto].
    cbn. set_solver. }
  destruct E1 as [n1 ->]. cbn [mbind outcome_bind].
  match goal with
  | |- context [@mbind _ _ _ _ _ ?a] => set (r2 := a)
  end.
  assert (E2 : exists n2, r2 = Ok (n2, ∅)).
  { unfold r2. destruct (decide (_ = "")); [eauto|].
    edestruct (place_node_ranked rank) as [n2 ->]; [exact Hrank| |eauto].
    cbn. set_solver. }
  destruct E2 as [n2 ->]. cbn. eauto.
Qed.

(** On a store without cyclic parentage the rows of the pedigree are
    always placed, unless there are too many for a sheet. *)
Theorem place_pedigree_acyclic_returns pk :
  acyclic strip by_pk ->
  total_rows max_depth + 2 <= excel_row_limit ->
  exists ops,
    place_pedigree strip upper pk by_pk max_depth inbred_pks = Ok ops.
Proof.
  exact (place_pedigree_returns pk).
Qed.

(** With cyclic parentage the rows are not placed: when a parent of the
    subject lies on a cycle of parent links that comes round with a
    generation to spare, [place_pedigree] raises the [KeyError] of
    [visiting.remove]. *)
Theorem place_pedigree_cycle_raises pk X l :
  X ∈ top_parents strip by_pk pk ->
  chain strip by_pk X l -> last l = Some X ->
  Z.of_nat (length l) < max_depth - 1 ->
  total_rows max_depth + 2 <= excel_row_limit ->
  place_pedigree strip upper pk by_pk max_depth inbred_pks =
    Raised "KeyError".
Proof.
  intros (d & Hd & Hne & HX & HXne)%top_parents_fields Hc Hl Hlen Hlim.
  unfold place_pedigree. rewrite bool_decide_eq_false_2 by lia.
  rewrite bool_decide_eq_true_2 by lia. cbv zeta. rewrite Hd.
  rewrite (bool_decide_eq_true_2 (d <> ∅)) by exact Hne.
  rewrite decide_False by (intros [? ?]; destruct HX; congruence).
  assert (Hraise : forall rs re st,
    place X 0 rs re st = Raised "KeyError").
  { intros rs re st. apply (place_node_cycle_raises X l); auto. }
  destruct (decide (field strip d "Sire" = X)) as [->|Hs].
  - rewrite decide_False by exact HXne. now rewrite Hraise.
  - destruct HX as [?|Hdam]; [contradiction|]. rewrite Hdam.
    destruct (decide (X = "")); [contradiction|].
    destruct (decide (field strip d "Sire" = "")).
    + cbn [mbind outcome_bind]. now rewrite Hraise.
    + pose proof (place_node_shape (field strip d "Sire") 0 0
        ((total_rows max_depth - 1) `div` 2) ([], ∅)) as Hshape.
      destruct (place (field strip d "Sire") _ _ _ _) as [st1|e|];
        cbn in Hshape; [|now subst e|tauto].
      cbn [mbind outcome_bind]. now rewrite Hraise.
Qed.

(** The note "cycle" of [place_node] is never written: an identifier found
    in [visiting] has a record, and [display_name] uses its note for
    identifiers without a record only.  Every cell holds the plain display
    name of some identifier. *)
Theorem place_pedigree_no_cycle_note pk ops :
  place_pedigree strip upper pk by_pk max_depth inbred_pks = Ok ops ->
  forall r c value fill border,
    SetCell r c value fill border ∈ ops ->
    exists n, value = display_name strip n (by_pk !! n) "".
Proof.
  unfold place_pedigree.
  destruct (bool_decide (excel_row_limit < _)); [discriminate|].
  destruct (bool_decide (0 < max_depth));
    [|intros [= <-] r c v f b H; inversion H].
  cbv zeta.
  destruct (decide (_ /\ _)); [intros [= <-] r c v f b H; inversion H|].
  match goal with
  | |- context [@mbind _ _ _ _ _ ?a] => set (r1 := a)
  end.
  assert (L1 : forall st1, r1 = Ok st1 ->
            st1.2 ⊆ dom by_pk /\ Forall plain st1.1).
  { intros st1. unfold r1. destruct (decide (_ = "")).
    - intros [= <-]. cbn. split; [set_solver|constructor].
    - intros E. split.
      + apply place_node_Ok_subseteq in E. set_solver.
      + apply place_node_plain in E as (n1 & -> & ?); [auto|set_solver]. }
  destruct r1 as [st1| |]; [|discriminate..].
  destruct (L1 st1 eq_refl) as [HV1 P1]. cbn [mbind outcome_bind].
  match goal with
  | |- context [@mbind _ _ _ _ _ ?a] => set (r2 := a)
  end.
  assert (L2 : forall st2, r2 = Ok st2 -> Forall plain st2.1).
  { intros st2. unfold r2. destruct (decide (_ = "")).
    - now intros [= <-].
    - intros E. apply place_node_plain in E as (n2 & -> & ?); [|exact HV1].
      rewrite Forall_app. auto. }
  destruct r2 as [st2| |]; [|discriminate..].
  specialize (L2 st2 eq_refl). cbn [mbind outcome_bind].
  intros [= <-] r c v f b Hin.
  rewrite Forall_forall in L2. exact (L2 _ Hin).
Qed.

(** ** The cells of the sheet *)

#[local] Abbreviation cell := (cell_for strip upper by_pk inbred_pks).
#[local] Abbreviation follow' := (follow strip by_pk).
#[local] Abbreviation cells_of :=
  (MakePedigree.cells_of strip upper by_pk max_depth inbred_pks).

Lemma own_cell node gen rs re V op :
  V ⊆ dom by_pk -> is_cell op ->
  op ∈ own node gen rs re V <-> op = cell node (rs + 3) (gen + 1).
Proof.
  intros HV Hop. unfold node_ops, cell_for. cbv zeta.
  assert (Htext :
    (if decide (node ∈ V)
     then display_name strip node (by_pk !! node) "cycle"
     else display_name strip node (by_pk !! node) "") =
    display_name strip node (by_pk !! node) "").
  { destruct (decide (node ∈ V)) as [Hin|]; [|reflexivity].
    apply HV, elem_of_dom in Hin as [d ->]. reflexivity. }
  rewrite Htext. rewrite elem_of_cons. split; [|now left].
  intros [H|H]; [exact H|].
  destruct (bool_decide (rs < re)); [|inversion H].
  apply list_elem_of_singleton in H. subst op. destruct Hop.
Qed.

Lemma place_node_cells node gen rs re st st' :
  st.2 ⊆ dom by_pk ->
  0 <= gen <= max_depth - 1 ->
  re - rs + 1 = 2 ^ (max_depth - 1 - gen) ->
  place node gen rs re st = Ok st' ->
  exists new, st'.1 = st.1 ++ new /\ cells_of node gen rs new.
Proof.
  revert st'.
  apply (place_node_calls
    (fun node gen rs re st r =>
    forall st', st.2 ⊆ dom by_pk -> 0 <= gen <= max_depth - 1 ->
    re - rs + 1 = 2 ^ (max_depth - 1 - gen) -> r = Ok st' ->
    exists new, st'.1 = st.1 ++ new /\ cells_of node gen rs new)); clear.
  - intros node gen rs re ops V Hleaf st' HV Hg Hlen [= <-].
    exists (own node gen rs re V). split; [reflexivity|].
    intros op Hop. rewrite (own_cell node gen rs re V op HV Hop). split.
    + intros ->. exists [], node. cbn. split_and!; auto; [lia|].
      f_equal; lia.
    + intros (sides & n & Hf & Hb & ->). destruct sides as [|side sides].
      * cbn in Hf. injection Hf as <-. cbn. f_equal; lia.
      * exfalso. cbn [follow length] in Hf, Hb.
        destruct Hleaf as [Hn|[Hm|Hp]]; [now rewrite Hn in Hf|lia|].
        destruct (by_pk !! node) as [d|] eqn:Hd; [|discriminate].
        apply (parents_nil node d Hd) in Hp as [Hs Hdm].
        unfold parent_link in Hf.
        destruct side; [rewrite Hdm in Hf|rewrite Hs in Hf];
          now rewrite decide_True in Hf.
  - intros node gen rs re ops V d r1 r2 Hd Hlt Hp st0 mid sire dam H1 H2 HR HF
      st' HV Hg Hlen Hrun. cbn [fst snd] in HV.
    assert (HV0 : st0.2 ⊆ dom by_pk).
    { subst st0. cbn. apply union_subseteq. split; [|exact HV].
      apply singleton_subseteq_l, elem_of_dom. eauto. }
    destruct (half_spans gen rs re ltac:(lia) Hlen)
      as (Hs & Hdm & Hpos). fold mid in Hs, Hdm.
    destruct r1 as [st1|e|]; [|now rewrite (HR _ eq_refl) in Hrun|
                               now rewrite (HF eq_refl) in Hrun].
    assert (L1 : st1.2 ⊆ dom by_pk /\
      exists n1, st1.1 = st0.1 ++ n1 /\
        (sire = "" -> n1 = []) /\
        (sire <> "" -> cells_of sire (gen + 1) rs n1)).
    { destruct H1 as [[E [= <-]]|(E & _ & Er & H)].
      - split; [exact HV0|]. exists []. rewrite app_nil_r.
        split_and!; auto. intros; contradiction.
      - split.
        + symmetry in Er. apply place_node_Ok_subseteq in Er. set_solver.
        + destruct (H st1) as (n1 & ? & ?); auto; [lia|].
          exists n1. split_and!; auto. intros; contradiction. }
    destruct L1 as (HV1 & n1 & En1 & Hn1e & Hn1).
    destruct r2 as [st2|e|]; [|discriminate..].
    assert (L2 : exists n2, st2.1 = st1.1 ++ n2 /\
        (dam = "" -> n2 = []) /\
        (dam <> "" -> cells_of dam (gen + 1) (mid + 1) n2)).
    { destruct (H2 st1 eq_refl) as [[E [= <-]]|(E & _ & _ & H)].
      - exists []. rewrite app_nil_r. split_and!; auto. intros; contradiction.
      - destruct (H st2) as (n2 & ? & ?); auto; [lia|].
        exists n2. split_and!; auto. intros; contradiction. }
    destruct L2 as (n2 & En2 & Hn2e & Hn2).
    cbn [mbind outcome_bind] in Hrun. unfold set_remove in Hrun.
    destruct (decide (node ∈ st2.2)); [|discriminate].
    cbn in Hrun. injection Hrun as <-. cbn [fst].
    exists (own node gen rs re V ++ n1 ++ n2). split.
    { rewrite En2, En1. subst st0. cbn. now rewrite <- !app_assoc. }
    intros op Hop. rewrite !elem_of_app.
    rewrite (own_cell node gen rs re V op HV Hop). split.
    + intros [->|[Hin|Hin]].
      * exists [], node. cbn. split_and!; auto; [lia|]. f_equal; lia.
      * destruct (decide (sire = "")) as [E|E];
          [rewrite (Hn1e E) in Hin; inversion Hin|].
        apply (Hn1 E op Hop) in Hin as (sides & n & Hf & Hb & ->).
        exists (false :: sides), n. cbn [follow length row_offset].
        rewrite Hd. unfold parent_link. fold sire.
        rewrite decide_False by exact E. split_and!; auto; [lia|].
        f_equal; lia.
      * destruct (decide (dam = "")) as [E|E];
          [rewrite (Hn2e E) in Hin; inversion Hin|].
        apply (Hn2 E op Hop) in Hin as (sides & n & Hf & Hb & ->).
        exists (true :: sides), n. cbn [follow length row_offset].
        rewrite Hd. unfold parent_link. fold dam.
        rewrite decide_False by exact E. split_and!; auto; [lia|].
        f_equal; lia.
    + intros (sides & n & Hf & Hb & ->). destruct sides as [|side sides].
      * left. cbn in Hf. injection Hf as <-. cbn. f_equal; lia.
      * right. cbn [follow length row_offset] in Hf, Hb |- *.
        rewrite Hd in Hf. unfold parent_link in Hf.
        destruct side.
        -- fold dam in Hf. destruct (decide (dam = "")) as [E|E];
             [discriminate|].
           right. apply (Hn2 E _ Hop). exists sides, n.
           split_and!; auto; [lia|]. cbn [row_offset length]. f_equal; lia.
        -- fold sire in Hf. destruct (decide (sire = "")) as [E|E];
             [discriminate|].
           left. apply (Hn1 E _ Hop). exists sides, n.
           split_and!; auto; [lia|]. cbn [row_offset length]. f_equal; lia.
Qed.

Lemma place_pedigree_cells_of pk ops :
  place_pedigree strip upper pk by_pk max_depth inbred_pks = Ok ops ->
  forall op, is_cell op ->
    op ∈ ops <->
    exists sides n,
      top_follow strip by_pk pk sides = Some n /\
      Z.of_nat (length sides) <= max_depth /\
      op = cell n (3 + row_offset max_depth 0 sides)
             (Z.of_nat (length sides)).
Proof.
  unfold place_pedigree.
  destruct (bool_decide (excel_row_limit < total_rows max_depth + 2));
    [discriminate|].
  destruct (bool_decide (0 < max_depth)) eqn:Hpos.
  2: { apply bool_decide_eq_false in Hpos. intros [= <-] op Hop. split.
       - intros H. inversion H.
       - intros (sides & n & Hf & Hb & _). destruct sides; [discriminate|].
         cbn [length] in Hb. lia. }
  apply bool_decide_eq_true in Hpos. cbv zeta.
  assert (Htot : total_rows max_depth = 2 ^ max_depth).
  { unfold total_rows. now rewrite bool_decide_eq_true_2. }
  rewrite Htot.
  assert (Hpow : 2 ^ max_depth = 2 * 2 ^ (max_depth - 1 - 0)).
  { replace max_depth with (Z.succ (max_depth - 1 - 0)) at 1 by lia.
    rewrite Z.pow_succ_r by lia. reflexivity. }
  assert (Hp : 0 < 2 ^ (max_depth - 1 - 0)) by (apply Z.pow_pos_nonneg; lia).
  assert (Hmid : (2 ^ max_depth - 1) `div` 2 = 2 ^ (max_depth - 1 - 0) - 1)
    by (symmetry; apply (Z.div_unique _ _ _ 1); lia).
  rewrite Hmid.
  assert (Hnone : forall op : SheetOp,
    (forall side, top_follow strip by_pk pk [side] = None) ->
    op ∈ @nil SheetOp <->
    exists sides n,
      top_follow strip by_pk pk sides = Some n /\
      Z.of_nat (length sides) <= max_depth /\
      op = cell n (3 + row_offset max_depth 0 sides)
             (Z.of_nat (length sides))).
  { intros op Hno. split; [intros H; inversion H|].
    intros (sides & n & Hf & _). exfalso.
    destruct sides as [|side sides]; [discriminate|].
    specialize (Hno side). cbn in Hf, Hno.
    destruct (by_pk !! pk) as [d|]; [|discriminate].
    destruct (decide (d = ∅)); [discriminate|].
    destruct (decide (parent_link strip d side = "")); discriminate. }
  destruct (by_pk !! pk) as [d|] eqn:Hd.
  2: { rewrite decide_True by auto. intros [= <-] op Hop. apply Hnone.
       intros side. cbn. now rewrite Hd. }
  destruct (decide (d = ∅)) as [Hempty|Hne].
  { rewrite bool_decide_eq_false_2 by tauto.
    rewrite decide_True by auto. intros [= <-] op Hop. apply Hnone.
    intros side. cbn. rewrite Hd. now rewrite decide_True. }
  rewrite bool_decide_eq_true_2 by exact Hne.
  set (sire := field strip d "Sire"). set (dam := field strip d "Dam").
  destruct (decide (sire = "" /\ dam = "")) as [[Es Ed]|Hsd].
  { intros [= <-] op Hop. apply Hnone. intros side. cbn. rewrite Hd.
    rewrite decide_False by exact Hne. unfold parent_link.
    destruct side; [fold dam; rewrite Ed|fold sire; rewrite Es];
      now rewrite decide_True. }
  intros Hrun.
  match type of Hrun with
  | context [@mbind _ _ _ _ _ ?a] => set (r1 := a) in Hrun
  end.
  assert (L1 : forall st1, r1 = Ok st1 ->
    st1.2 ⊆ dom by_pk /\
    (sire = "" -> st1.1 = []) /\
    (sire <> "" -> cells_of sire 0 0 st1.1)).
  { intros st1. unfold r1. destruct (decide (sire = "")) as [E|E].
    - intros [= <-]. cbn. split_and!; auto; [set_solver|contradiction].
    - intros Er. split.
      + apply place_node_Ok_subseteq in Er. set_solver.
      + apply place_node_cells in Er as (n1 & -> & ?);
          [|set_solver|lia|lia].
        split; [contradiction|auto]. }
  destruct r1 as [st1| |]; [|discriminate..].
  destruct (L1 st1 eq_refl) as (HV1 & Hn1e & Hn1).
  cbn [mbind outcome_bind] in Hrun.
  match type of Hrun with
  | context [@mbind _ _ _ _ _ ?a] => set (r2 := a) in Hrun
  end.
  assert (L2 : forall st2, r2 = Ok st2 ->
    exists n2, st2.1 = st1.1 ++ n2 /\
    (dam = "" -> n2 = []) /\
    (dam <> "" ->
     cells_of dam 0 (2 ^ (max_depth - 1 - 0) - 1 + 1) n2)).
  { intros st2. unfold r2. destruct (decide (dam = "")) as [E|E].
    - intros [= <-]. exists []. rewrite app_nil_r.
      split_and!; auto; contradiction.
    - intros Er. apply place_node_cells in Er as (n2 & ? & ?);
        [|exact HV1|lia|lia].
      exists n2. split_and!; auto; contradiction. }
  destruct r2 as [st2| |]; [|discriminate..].
  destruct (L2 st2 eq_refl) as (n2 & En2 & Hn2e & Hn2).
  cbn [mbind outcome_bind] in Hrun. injection Hrun as <-.
  intros op Hop. rewrite En2, elem_of_app. split.
  - intros [Hin|Hin].
    + destruct (decide (sire = "")) as [E|E];
        [rewrite (Hn1e E) in Hin; inversion Hin|].
      apply (Hn1 E op Hop) in Hin as (sides & n & Hf & Hb & ->).
      exists (false :: sides), n. cbn [top_follow length row_offset].
      rewrite Hd, decide_False by exact Hne. unfold parent_link. fold sire.
      rewrite decide_False by exact E. split_and!; auto; [lia|].
      f_equal; lia.
    + destruct (decide (dam = "")) as [E|E];
        [rewrite (Hn2e E) in Hin; inversion Hin|].
      apply (Hn2 E op Hop) in Hin as (sides & n & Hf & Hb & ->).
      exists (true :: sides), n. cbn [top_follow length row_offset].
      rewrite Hd, decide_False by exact Hne. unfold parent_link. fold dam.
      rewrite decide_False by exact E. split_and!; auto; [lia|].
      f_equal; lia.
  - intros (sides & n & Hf & Hb & ->).
    destruct sides as [|side sides]; [discriminate|].
    cbn [top_follow] in Hf. rewrite Hd, decide_False in Hf by exact Hne.
    unfold parent_link in Hf. destruct side.
    + fold dam in Hf. destruct (decide (dam = "")) as [E|E]; [discriminate|].
      right. apply (Hn2 E _ Hop). exists sides, n.
      cbn [length] in Hb. split_and!; auto; [lia|].
      cbn [row_offset length]. f_equal; lia.
    + fold sire in Hf.
      destruct (decide (sire = "")) as [E|E]; [discriminate|].
      left. apply (Hn1 E _ Hop). exists sides, n.
      cbn [length] in Hb. split_and!; auto; [lia|].
      cbn [row_offset length]. f_equal; lia.
Qed.

(** The cells of the sheet: where [place_pedigree] returns, it has written
    one cell for each ancestor that is reached from the subject through
    records and non-empty links in at most [max_depth] steps, and no
    other cell.  The cell stands in the column of its generation, in the
    row that the sides of the way give (a dam side moves down by the
    height of a node of that generation), and holds the display name,
    fill and border of that ancestor. *)
Theorem place_pedigree_cells pk ops :
  place_pedigree strip upper pk by_pk max_depth inbred_pks = Ok ops ->
  forall op, is_cell op ->
    op ∈ ops <->
    exists sides n,
      top_follow strip by_pk pk sides = Some n /\
      Z.of_nat (length sides) <= max_depth /\
      op = cell n (3 + row_offset max_depth 0 sides)
             (Z.of_nat (length sides)).
Proof.
  exact (place_pedigree_cells_of pk ops).
Qed.

End Sheet.

Lemma place_pedigree_layout_witness :
  exists ops,
    place_pedigree ascii_strip ascii_upper "S" store_2x2 3 {["G"]} = Ok ops /\
    (forall op r c, op ∈ ops -> covers op r c ->
       1 <= c <= 3 /\ 3 <= r <= total_rows 3 + 2 /\ r <= excel_row_limit) /\
    (forall i j op1 op2 r c, (i < j)%nat ->
       ops !! i = Some op1 -> ops !! j = Some op2 ->
       covers op1 r c -> covers op2 r c -> anchored op1 op2) /\
    (forall i j sr1 er1 sc1 ec1 sr2 er2 sc2 ec2 r c, i <> j ->
       ops !! i = Some (MergeCells sr1 er1 sc1 ec1) ->
       ops !! j = Some (MergeCells sr2 er2 sc2 ec2) ->
       ~ (covers (MergeCells sr1 er1 sc1 ec1) r c /\
          covers (MergeCells sr2 er2 sc2 ec2) r c)) /\
    Forall (well_sized 3) ops.
Proof.
  eexists. split; [vm_compute; reflexivity|].
  apply (place_pedigree_layout ascii_strip ascii_upper store_2x2 3 {["G"]} "S").
  vm_compute; reflexivity.
Defined.

Lemma place_pedigree_acyclic_returns_witness :
  acyclic ascii_strip store_2x2 /\
  total_rows 3 + 2 <= excel_row_limit /\
  exists ops,
    place_pedigree ascii_strip ascii_upper "S" store_2x2 3 {["G"]} = Ok ops.
Proof.
  split; [exact store_2x2_acyclic|].
  split; [vm_compute; discriminate|].
  apply (place_pedigree_acyclic_returns ascii_strip ascii_upper store_2x2 3
           {["G"]} "S");
    [exact store_2x2_acyclic|vm_compute; discriminate].
Defined.

Lemma place_pedigree_cycle_raises_witness :
  clamp_depth ascii_strip "S" store_cyclic (Some 5) = Ok 3 /\
  place_pedigree ascii_strip ascii_upper "S" store_cyclic 3 ∅ =
    Raised "KeyError".
Proof.
  split; [vm_compute; reflexivity|].
  apply (place_pedigree_cycle_raises ascii_strip ascii_upper store_cyclic 3 ∅
           "S" "X" ["X"]).
  - by_compute.
  - split; [by_compute|exact I].
  - reflexivity.
  - vm_compute; reflexivity.
  - vm_compute; discriminate.
Defined.

Lemma place_pedigree_no_cycle_note_witness :
  exists ops,
    place_pedigree ascii_strip ascii_upper "S" store_cyclic 2 ∅ = Ok ops /\
    forall r c value fill border,
      SetCell r c value fill border ∈ ops ->
      exists n, value = display_name ascii_strip n (store_cyclic !! n) "".
Proof.
  eexists. split; [vm_compute; reflexivity|].
  apply (place_pedigree_no_cycle_note ascii_strip ascii_upper store_cyclic 2 ∅
           "S").
  vm_compute; reflexivity.
Defined.

(** ** The sheet and the report *)

Section Marks.
Context {sum_mode : SumMode}.
Variable strip upper : string -> string.
Variable by_pk : gmap string row.

#[local] Abbreviation ways' := (ways strip by_pk).
#[local] Abbreviation follow' := (follow strip by_pk).

Lemma ways_spec n : forall node s a,
  (s, a) ∈ ways' n node <->
  follow' node s = Some a /\ (length s <= n)%nat.
Proof.
  induction n as [|n IH]; intros node s a.
  - cbn [ways]. rewrite list_elem_of_singleton. split.
    + intros [= -> ->]. cbn. auto.
    + intros [Hf Hl]. destruct s; [|cbn in Hl; lia].
      cbn in Hf. congruence.
  - cbn [ways]. rewrite elem_of_cons. split.
    + intros [[= -> ->]|Hin]; [cbn; split; [reflexivity|lia]|].
      destruct (by_pk !! node) as [d|] eqn:Hd; [|inversion Hin].
      apply elem_of_app in Hin as [Hin|Hin].
      * destruct (decide (parent_link strip d false = "")) as [E|E];
          [inversion Hin|].
        apply list_elem_of_fmap in Hin as ([s' a'] & [= -> ->] & Hin).
        apply IH in Hin as [Hf Hl]. cbn [follow length]. rewrite Hd.
        rewrite decide_False by exact E. split; [exact Hf|lia].
      * destruct (decide (parent_link strip d true = "")) as [E|E];
          [inversion Hin|].
        apply list_elem_of_fmap in Hin as ([s' a'] & [= -> ->] & Hin).
        apply IH in Hin as [Hf Hl]. cbn [follow length]. rewrite Hd.
        rewrite decide_False by exact E. split; [exact Hf|lia].
    + intros [Hf Hl]. destruct s as [|side s].
      * left. cbn in Hf. congruence.
      * right. cbn [follow length] in Hf, Hl.
        destruct (by_pk !! node) as [d|]; [|discriminate].
        destruct (decide (parent_link strip d side = "")) as [E|E];
          [discriminate|].
        apply elem_of_app. destruct side; [right|left];
          rewrite decide_False by exact E;
          apply list_elem_of_fmap; exists (s, a);
          (split; [reflexivity|apply IH; split; [exact Hf|lia]]).
Qed.

Lemma ways_NoDup n : forall node, NoDup ((ways' n node).*1).
Proof.
  induction n as [|n IH]; intros node.
  - cbn. apply NoDup_singleton.
  - cbn [ways fmap list_fmap fst]. apply NoDup_cons. split.
    + destruct (by_pk !! node) as [d|]; [|apply not_elem_of_nil].
      rewrite fmap_app, elem_of_app.
      intros [H|H];
        (destruct (decide (_ = "")); [inversion H|]);
        apply list_elem_of_fmap in H as ([s a] & Hs & H);
        apply list_elem_of_fmap in H as ([s' a'] & [= -> ->] & _);
        discriminate.
    + destruct (by_pk !! node) as [d|]; [|constructor].
      rewrite fmap_app. apply NoDup_app. split_and!.
      * destruct (decide (_ = "")); [constructor|].
        rewrite <- list_fmap_compose.
        change (fst ∘ prod_map (cons false) id)
          with (cons false ∘ fst : list bool * string -> list bool).
        rewrite list_fmap_compose. apply NoDup_fmap_2; [|apply IH].
        intros x y [= ->]. reflexivity.
      * intros s H1 H2.
        destruct (decide (parent_link strip d false = ""));
          [inversion H1|].
        destruct (decide (parent_link strip d true = ""));
          [inversion H2|].
        apply list_elem_of_fmap in H1 as ([s1 a1] & -> & H1).
        apply list_elem_of_fmap in H1 as ([s1' a1'] & [= -> ->] & _).
        apply list_elem_of_fmap in H2 as ([s2 a2] & Hs & H2).
        apply list_elem_of_fmap in H2 as ([s2' a2'] & [= -> ->] & _).
        discriminate.
      * destruct (decide (_ = "")); [constructor|].
        rewrite <- list_fmap_compose.
        change (fst ∘ prod_map (cons true) id)
          with (cons true ∘ fst : list bool * string -> list bool).
        rewrite list_fmap_compose. apply NoDup_fmap_2; [|apply IH].
        intros x y [= ->]. reflexivity.
Qed.

Lemma top_ways_spec M pk s a :
  (s, a) ∈ top_ways strip by_pk M pk <->
  top_follow strip by_pk pk s = Some a /\ Z.of_nat (length s) <= M.
Proof.
  unfold top_ways, top_follow.
  destruct (by_pk !! pk) as [d|].
  2: { split; [intros H; inversion H|]. intros [H _]. now destruct s. }
  destruct (decide (d = ∅)).
  { split; [intros H; inversion H|]. intros [H _]. now destruct s. }
  destruct (bool_decide (M < 1)) eqn:B.
  { apply bool_decide_eq_true in B. split; [intros H; inversion H|].
    intros [H Hl]. destruct s; [discriminate|]. cbn [length] in Hl. lia. }
  apply bool_decide_eq_false in B. rewrite elem_of_app. split.
  - intros [Hin|Hin].
    + destruct (decide (parent_link strip d false = "")) as [E|E];
        [inversion Hin|].
      apply list_elem_of_fmap in Hin as ([s' a'] & [= -> ->] & Hin).
      apply ways_spec in Hin as [Hf Hl].
      rewrite decide_False by exact E. cbn [length]. split; [exact Hf|lia].
    + destruct (decide (parent_link strip d true = "")) as [E|E];
        [inversion Hin|].
      apply list_elem_of_fmap in Hin as ([s' a'] & [= -> ->] & Hin).
      apply ways_spec in Hin as [Hf Hl].
      rewrite decide_False by exact E. cbn [length]. split; [exact Hf|lia].
  - intros [Hf Hl]. destruct s as [|side s]; [discriminate|].
    cbn [length] in Hl.
    destruct (decide (parent_link strip d side = "")) as [E|E];
      [discriminate|].
    destruct side; [right|left]; rewrite decide_False by exact E;
      apply list_elem_of_fmap; exists (s, a);
      (split; [reflexivity|apply ways_spec; split; [exact Hf|lia]]).
Qed.

Lemma top_ways_NoDup M pk : NoDup ((top_ways strip by_pk M pk).*1).
Proof.
  unfold top_ways. destruct (by_pk !! pk) as [d|]; [|constructor].
  destruct (decide (d = ∅)); [constructor|].
  destruct (bool_decide (M < 1)); [constructor|].
  rewrite fmap_app. apply NoDup_app. split_and!.
  - destruct (decide (_ = "")); [constructor|].
    rewrite <- list_fmap_compose.
    change (fst ∘ prod_map (cons false) id)
      with (cons false ∘ fst : list bool * string -> list bool).
    rewrite list_fmap_compose. apply NoDup_fmap_2; [|apply ways_NoDup].
    intros x y [= ->]. reflexivity.
  - intros s H1 H2.
    destruct (decide (parent_link strip d false = "")); [inversion H1|].
    destruct (decide (parent_link strip d true = "")); [inversion H2|].
    apply list_elem_of_fmap in H1 as ([s1 a1] & -> & H1).
    apply list_elem_of_fmap in H1 as ([s1' a1'] & [= -> ->] & _).
    apply list_elem_of_fmap in H2 as ([s2 a2] & Hs & H2).
    apply list_elem_of_fmap in H2 as ([s2' a2'] & [= -> ->] & _).
    discriminate.
  - destruct (decide (_ = "")); [constructor|].
    rewrite <- list_fmap_compose.
    change (fst ∘ prod_map (cons true) id)
      with (cons true ∘ fst : list bool * string -> list bool).
    rewrite list_fmap_compose. apply NoDup_fmap_2; [|apply ways_NoDup].
    intros x y [= ->]. reflexivity.
Qed.

(** What the walk records are ways of the sheet, in the same order; the
    walk leaves out the ways that pass an identifier twice. *)
Lemma trace_sub_ways {T} M (sd : T) (n : nat) : forall node gen path,
  n = Z.to_nat (M - gen) -> gen <= M ->
  exists w, w `sublist_of` ways' n node /\
            w.*2 = occ_key <$> trace strip by_pk M node gen path sd.
Proof.
  induction n as [|n IH]; intros node gen path Hn Hg;
    rewrite trace_equation_1;
    rewrite (bool_decide_eq_false_2 (M < gen)) by lia;
    (destruct (bool_decide (node ∈ path));
      [exists []; split; [apply sublist_nil_l|reflexivity]|]);
    cbv zeta; destruct (Z_lt_dec gen M) as [Hlt|Hge]; try lia.
  - exists [([], node)]. split; [reflexivity|].
    cbn. unfold occ_key. cbn. now rewrite last_snoc.
  - assert (Hside : forall side d, exists w,
      w `sublist_of`
        (if decide (parent_link strip d side = "") then []
         else prod_map (cons side) id <$>
                ways' n (parent_link strip d side)) /\
      w.*2 = occ_key <$>
        ((if decide (parent_link strip d side = "") then []
          else [parent_link strip d side]) ≫=
         fun p => trace strip by_pk M p (gen + 1) (path ++ [node]) sd)).
    { intros side d. destruct (decide (_ = "")) as [E|E].
      - exists []. split; [apply sublist_nil_l|reflexivity].
      - destruct (IH (parent_link strip d side) (gen + 1) (path ++ [node]))
          as (w & Hsub & Hw); [lia|lia|].
        exists (prod_map (cons side) id <$> w). split.
        + now apply fmap_sublist.
        + cbn [mbind list_bind]. rewrite app_nil_r, <- Hw.
          rewrite <- list_fmap_compose. reflexivity. }
    cbn [ways]. unfold parents.
    destruct (by_pk !! node) as [d|].
    + destruct (Hside false d) as (ws & Hs1 & Hs2).
      destruct (Hside true d) as (wd & Hd1 & Hd2).
      exists (([], node) :: ws ++ wd). split.
      * apply sublist_skip. now apply sublist_app.
      * cbn [fmap list_fmap snd]. f_equal.
        { unfold occ_key. cbn. now rewrite last_snoc. }
        change (list_fmap _ _ snd (ws ++ wd)) with ((ws ++ wd).*2).
        rewrite fmap_app, Hs2, Hd2, bind_app, fmap_app. reflexivity.
    + exists [([], node)]. split; [reflexivity|].
      cbn. unfold occ_key. cbn. now rewrite last_snoc.
Qed.

Lemma all_occurrences_sub_ways {T} (sire_tag dam_tag : T) pk M :
  exists w, w `sublist_of` top_ways strip by_pk M pk /\
    w.*2 = occ_key <$> all_occurrences strip sire_tag dam_tag pk by_pk M.
Proof.
  unfold top_ways, all_occurrences.
  destruct (by_pk !! pk) as [d|]; [|exists []; split; reflexivity].
  destruct (decide (d = ∅)); [exists []; split; reflexivity|].
  destruct (bool_decide (M < 1)) eqn:B.
  { apply bool_decide_eq_true in B. exists []. split; [reflexivity|].
    rewrite !(trace_past_bound strip by_pk M) by lia.
    now destruct (decide _), (decide _). }
  apply bool_decide_eq_false in B.
  assert (Hside : forall side (sd : T), exists w,
    w `sublist_of`
      (if decide (parent_link strip d side = "") then []
       else prod_map (cons side) id <$>
              ways' (Z.to_nat (M - 1)) (parent_link strip d side)) /\
    w.*2 = occ_key <$>
      (if decide (parent_link strip d side = "") then []
       else trace strip by_pk M (parent_link strip d side) 1 [] sd)).
  { intros side sd. destruct (decide (_ = "")) as [E|E].
    - exists []. split; [apply sublist_nil_l|reflexivity].
    - destruct (trace_sub_ways M sd (Z.to_nat (M - 1))
                  (parent_link strip d side) 1 [] eq_refl ltac:(lia))
        as (w & Hsub & Hw).
      exists (prod_map (cons side) id <$> w). split.
      + now apply fmap_sublist.
      + rewrite <- Hw, <- list_fmap_compose. reflexivity. }
  destruct (Hside false sire_tag) as (ws & Hs1 & Hs2).
  destruct (Hside true dam_tag) as (wd & Hd1 & Hd2).
  exists (ws ++ wd). split; [now apply sublist_app|].
  rewrite !fmap_app. now rewrite Hs2, Hd2.
Qed.

Lemma filter_fmap_length {A B} (f : A -> B) (P : B -> Prop) (Q : A -> Prop)
    `{!forall b, Decision (P b)} `{!forall a, Decision (Q a)} (l : list A) :
  (forall x, Q x <-> P (f x)) ->
  length (filter P (f <$> l)) = length (filter Q l).
Proof.
  intros HPQ. induction l as [|x l IH]; [reflexivity|].
  rewrite fmap_cons, !filter_cons.
  destruct (decide (P (f x))) as [HP|HP], (decide (Q x)) as [HQ|HQ];
    cbn; try lia; exfalso; apply HPQ in HQ || apply HPQ in HP; tauto.
Qed.

(** An ancestor recorded twice is reached by two ways. *)
Lemma two_ways {T} (sire_tag dam_tag : T) pk M A :
  (2 <= length (hits A
          (all_occurrences strip sire_tag dam_tag pk by_pk M)))%nat ->
  exists s1 s2, s1 <> s2 /\
    (top_follow strip by_pk pk s1 = Some A /\ Z.of_nat (length s1) <= M) /\
    (top_follow strip by_pk pk s2 = Some A /\ Z.of_nat (length s2) <= M).
Proof.
  intros Hlen.
  destruct (all_occurrences_sub_ways sire_tag dam_tag pk M)
    as (w & Hsub & Hw).
  assert (Hc : length (filter (fun k => k = A)
                  (occ_key <$>
                   all_occurrences strip sire_tag dam_tag pk by_pk M)) =
               length (hits A
                  (all_occurrences strip sire_tag dam_tag pk by_pk M)))
    by (apply filter_fmap_length; reflexivity).
  rewrite <- Hc, <- Hw in Hlen.
  assert (Hc2 : length (filter (fun k => k = A) w.*2) =
                length (filter (fun x : list bool * string => x.2 = A) w))
    by (apply filter_fmap_length; reflexivity).
  rewrite Hc2 in Hlen.
  assert (Hf : filter (fun x : list bool * string => x.2 = A) w
               `sublist_of` top_ways strip by_pk M pk).
  { etrans; [apply sublist_filter|exact Hsub]. }
  destruct (filter _ w) as [|[s1 a1] [|[s2 a2] rest]] eqn:Ef;
    [cbn in Hlen; lia..|].
  assert (H1 : (s1, a1) ∈ filter (fun x : list bool * string => x.2 = A) w)
    by (rewrite Ef; apply list_elem_of_here).
  assert (H2 : (s2, a2) ∈ filter (fun x : list bool * string => x.2 = A) w)
    by (rewrite Ef; apply list_elem_of_further, list_elem_of_here).
  apply list_elem_of_filter in H1 as [E1 _].
  apply list_elem_of_filter in H2 as [E2 _]. cbn in E1, E2. subst a1 a2.
  pose proof (sublist_NoDup _ _ (top_ways_NoDup M pk)
                (fmap_sublist fst _ _ Hf)) as Hnd.
  cbn in Hnd. apply NoDup_cons in Hnd as [Hnd _].
  exists s1, s2. split; [|split].
  - intros ->. apply Hnd. apply list_elem_of_here.
  - apply top_ways_spec. eapply elem_of_sublist; [|exact Hf].
    apply list_elem_of_here.
  - apply top_ways_spec. eapply elem_of_sublist; [|exact Hf].
    apply list_elem_of_further, list_elem_of_here.
Qed.

Lemma row_offset_bound md : forall s g,
  0 <= g -> g + Z.of_nat (length s) <= md ->
  0 <= row_offset md g s < 2 ^ (md - g).
Proof.
  induction s as [|side s IH]; intros g Hg Hl.
  - cbn. split; [lia|]. apply Z.pow_pos_nonneg; lia.
  - cbn [row_offset length] in *.
    specialize (IH (g + 1) ltac:(lia) ltac:(lia)).
    assert (Hpow : 2 ^ (md - g) = 2 * 2 ^ (md - 1 - g)).
    { replace (md - g) with (Z.succ (md - 1 - g)) by lia.
      rewrite Z.pow_succ_r by lia. reflexivity. }
    replace (md - (g + 1)) with (md - 1 - g) in IH by lia.
    destruct side; lia.
Qed.

Lemma row_offset_inj md : forall s1 s2 g,
  0 <= g -> length s1 = length s2 -> g + Z.of_nat (length s1) <= md ->
  row_offset md g s1 = row_offset md g s2 -> s1 = s2.
Proof.
  induction s1 as [|b1 s1 IH]; intros [|b2 s2] g Hg Hlen Hl Hro;
    try discriminate; [reflexivity|].
  cbn [row_offset length] in *.
  pose proof (row_offset_bound md s1 (g + 1) ltac:(lia) ltac:(lia)) as B1.
  pose proof (row_offset_bound md s2 (g + 1) ltac:(lia) ltac:(lia)) as B2.
  replace (md - (g + 1)) with (md - 1 - g) in B1, B2 by lia.
  destruct b1, b2; try lia;
    f_equal; apply (IH s2 (g + 1)); lia.
Qed.

(** The red borders of the sheet and the report agree: a cell has a red
    border only if it shows an ancestor of the report that is not
    subsumed, and each such ancestor has two cells at least, in different
    places of the sheet. *)
Theorem red_borders pk M inbred subsumed ops :
  collect_inbreeding strip pk by_pk M = Ok (inbred, subsumed) ->
  place_pedigree strip upper pk by_pk M (inbred_pks inbred subsumed) =
    Ok ops ->
  (forall r c value fill,
     SetCell r c value fill true ∈ ops ->
     exists A, A ∈ inbred_pks inbred subsumed /\
       SetCell r c value fill true =
       cell_for strip upper by_pk (inbred_pks inbred subsumed) A r c) /\
  (forall A, A ∈ inbred_pks inbred subsumed ->
     exists r1 c1 r2 c2, (r1, c1) <> (r2, c2) /\
       cell_for strip upper by_pk (inbred_pks inbred subsumed) A r1 c1
         ∈ ops /\
       cell_for strip upper by_pk (inbred_pks inbred subsumed) A r2 c2
         ∈ ops).
Proof.
  intros Hrep Hrun.
  pose proof (place_pedigree_cells_of strip upper by_pk M
                (inbred_pks inbred subsumed) pk ops Hrun) as Hcells.
  split.
  - intros r c value fill Hin.
    apply (Hcells (SetCell r c value fill true) I) in Hin
      as (sides & n & _ & _ & Hop).
    exists n. unfold cell_for in Hop. injection Hop as -> -> -> -> Hb.
    split.
    + symmetry in Hb. now apply bool_decide_eq_true in Hb.
    + unfold cell_for. now rewrite <- Hb.
  - intros A HA. unfold inbred_pks in HA.
    apply elem_of_difference in HA as [HA _].
    apply elem_of_list_to_set, dict_keys_is_Some in HA as [e He].
    rewrite collect_inbreeding_of_trace in Hrep. cbv zeta in Hrep.
    destruct (compute_subsumed _) as [sub| |]; [|discriminate..].
    cbn in Hrep. injection Hrep as <- <-.
    apply aggregate_Some in He as (l & Hl & Hlen & _);
      [|apply record_all_NoDup; constructor].
    rewrite dict_get_record_all in Hl. cbn [dict_get default app] in Hl.
    assert (Hhits : (2 <= length (hits A
              (all_occurrences strip tt tt pk by_pk M)))%nat).
    { destruct (hits A _); [discriminate|]. injection Hl as <-. exact Hlen. }
    destruct (two_ways tt tt pk M A Hhits)
      as (s1 & s2 & Hne & [Hf1 Hl1] & [Hf2 Hl2]).
    exists (3 + row_offset M 0 s1), (Z.of_nat (length s1)),
           (3 + row_offset M 0 s2), (Z.of_nat (length s2)).
    split_and!.
    + intros [= Hr Hc]. apply Hne.
      apply (row_offset_inj M s1 s2 0); lia.
    + apply Hcells; [exact I|]. exists s1, A. auto.
    + apply Hcells; [exact I|]. exists s2, A. auto.
Qed.

Lemma chain_follow : forall l k,
  chain strip by_pk k l -> l <> [] ->
  exists sides, length sides = length l /\
    follow' k sides = last l.
Proof.
  induction l as [|p l IH]; intros k Hc Hne; [congruence|].
  destruct Hc as [Hp Hc]. unfold parents in Hp.
  destruct (by_pk !! k) as [d|] eqn:Hd; [|inversion Hp].
  assert (Hside : exists side,
            parent_link strip d side = p /\ p <> "").
  { apply elem_of_app in Hp as [Hp|Hp].
    - exists false. cbn. destruct (decide (field strip d "Sire" = ""));
        [inversion Hp|]. apply list_elem_of_singleton in Hp. subst p. auto.
    - exists true. cbn. destruct (decide (field strip d "Dam" = ""));
        [inversion Hp|]. apply list_elem_of_singleton in Hp. subst p. auto. }
  destruct Hside as (side & Hlink & Hpne).
  destruct l as [|q l].
  - exists [side]. split; [reflexivity|]. cbn. rewrite Hd, Hlink.
    now rewrite decide_False.
  - destruct (IH p Hc ltac:(discriminate)) as (sides & Hlen & Hf).
    exists (side :: sides). split; [cbn [length]; now rewrite Hlen|].
    cbn [follow]. rewrite Hd, Hlink, decide_False by exact Hpne.
    rewrite Hf. reflexivity.
Qed.

(** The depth that [clamp_depth] returns is used up: on a store without
    cyclic parentage, for a subject with a truthy row and a clamped depth
    between 1 and 19, the rows are placed and the last column of the
    sheet holds a cell. *)
Theorem clamped_sheet_is_full pk requested c d ipks :
  acyclic strip by_pk ->
  by_pk !! pk = Some d -> d <> ∅ ->
  clamp_depth strip pk by_pk requested = Ok c ->
  1 <= c <= 19 ->
  exists ops,
    place_pedigree strip upper pk by_pk c ipks = Ok ops /\
    exists n r, cell_for strip upper by_pk ipks n r c ∈ ops.
Proof.
  intros Hacyc Hd Hne Hclamp Hc.
  destruct (place_pedigree_returns strip upper by_pk c ipks pk Hacyc)
    as [ops Hrun].
  { unfold total_rows, excel_row_limit.
    rewrite bool_decide_eq_true_2 by lia.
    assert (2 ^ c <= 2 ^ 19) by (apply Z.pow_le_mono_r; lia).
    change (2 ^ 19) with 524288 in *. lia. }
  exists ops. split; [exact Hrun|].
  destruct Hacyc as [rank Hrank].
  pose proof (compute_max_depth_acyclic strip by_pk rank Hrank pk) as Hdepth.
  destruct (chain_depth_attained strip by_pk rank Hrank pk) as (l & Hl & Hlen).
  assert (Hcd : c <= depth_spec strip by_pk ∅ pk).
  { unfold clamp_depth in Hclamp. rewrite Hdepth in Hclamp.
    cbn in Hclamp. destruct requested; injection Hclamp as <-; lia. }
  pose proof (chain_take strip by_pk pk l (Z.to_nat c) Hl) as Htake.
  assert (Htl : length (take (Z.to_nat c) l) = Z.to_nat c)
    by (rewrite length_take; lia).
  destruct (chain_follow (take (Z.to_nat c) l) pk Htake)
    as (sides & Hsl & Hf).
  { intros E. rewrite E in Htl. cbn in Htl. lia. }
  destruct (last (take (Z.to_nat c) l)) as [n|] eqn:Hlast.
  2: { apply last_None in Hlast. rewrite Hlast in Htl. cbn in Htl. lia. }
  exists n, (3 + row_offset c 0 sides).
  apply (place_pedigree_cells_of strip upper by_pk c ipks pk ops Hrun);
    [exact I|].
  exists sides, n. split_and!.
  - destruct sides as [|side sides]; [cbn in Hsl; lia|].
    cbn [top_follow follow] in *. rewrite Hd in *.
    rewrite decide_False by exact Hne. exact Hf.
  - lia.
  - f_equal. lia.
Qed.

End Marks.

Lemma red_borders_witness :
  either_sum (fun sum_mode =>
  exists inbred subsumed ops,
    collect_inbreeding ascii_strip "S" store_2x2 3 = Ok (inbred, subsumed) /\
    place_pedigree ascii_strip ascii_upper "S" store_2x2 3
      (inbred_pks inbred subsumed) = Ok ops /\
    (forall r c value fill,
       SetCell r c value fill true ∈ ops ->
       exists A, A ∈ inbred_pks inbred subsumed /\
         SetCell r c value fill true =
         cell_for ascii_strip ascii_upper store_2x2
           (inbred_pks inbred subsumed) A r c) /\
    (forall A, A ∈ inbred_pks inbred subsumed ->
       exists r1 c1 r2 c2, (r1, c1) <> (r2, c2) /\
         cell_for ascii_strip ascii_upper store_2x2
           (inbred_pks inbred subsumed) A r1 c1 ∈ ops /\
         cell_for ascii_strip ascii_upper store_2x2
           (inbred_pks inbred subsumed) A r2 c2 ∈ ops)).
Proof.
  both_sums ltac:(fun m =>
    eexists _, _, _; split; [vm_compute; reflexivity|];
    split; [vm_compute; reflexivity|];
    apply (red_borders (sum_mode := m)
             ascii_strip ascii_upper store_2x2 "S" 3);
      vm_compute; reflexivity).
Defined.

Lemma clamped_sheet_is_full_witness :
  acyclic ascii_strip store_2x2 /\
  store_2x2 !! "S" = Some (mk_row [("Sire", "F"); ("Dam", " M ")]) /\
  mk_row [("Sire", "F"); ("Dam", " M ")] <> ∅ /\
  clamp_depth ascii_strip "S" store_2x2 (Some 9) = Ok 3 /\
  1 <= 3 <= 19 /\
  exists ops,
    place_pedigree ascii_strip ascii_upper "S" store_2x2 3 ∅ = Ok ops /\
    exists n r, cell_for ascii_strip ascii_upper store_2x2 ∅ n r 3 ∈ ops.
Proof.
  assert (H1 : store_2x2 !! "S" = Some (mk_row [("Sire", "F"); ("Dam", " M ")]))
    by (vm_compute; reflexivity).
  assert (H2 : mk_row [("Sire", "F"); ("Dam", " M ")] <> ∅) by by_compute.
  assert (H3 : clamp_depth ascii_strip "S" store_2x2 (Some 9) = Ok 3)
    by (vm_compute; reflexivity).
  assert (H4 : 1 <= 3 <= 19) by lia.
  split; [exact store_2x2_acyclic|]. do 4 (split; [assumption|]).
  exact (clamped_sheet_is_full ascii_strip ascii_upper store_2x2 "S" (Some 9)
           3 _ ∅ store_2x2_acyclic H1 H2 H3 H4).
Defined.

Lemma top_call_outcome strip upper by_pk max_depth inbred_pks
    (P : Prop) `{!Decision P} node rs re st :
  let r := if decide P then Ok st
           else place_node strip upper by_pk max_depth inbred_pks
                  node 0 rs re st in
  (exists st', r = Ok st') \/ r = Raised "KeyError".
Proof.
  destruct (decide P); cbn; [left; eauto|].
  pose proof (place_node_shape strip upper by_pk max_depth inbred_pks
                node 0 rs re st) as Hs.
  destruct (place_node _ _ _ _ _ _ _ _ _ _) as [st'|e|]; cbn in Hs.
  - left. eauto.
  - right. now subst e.
  - contradiction.
Qed.

Lemma place_pedigree_outcomes strip upper pk by_pk max_depth inbred_pks :
  (20 <= max_depth /\
   place_pedigree strip upper pk by_pk max_depth inbred_pks =
     Raised "SystemExit") \/
  (max_depth < 20 /\
   ((exists ops,
       place_pedigree strip upper pk by_pk max_depth inbred_pks = Ok ops) \/
    place_pedigree strip upper pk by_pk max_depth inbred_pks =
      Raised "KeyError")).
Proof.
  unfold place_pedigree, total_rows, excel_row_limit.
  destruct (bool_decide (0 < max_depth)) eqn:Hpos.
  - apply bool_decide_eq_true in Hpos.
    destruct (bool_decide (1048576 < 2 ^ max_depth + 2)) eqn:Hlim.
    + apply bool_decide_eq_true in Hlim. left. split; [|reflexivity].
      destruct (Z_lt_dec max_depth 20) as [Hlt|]; [|lia].
      assert (2 ^ max_depth <= 2 ^ 19) by (apply Z.pow_le_mono_r; lia).
      change (2 ^ 19) with 524288 in *. lia.
    + apply bool_decide_eq_false in Hlim. right. split.
      { destruct (Z_lt_dec max_depth 20) as [|Hge]; [assumption|].
        assert (2 ^ 20 <= 2 ^ max_depth) by (apply Z.pow_le_mono_r; lia).
        change (2 ^ 20) with 1048576 in *. lia. }
      cbv zeta. destruct (decide (_ /\ _)); [left; eauto|].
      match goal with
      | |- context [@mbind _ _ _ _ _ ?a] => set (r1 := a)
      end.
      assert (O1 : (exists st', r1 = Ok st') \/ r1 = Raised "KeyError")
        by (unfold r1; apply top_call_outcome).
      destruct O1 as [[st1 E1]|E1]; rewrite E1; cbn [mbind outcome_bind];
        [|right; reflexivity].
      match goal with
      | |- context [@mbind _ _ _ _ _ ?a] => set (r2 := a)
      end.
      assert (O2 : (exists st', r2 = Ok st') \/ r2 = Raised "KeyError")
        by (unfold r2; apply top_call_outcome).
      destruct O2 as [[st2 E2]|E2]; rewrite E2; cbn [mbind outcome_bind];
        [left; eauto|right; reflexivity].
  - apply bool_decide_eq_false in Hpos.
    rewrite bool_decide_eq_false_2 by lia. right. split; [lia|left; eauto].
Qed.

(** The sheet has room for 19 generations: [write_excel] gives up with
    [SystemExit] exactly when [max_depth] is 20 or more, whatever the
    store holds.  Below 20 it returns the calls made on the worksheet,
    and the one error it can raise is the [KeyError] of
    [visiting.remove]. *)
Theorem place_pedigree_row_limit strip upper pk by_pk max_depth inbred_pks :
  (place_pedigree strip upper pk by_pk max_depth inbred_pks =
     Raised "SystemExit" <->
   20 <= max_depth) /\
  (max_depth < 20 ->
   (exists ops,
      place_pedigree strip upper pk by_pk max_depth inbred_pks = Ok ops) \/
   place_pedigree strip upper pk by_pk max_depth inbred_pks =
     Raised "KeyError").
Proof.
  destruct (place_pedigree_outcomes strip upper pk by_pk max_depth inbred_pks)
    as [[H20 E]|[H20 E]].
  - split; [split; auto|lia].
  - split; [|intros _; exact E]. split; [|lia].
    intros E'. destruct E as [[ops E]|E]; rewrite E in E'; discriminate.
Qed.

(** At 19 generations the sheet is written down to the last row, and at
    20 it is refused. *)
Lemma place_pedigree_row_limit_witness :
  19 < 20 /\
  ((exists ops,
      place_pedigree ascii_strip ascii_upper "S" store_2x2 19 ∅ = Ok ops) \/
   place_pedigree ascii_strip ascii_upper "S" store_2x2 19 ∅ =
     Raised "KeyError") /\
  place_pedigree ascii_strip ascii_upper "S" store_2x2 20 ∅ =
    Raised "SystemExit".
Proof.
  split; [lia|]. split.
  - apply (place_pedigree_row_limit ascii_strip ascii_upper "S" store_2x2
             19 ∅). lia.
  - apply (place_pedigree_row_limit ascii_strip ascii_upper "S" store_2x2
             20 ∅). lia.
Defined.

Lemma place_pedigree_cells_witness :
  exists ops,
    place_pedigree ascii_strip ascii_upper "S" store_2x2 3 {["G"]} = Ok ops /\
    forall op, is_cell op ->
      op ∈ ops <->
      exists sides n,
        top_follow ascii_strip store_2x2 "S" sides = Some n /\
        Z.of_nat (length sides) <= 3 /\
        op = cell_for ascii_strip ascii_upper store_2x2 {["G"]} n
               (3 + row_offset 3 0 sides) (Z.of_nat (length sides)).
Proof.
  eexists. split; [vm_compute; reflexivity|].
  apply (place_pedigree_cells ascii_strip ascii_upper store_2x2 3 {["G"]} "S").
  vm_compute; reflexivity.
Defined.

End MakePedigreeFacts.


(** * Cyclic parentage *)
Module Robustness.
Import MakePedigree MakePedigreeFacts.



(** What the two functions return on these stores: the tree of "X"
    repeats "X" down the sire line, and the analyzer reports "X", reached
    once through each parent of "S". *)
Example cyclic_runs :
  (Pedigree.key ∘ Pedigree.horse <$>
     Pedigree.subnodes (Pedigree.build_tree Pedigree.stable "X" 3))
    = ["X"; "X"; "X"; ""; ""; ""; ""] /\
  either_sum (fun sum_mode =>
  exists inbred,
    collect_inbreeding ascii_strip "S" store_cyclic 4 = Ok (inbred, ∅) /\
    dict_keys inbred = ["X"] /\
    (paths <$> dict_get inbred "X") = Some [["X"]; ["Y"; "X"]] /\
    (percentage <$> dict_get inbred "X") = Some 75%float).
Proof.
  split; [vm_compute; reflexivity|].
  split; (eexists; split; [vm_compute; reflexivity|];
          split; [|split]; vm_compute; reflexivity).
Qed.

End Robustness.
